(** * Finite-group engine: a shallow embedding of [functions.py] and [groups.py]

    The Python program computes with a finite group given by an element
    collection and a binary operation.  Element values are an opaque type
    [T] with Python's [==] (class [PyEq]) and [<] (class [PyOrd]); the
    operation is a Python callable, which may raise, so it has type
    [T -> T -> result T].  Attribute look-ups that can fail, dictionary
    look-ups and calls are threaded through the error monad [result]. *)

From Stdlib Require Import String.
From Stdlib Require Import List ZArith Lia Bool Arith Permutation Sorted.
Import ListNotations.

Set Implicit Arguments.

(** ** Python run-time: exceptions *)

Inductive exn : Type :=
| AttributeError (attr : string)
| KeyError
| TypeError.

Inductive result (A : Type) : Type :=
| Ok (a : A)
| Raise (e : exn).

Arguments Ok {A} a.
Arguments Raise {A} e.

Definition bind {A B : Type} (r : result A) (k : A -> result B) : result B :=
  match r with
  | Ok a => k a
  | Raise e => Raise e
  end.

Notation "x <- r ;; k" := (bind r (fun x => k))
  (at level 61, r at next level, right associativity).

(** ** Python values: equality and ordering *)

Class PyEq (T : Type) := py_eq_dec : forall x y : T, {x = y} + {x <> y}.

(** [py_lt] is Python's [<], the only comparison [sorted] uses. *)
Class PyOrd (T : Type) := py_lt : T -> T -> bool.

(** The "totally orderable" precondition on element values. *)
Record StrictTotalOrder (T : Type) (lt : T -> T -> bool) : Prop := {
  lt_irrefl : forall x, lt x x = false;
  lt_trans : forall x y z, lt x y = true -> lt y z = true -> lt x z = true;
  lt_total : forall x y, x <> y -> lt x y = true \/ lt y x = true
}.

#[export] Instance PyEq_Z : PyEq Z := Z.eq_dec.
#[export] Instance PyOrd_Z : PyOrd Z := Z.ltb.

#[export] Instance PyEq_prod (A B : Type) `{PyEq A} `{PyEq B} : PyEq (A * B).
Proof.
  intros [a b] [a' b'].
  destruct (py_eq_dec a a') as [Ha | Ha].
  - destruct (py_eq_dec b b') as [Hb | Hb].
    + left. now subst.
    + right. intros E. now inversion E.
  - right. intros E. now inversion E.
Defined.

#[export] Instance PyEq_list (A : Type) `{PyEq A} : PyEq (list A) :=
  list_eq_dec py_eq_dec.

Section Runtime.
Context {T : Type} `{PyEq T}.

(** [x == y] *)
Definition eqb (x y : T) : bool :=
  if py_eq_dec x y then true else false.

(** [x in l] for a list or tuple [l] *)
Fixpoint contains (l : list T) (x : T) : bool :=
  match l with
  | [] => false
  | y :: l' => if eqb x y then true else contains l' x
  end.

(** A Python [set] is kept as a duplicate-free list in insertion order.
    The iteration order of a real [set] is unspecified; every use in the
    source either sorts the set or is read up to order. *)
Definition set_add (s : list T) (x : T) : list T :=
  if contains s x then s else s ++ [x].

Definition set_of_list (l : list T) : list T :=
  fold_left set_add l [].

(** A [dict] as an association list in insertion order with unique keys. *)
Fixpoint dict_set {V : Type} (d : list (T * V)) (k : T) (v : V) : list (T * V) :=
  match d with
  | [] => [(k, v)]
  | (k', v') :: d' =>
      if eqb k k' then (k, v) :: d' else (k', v') :: dict_set d' k v
  end.

Fixpoint dict_get {V : Type} (d : list (T * V)) (k : T) : option V :=
  match d with
  | [] => None
  | (k', v') :: d' => if eqb k k' then Some v' else dict_get d' k
  end.

(** [k in d] *)
Definition dict_mem {V : Type} (d : list (T * V)) (k : T) : bool :=
  match dict_get d k with Some _ => true | None => false end.

(** [d[k]] *)
Definition dict_lookup {V : Type} (d : list (T * V)) (k : T) : result V :=
  match dict_get d k with
  | Some v => Ok v
  | None => Raise KeyError
  end.

(** [d.values()] *)
Definition dict_values {V : Type} (d : list (T * V)) : list V :=
  map snd d.
End Runtime.

Section Sorting.
Context {T : Type} `{PyOrd T}.

(** [sorted], as a stable insertion sort on [<]. *)
Fixpoint insert_sorted (x : T) (l : list T) : list T :=
  match l with
  | [] => [x]
  | y :: l' => if py_lt x y then x :: y :: l' else y :: insert_sorted x l'
  end.

Definition sorted (l : list T) : list T :=
  fold_left (fun acc x => insert_sorted x acc) l [].
End Sorting.

(** ** Loops *)

(** [for x in l: if not f(x): return False] followed by [return True]. *)
Fixpoint all_m {A : Type} (f : A -> result bool) (l : list A) : result bool :=
  match l with
  | [] => Ok true
  | x :: l' => b <- f x ;; if b then all_m f l' else Ok false
  end.

(** [for x in l: if f(x): return x] (or [break] with [x]) followed by the
    fall-through, rendered as [None]. *)
Fixpoint find_m {A : Type} (f : A -> result bool) (l : list A) : result (option A) :=
  match l with
  | [] => Ok None
  | x :: l' => b <- f x ;; if b then Ok (Some x) else find_m f l'
  end.

(** [for x in l: acc = f(acc, x)] *)
Fixpoint fold_m {A B : Type} (f : B -> A -> result B) (acc : B) (l : list A) : result B :=
  match l with
  | [] => Ok acc
  | x :: l' => acc' <- f acc x ;; fold_m f acc' l'
  end.

(** [[f(x) for x in l]] *)
Fixpoint map_m {A B : Type} (f : A -> result B) (l : list A) : result (list B) :=
  match l with
  | [] => Ok []
  | x :: l' => y <- f x ;; ys <- map_m f l' ;; Ok (y :: ys)
  end.

(** [for i in range(n): b = body(b)] *)
Fixpoint for_range {A : Type} (n : nat) (body : A -> result A) (b : A) : result A :=
  match n with
  | O => Ok b
  | S n' => b' <- body b ;; for_range n' body b'
  end.

(** A lazy [map(f, filter(p, l))] consumed front to back: the items produced
    before the first exception, and that exception if there is one. *)
Fixpoint map_filter_m {A B : Type} (f : A -> result B) (p : A -> result bool)
    (l : list A) : list B * option exn :=
  match l with
  | [] => ([], None)
  | x :: l' =>
      match p x with
      | Raise e => ([], Some e)
      | Ok false => map_filter_m f p l'
      | Ok true =>
          match f x with
          | Raise e => ([], Some e)
          | Ok y => let (ys, r) := map_filter_m f p l' in (y :: ys, r)
          end
      end
  end.

(** ** functions.py *)

(** [itertools.combinations(A, k)]: the length-[k] subsequences of [A],
    in lexicographic order of the positions they take. *)
Fixpoint combinations {A : Type} (l : list A) (k : nat) : list (list A) :=
  match l with
  | [] => match k with O => [[]] | S _ => [] end
  | x :: l' =>
      match k with
      | O => [[]]
      | S k' => map (cons x) (combinations l' k') ++ combinations l' k
      end
  end.

(** [range(1, len(A))] is [seq 1 (length A - 1)], empty when [len(A) <= 1]. *)
Definition powerset {A : Type} (l : list A) : list (list A) :=
  [] :: flat_map (combinations l) (seq 1 (length l - 1)) ++ [l].

(** [s] is a subsequence of [l]: it takes some positions of [l], in order. *)
Inductive subseq {A : Type} : list A -> list A -> Prop :=
| subseq_nil : subseq [] []
| subseq_skip (x : A) (s l : list A) : subseq s l -> subseq s (x :: l)
| subseq_take (x : A) (s l : list A) : subseq s l -> subseq (x :: s) (x :: l).

(** Lexicographic order on tuples of positions. *)
Fixpoint lex_lt (s t : list nat) : Prop :=
  match s, t with
  | _, [] => False
  | [], _ :: _ => True
  | x :: s', y :: t' => x < y \/ (x = y /\ lex_lt s' t')
  end.

Fixpoint binom (n k : nat) : nat :=
  match n, k with
  | _, O => 1
  | O, S _ => 0
  | S n', S k' => binom n' k' + binom n' k
  end.

(** ** groups.py: class Group *)

(** [identity] is [None] while the attribute has not been assigned;
    [inverses] maps an element to the value [inverse] returned for it,
    which is an element or Python's [None]. *)
Record Group (T : Type) : Type := mkGroup {
  elements : list T;
  fn : T -> T -> result T;
  identity : option T;
  inverses : list (T * option T)
}.

Section GroupMethods.
Context {T : Type} `{PyEq T}.

(** reading [self.identity] *)
Definition get_identity (G : Group T) : result T :=
  match identity G with
  | Some e => Ok e
  | None => Raise (AttributeError "identity")
  end.

Definition operation (G : Group T) (a b : T) : result T :=
  fn G a b.

(** [operation] where the second argument is a value that may be Python's
    [None].  [None] is not an element value; the operations of this
    program (table look-up, component-wise product, coset look-up) raise
    on it, which is what the model records. *)
Definition operation_v (G : Group T) (a : T) (c : option T) : result T :=
  match c with
  | Some b => operation G a b
  | None => Raise TypeError
  end.

Definition is_identity (G : Group T) (a : T) : result bool :=
  all_m (fun b =>
           x <- fn G a b ;;
           if negb (eqb x b) then Ok false
           else y <- fn G b a ;; Ok (eqb y b))
        (elements G).

Definition cache_identity (G : Group T) : result (Group T) :=
  r <- find_m (is_identity G) (elements G) ;;
  Ok (match r with
      | Some a => mkGroup (elements G) (fn G) (Some a) (inverses G)
      | None => G
      end).

Definition inverse (G : Group T) (a : T) : result (option T) :=
  find_m (fun b =>
            x <- operation G a b ;;
            e <- get_identity G ;;
            Ok (eqb x e))
         (elements G).

Definition cache_inverses (G : Group T) : result (Group T) :=
  d <- fold_m (fun d g => v <- inverse G g ;; Ok (dict_set d g v))
              [] (elements G) ;;
  Ok (mkGroup (elements G) (fn G) (identity G) d).

(** [Group(elements, fn)] *)
Definition Group_init (els : list T) (f : T -> T -> result T) : result (Group T) :=
  G1 <- cache_identity (mkGroup els f None []) ;;
  cache_inverses G1.

Definition powerOf (G : Group T) (a : T) (n : Z) : result T :=
  if Z.eqb n 0 then get_identity G
  else
    for_range (Z.abs_nat n)
      (fun b =>
         c <- (if Z.ltb 0 n then Ok (Some a) else inverse G a) ;;
         operation_v G b c)
      a.

(** The [while] loop of [order], run for at most [fuel] tests of its
    condition; [None] when the fuel runs out first. *)
Fixpoint order_loop (fuel : nat) (G : Group T) (a x : T) (n : Z)
    : option (result Z) :=
  match fuel with
  | O => None
  | S fuel' =>
      match get_identity G with
      | Raise e => Some (Raise e)
      | Ok e =>
          if negb (eqb x e) then
            match operation G x a with
            | Raise e' => Some (Raise e')
            | Ok x' => order_loop fuel' G a x' (n + 1)
            end
          else Some (Ok n)
      end
  end.

Definition order (fuel : nat) (G : Group T) (a : T) : option (result Z) :=
  order_loop fuel G a a 1.

Definition is_subgroup (G : Group T) (H : list T) : result bool :=
  e <- get_identity G ;;
  if negb (contains H e) then Ok false
  else
    all_m (fun ab =>
             ib <- dict_lookup (inverses G) (snd ab) ;;
             x <- operation_v G (fst ab) ib ;;
             Ok (contains H x))
          (list_prod H H).

Definition is_normal_divisor (G : Group T) (N : list T) : result bool :=
  s <- is_subgroup G N ;;
  if negb s then Ok false
  else
    all_m (fun g =>
             g_ <- dict_lookup (inverses G) g ;;
             all_m (fun h =>
                      hg <- operation_v G h g_ ;;
                      n <- operation G g hg ;;
                      Ok (contains N n))
                   N)
          (elements G).

Definition subgroup (G : Group T) (H : list T) : result (Group T) :=
  Group_init H (fn G).

Definition subgroups (G : Group T) : list (Group T) * option exn :=
  map_filter_m (subgroup G) (is_subgroup G) (powerset (elements G)).

Definition normal_divisors (G : Group T) : list (Group T) * option exn :=
  map_filter_m (subgroup G) (is_normal_divisor G) (powerset (elements G)).

Context `{PyOrd T}.

Definition left_coset (G : Group T) (subgroup : list T) (a : T) : result (list T) :=
  s <- fold_m (fun s h => x <- operation G a h ;; Ok (set_add s x)) [] subgroup ;;
  Ok (sorted s).

Definition right_coset (G : Group T) (subgroup : list T) (a : T) : result (list T) :=
  s <- fold_m (fun s h => x <- operation G h a ;; Ok (set_add s x)) [] subgroup ;;
  Ok (sorted s).

Definition left_cosets (G : Group T) (subgroup : list T) : result (list (list T)) :=
  l <- map_m (left_coset G subgroup) (elements G) ;;
  Ok (set_of_list l).

Definition right_cosets (G : Group T) (subgroup : list T) : result (list (list T)) :=
  l <- map_m (right_coset G subgroup) (elements G) ;;
  Ok (set_of_list l).

(** The dictionary [GN] that [factorize] fills: coset to first element. *)
Definition factorize_GN (G N : Group T) : result (list (list T * T)) :=
  fold_m (fun GN g =>
            gn <- left_coset G (elements N) g ;;
            Ok (if dict_mem GN gn then GN else dict_set GN gn g))
         [] (elements G).

(** The [lambda] that [factorize] passes on as the quotient's operation. *)
Definition factorize_fn (G N : Group T) (GN : list (list T * T)) (x y : T) : result T :=
  v <- fn G x y ;;
  c <- left_coset G (elements N) v ;;
  dict_lookup GN c.

Definition factorize (G N : Group T) : result (Group T) :=
  GN <- factorize_GN G N ;;
  Group_init (sorted (dict_values GN)) (factorize_fn G N GN).
End GroupMethods.

(** [product] builds its elements from [self.elements] twice and applies
    [H.fn] to second components, so both groups range over one value type. *)
Definition product {T : Type} {EqT : PyEq T} (G H : Group T) : result (Group (T * T)) :=
  Group_init (list_prod (elements G) (elements G))
             (fun a b =>
                x <- fn G (fst a) (fst b) ;;
                y <- fn H (snd a) (snd b) ;;
                Ok (x, y)).

(** ** groups.py: the remaining methods of Group *)

(** [[x for x in l if p(x)]] *)
Fixpoint filter_m {A : Type} (p : A -> result bool) (l : list A) : result (list A) :=
  match l with
  | [] => Ok []
  | x :: l' => b <- p x ;; r <- filter_m p l' ;; Ok (if b then x :: r else r)
  end.

(** [itertools.product(l, repeat=n)]: the tuples of length [n] over [l], the
    last position varying fastest. *)
Fixpoint tuples {A : Type} (l : list A) (n : nat) : list (list A) :=
  match n with
  | O => [[]]
  | S n' => flat_map (fun x => map (cons x) (tuples l n')) l
  end.

(** [range(n)] for a Python integer [n]: empty when [n <= 0]. *)
Definition py_range (n : Z) : list Z :=
  map Z.of_nat (seq 0 (Z.to_nat n)).

Section MoreGroupMethods.
Context {T : Type} `{PyEq T}.

Definition is_central (G : Group T) (a : T) : result bool :=
  all_m (fun x =>
           ax <- operation G a x ;;
           xa <- operation G x a ;;
           Ok (eqb ax xa))
        (elements G).

Definition center (G : Group T) : result (Group T) :=
  l <- filter_m (is_central G) (elements G) ;;
  subgroup G l.

(** [orders], each call of [order] run with the given fuel: [None] when one
    of them runs out of it. *)
Fixpoint orders_loop (fuel : nat) (G : Group T) (l : list T)
    : option (result (list (T * Z))) :=
  match l with
  | [] => Some (Ok [])
  | a :: l' =>
      match order fuel G a with
      | None => None
      | Some (Raise e) => Some (Raise e)
      | Some (Ok n) =>
          match orders_loop fuel G l' with
          | None => None
          | Some (Raise e) => Some (Raise e)
          | Some (Ok r) => Some (Ok ((a, n) :: r))
          end
      end
  end.

Definition orders (fuel : nat) (G : Group T) : option (result (list (T * Z))) :=
  orders_loop fuel G (elements G).

(** The set that [generators] collects for one candidate tuple [gen]. *)
Definition generated (G : Group T) (maxPower : Z) (gen : list T) : result (list T) :=
  fold_m (fun s g =>
            fold_m (fun s p =>
                      x <- powerOf G g (p - maxPower) ;;
                      Ok (set_add s x))
                   s (py_range (maxPower * 2)))
         [] gen.

(** [generators(maxN, maxPower)], consumed front to back: the tuples yielded
    before the first exception, and that exception if there is one.
    [maxN = None] is the default argument. *)
Definition generators (G : Group T) (maxN : option Z) (maxPower : Z)
    : list (list T) * option exn :=
  let maxN' := match maxN with
               | None => Z.of_nat (length (elements G))
               | Some m => m
               end in
  map_filter_m (fun gen => Ok gen)
    (fun gen =>
       s <- generated G maxPower gen ;;
       Ok (Nat.eqb (length s) (length (elements G))))
    (flat_map (fun i => tuples (elements G) (Z.to_nat (i + 1))) (py_range maxN')).
End MoreGroupMethods.

(** [is_morphism(G_, fn)]; the default [fn] is [fun x => Ok x]. *)
Definition is_morphism {T U : Type} {EqU : PyEq U} (G : Group T) (G_ : Group U)
    (phi : T -> result U) : result bool :=
  all_m (fun ab =>
           c <- operation G (fst ab) (snd ab) ;;
           l <- phi c ;;
           x <- phi (fst ab) ;;
           y <- phi (snd ab) ;;
           r <- operation G_ x y ;;
           Ok (eqb l r))
        (list_prod (elements G) (elements G)).

(** ** groups.py: class GroupActor *)

(** The constructor assigns the attributes [G], [X] and [fn]. *)
Record GroupActor (T X : Type) : Type := mkGroupActor {
  actor_G : Group T;
  actor_X : list X;
  actor_fn : T -> X -> result X
}.

Section ActorMethods.
Context {T X : Type} `{PyEq T} `{PyEq X}.

Definition action (A : GroupActor T X) (g : T) (x : X) : result X :=
  actor_fn A g x.

(** Reading [self.x]: no attribute of that name is ever assigned
    (attribute names are case-sensitive), so the look-up raises. *)
Definition actor_x (A : GroupActor T X) : result (list X) :=
  Raise (AttributeError "x").

(** The first loop of [is_valid]: [Ok false] when it returns [False],
    [Ok true] when it runs to its end. *)
Definition identity_loop (A : GroupActor T X) : result bool :=
  all_m (fun x =>
           e <- get_identity (actor_G A) ;;
           y <- action A e x ;;
           Ok (eqb y x))
        (actor_X A).

Definition compatibility_loop (A : GroupActor T X) : result bool :=
  all_m (fun gh =>
           xs <- actor_x A ;;
           all_m (fun x =>
                    k <- operation (actor_G A) (fst gh) (snd gh) ;;
                    l <- action A k x ;;
                    hx <- action A (snd gh) x ;;
                    r <- action A (fst gh) hx ;;
                    Ok (eqb l r))
                 xs)
        (list_prod (elements (actor_G A)) (elements (actor_G A))).

Definition is_valid (A : GroupActor T X) : result bool :=
  ok <- identity_loop A ;;
  if negb ok then Ok false else compatibility_loop A.
End ActorMethods.

(** ** Group axioms on an element collection *)

Section GroupAxioms.
Context {T : Type} `{PyEq T}.
Variables (els : list T) (f : T -> T -> result T).

(** The value of the operation where the call returns. *)
Definition op (a b : T) : T :=
  match f a b with
  | Ok c => c
  | Raise _ => a
  end.

(** [els] with [f] is a group with identity [e]: the operation is defined
    and closed on [els], associative there, [e] is a two-sided identity and
    every element has a right inverse. *)
Record is_group (e : T) : Prop := {
  grp_closed : forall a b, In a els -> In b els ->
                 exists c, f a b = Ok c /\ In c els;
  grp_assoc : forall a b c, In a els -> In b els -> In c els ->
                 op (op a b) c = op a (op b c);
  grp_id_in : In e els;
  grp_id : forall a, In a els -> f e a = Ok a /\ f a e = Ok a;
  grp_inv : forall a, In a els -> exists b, In b els /\ f a b = Ok e
}.

(** The same, decided by enumeration. *)
Definition check_group (e : T) : bool :=
  forallb (fun a => forallb (fun b =>
     match f a b with Ok c => contains els c | Raise _ => false end) els) els
  && forallb (fun a => forallb (fun b => forallb (fun c =>
       eqb (op (op a b) c) (op a (op b c))) els) els) els
  && contains els e
  && forallb (fun a =>
       match f e a, f a e with
       | Ok x, Ok y => eqb x a && eqb y a
       | _, _ => false
       end) els
  && forallb (fun a => existsb (fun b =>
       match f a b with Ok x => eqb x e | Raise _ => false end) els) els.

(** The first right inverse in collection order, as [inverse] finds it. *)
Definition inv (e a : T) : T :=
  match find (fun b => eqb (op a b) e) els with
  | Some b => b
  | None => a
  end.

(** [a] combined with itself [k] times: the product of [k + 1] factors. *)
Fixpoint npow (a : T) (k : nat) : T :=
  match k with
  | O => a
  | S k' => op (npow a k') a
  end.

Context `{PyOrd T}.

(** The cosets [a S] and [S a] as canonical tuples. *)
Definition lcoset (S : list T) (a : T) : list T :=
  sorted (set_of_list (map (op a) S)).

Definition rcoset (S : list T) (a : T) : list T :=
  sorted (set_of_list (map (fun h => op h a) S)).

(** The first element, in collection order, whose left coset is that of [v]. *)
Definition rep (S : list T) (v : T) : T :=
  match find (fun g => eqb (lcoset S g) (lcoset S v)) els with
  | Some r => r
  | None => v
  end.

(** The dictionary from cosets to first elements, filled in collection order. *)
Definition GN_step (S : list T) (GN : list (list T * T)) (g : T)
    : list (list T * T) :=
  if dict_mem GN (lcoset S g) then GN else dict_set GN (lcoset S g) g.

Definition GN_of (S : list T) : list (list T * T) :=
  fold_left (GN_step S) els [].
End GroupAxioms.

(** What a family [L] of tuples must satisfy to partition [els] into
    blocks of the size of [S]. *)
Definition partitions {T : Type} (els S : list T) (L : list (list T)) : Prop :=
  (forall c, In c L -> NoDup c /\ length c = length S) /\
  (forall c1 c2 x, In c1 L -> In c2 L -> In x c1 -> In x c2 -> c1 = c2) /\
  (forall x, In x els <-> exists c, In c L /\ In x c).

(** [r] is the first entry of [l] that satisfies [P]. *)
Definition first_such {A : Type} (P : A -> Prop) (l : list A) (r : A) : Prop :=
  exists l1 l2, l = l1 ++ r :: l2 /\ P r /\ forall x, In x l1 -> ~ P x.

(** ** Concrete groups: the integers modulo [n] under addition *)

Definition add_mod (n : Z) (x y : Z) : result Z := Ok ((x + y) mod n)%Z.

Definition Zmod_elements (n : nat) : list Z := map Z.of_nat (seq 0 n).

Definition cyclic (n : nat) : result (Group Z) :=
  Group_init (Zmod_elements n) (add_mod (Z.of_nat n)).

Definition Z2 : Group Z :=
  mkGroup [0; 1]%Z (add_mod 2) (Some 0%Z) [(0, Some 0); (1, Some 1)]%Z.

Definition Z3 : Group Z :=
  mkGroup [0; 1; 2]%Z (add_mod 3) (Some 0%Z)
          [(0, Some 0); (1, Some 2); (2, Some 1)]%Z.

Definition Z4 : Group Z :=
  mkGroup [0; 1; 2; 3]%Z (add_mod 4) (Some 0%Z)
          [(0, Some 0); (1, Some 3); (2, Some 2); (3, Some 1)]%Z.

(** The subgroup [{0, 2}] of the integers modulo 4, as [subgroup] builds it. *)
Definition Z4_even : Group Z :=
  mkGroup [0; 2]%Z (add_mod 4) (Some 0%Z) [(0, Some 0); (2, Some 2)]%Z.

(** The symmetric group on 3 symbols on the codes 0..5, where [i + 3 j]
    stands for the rotation [r^i] followed by [j] reflections [s]. *)
Definition S3_op (x y : Z) : result Z :=
  Ok ((x mod 3 + (if x / 3 =? 0 then y mod 3 else 3 - y mod 3)) mod 3
      + 3 * ((x / 3 + y / 3) mod 2))%Z.

Definition S3 : Group Z :=
  mkGroup [0; 1; 2; 3; 4; 5]%Z S3_op (Some 0%Z)
          [(0, Some 0); (1, Some 2); (2, Some 1);
           (3, Some 3); (4, Some 4); (5, Some 5)]%Z.

(** A binary operation with no identity on [[0; 1]]: the constant 0. *)
Definition const_zero (x y : Z) : result Z := Ok 0%Z.

(** The integers modulo 2 acting on themselves by addition. *)
Definition Z2_on_itself : GroupActor Z Z :=
  mkGroupActor Z2 [0; 1]%Z (add_mod 2).

(** ** groups.py: [Group.from_file]

    The file is taken as the list of its lines, each line as the list of
    tokens that [row.split()] returns for it.  Besides the exceptions of
    the group code the loops can raise [IndexError]: [pop(0)] on a line
    without tokens, [elements[i]] past the end. *)

Inductive file_result (A : Type) : Type :=
| Loaded (a : A)
| IndexError.
Arguments Loaded {A} a.
Arguments IndexError {A}.

#[export] Instance PyEq_string : PyEq string := string_dec.

Section FromFile.
Context {T : Type} `{PyEq T}.

(** The first loop: the first token of a line is appended to [elements],
    the remaining tokens are stored in [rows] under it. *)
Fixpoint read_rows (lines : list (list T)) (elements : list T)
    (rows : list (T * list T)) : file_result (list T * list (T * list T)) :=
  match lines with
  | [] => Loaded (elements, rows)
  | row_elements :: lines' =>
      match row_elements with
      | [] => IndexError
      | a :: row_elements' =>
          read_rows lines' (elements ++ [a]) (dict_set rows a row_elements')
      end
  end.

(** [for i in range(len(row))], from position [i] on. *)
Fixpoint fill_row (a : T) (elements : list T) (row : list T) (i : nat)
    (mappings : list ((T * T) * T)) : file_result (list ((T * T) * T)) :=
  match row with
  | [] => Loaded mappings
  | c :: row' =>
      match nth_error elements i with
      | None => IndexError
      | Some b => fill_row a elements row' (S i) (dict_set mappings (a, b) c)
      end
  end.

(** [for a, row in rows.items()] *)
Fixpoint fill_rows (elements : list T) (rows : list (T * list T))
    (mappings : list ((T * T) * T)) : file_result (list ((T * T) * T)) :=
  match rows with
  | [] => Loaded mappings
  | (a, row) :: rows' =>
      match fill_row a elements row 0 mappings with
      | IndexError => IndexError
      | Loaded mappings' => fill_rows elements rows' mappings'
      end
  end.

Definition from_file (lines : list (list T)) : file_result (result (Group T)) :=
  match read_rows lines [] [] with
  | IndexError => IndexError
  | Loaded (elements, rows) =>
      match fill_rows elements rows [] with
      | IndexError => IndexError
      | Loaded mappings =>
          Loaded (Group_init elements (fun x y => dict_lookup mappings (x, y)))
      end
  end.

End FromFile.

(** The table of the group of order two, as the tokens of its two lines. *)
Definition Z2_file : list (list string) :=
  [["e"; "e"; "a"]; ["a"; "a"; "e"]]%string.


(** * Properties *)

(** ** The run-time model *)

Lemma bind_Ok_inv {A B : Type} (r : result A) (k : A -> result B) (b : B) :
  bind r k = Ok b -> exists a, r = Ok a /\ k a = Ok b.
Proof.
  destruct r as [a | e]; simpl; intros E.
  - now exists a.
  - discriminate.
Qed.

Lemma bind_ret {A : Type} (r : result A) : bind r Ok = r.
Proof. now destruct r. Qed.

Ltac inv_bind H :=
  let a := fresh "v" in
  let E := fresh "E" in
  apply bind_Ok_inv in H; destruct H as (a & E & H).

Section RuntimeFacts.
Context {T : Type} `{PyEq T}.

Lemma eqb_true (x y : T) : eqb x y = true <-> x = y.
Proof.
  unfold eqb. destruct (py_eq_dec x y); split; congruence.
Qed.

Lemma eqb_false (x y : T) : eqb x y = false <-> x <> y.
Proof.
  unfold eqb. destruct (py_eq_dec x y); split; congruence.
Qed.

Lemma eqb_refl (x : T) : eqb x x = true.
Proof. now apply eqb_true. Qed.

Lemma contains_In (l : list T) (x : T) : contains l x = true <-> In x l.
Proof.
  induction l as [| y l IH]; simpl.
  - split; [discriminate | tauto].
  - destruct (eqb x y) eqn:E.
    + apply eqb_true in E. subst. tauto.
    + apply eqb_false in E. rewrite IH. split; [tauto |].
      intros [-> | ?]; [congruence | assumption].
Qed.

Lemma contains_false (l : list T) (x : T) : contains l x = false <-> ~ In x l.
Proof.
  rewrite <- contains_In. destruct (contains l x); split; congruence.
Qed.

Lemma set_add_In (s : list T) (x y : T) :
  In y (set_add s x) <-> In y s \/ y = x.
Proof.
  unfold set_add. destruct (contains s x) eqn:E.
  - apply contains_In in E. split; [tauto |]. intros [? | ->]; assumption.
  - rewrite in_app_iff. simpl. intuition (subst; auto).
Qed.

Lemma set_add_NoDup (s : list T) (x : T) : NoDup s -> NoDup (set_add s x).
Proof.
  unfold set_add. intros Hs. destruct (contains s x) eqn:E; [assumption |].
  apply contains_false in E.
  apply NoDup_app; [assumption | repeat constructor; simpl; tauto |].
  intros a Ha [<- | []]. now apply E.
Qed.

Lemma fold_set_add_In (l s : list T) (y : T) :
  In y (fold_left set_add l s) <-> In y s \/ In y l.
Proof.
  revert s. induction l as [| x l IH]; intros s; simpl.
  - tauto.
  - rewrite IH, set_add_In. split; intros; intuition (subst; auto).
Qed.

Lemma fold_set_add_NoDup (l s : list T) :
  NoDup s -> NoDup (fold_left set_add l s).
Proof.
  revert s. induction l as [| x l IH]; intros s Hs; simpl.
  - assumption.
  - apply IH. now apply set_add_NoDup.
Qed.

Lemma set_of_list_In (l : list T) (y : T) : In y (set_of_list l) <-> In y l.
Proof.
  unfold set_of_list. rewrite fold_set_add_In. simpl. tauto.
Qed.

Lemma set_of_list_NoDup (l : list T) : NoDup (set_of_list l).
Proof.
  apply fold_set_add_NoDup. constructor.
Qed.

Lemma fold_set_add_length (l s : list T) :
  NoDup (s ++ l) -> length (fold_left set_add l s) = length s + length l.
Proof.
  revert s. induction l as [| x l IH]; intros s Hs; simpl.
  - lia.
  - assert (Hx : contains s x = false).
    { apply contains_false. intros Hin.
      apply NoDup_remove_2 in Hs. apply Hs. apply in_or_app. now left. }
    unfold set_add at 2. rewrite Hx.
    rewrite IH.
    + rewrite length_app. simpl. lia.
    + rewrite <- app_assoc. exact Hs.
Qed.

Lemma set_of_list_length (l : list T) :
  NoDup l -> length (set_of_list l) = length l.
Proof.
  intros Hl. unfold set_of_list. now rewrite fold_set_add_length.
Qed.
End RuntimeFacts.

Section LoopFacts.
Context {A : Type}.

Lemma all_m_true (f : A -> result bool) (l : list A) :
  all_m f l = Ok true <-> forall x, In x l -> f x = Ok true.
Proof.
  induction l as [| x l IH]; simpl.
  - split; [intros _ ? [] | reflexivity].
  - split.
    + intros E y [<- | Hy].
      * destruct (f x) as [[|] | e]; simpl in E; congruence.
      * destruct (f x) as [[|] | e]; simpl in E; try discriminate.
        now apply IH.
    + intros Hall. rewrite (Hall x (or_introl eq_refl)). simpl.
      apply IH. intros y Hy. apply Hall. now right.
Qed.

Lemma all_m_pure (f : A -> result bool) (g : A -> bool) (l : list A) :
  (forall x, In x l -> f x = Ok (g x)) -> all_m f l = Ok (forallb g l).
Proof.
  induction l as [| x l IH]; simpl; intros Hf.
  - reflexivity.
  - rewrite (Hf x (or_introl eq_refl)). simpl.
    destruct (g x); simpl; [| reflexivity].
    apply IH. intros y Hy. apply Hf. now right.
Qed.

Lemma find_m_pure (f : A -> result bool) (g : A -> bool) (l : list A) :
  (forall x, In x l -> f x = Ok (g x)) -> find_m f l = Ok (find g l).
Proof.
  induction l as [| x l IH]; simpl; intros Hf.
  - reflexivity.
  - rewrite (Hf x (or_introl eq_refl)). simpl.
    destruct (g x); [reflexivity |].
    apply IH. intros y Hy. apply Hf. now right.
Qed.

Lemma find_m_Some (f : A -> result bool) (l : list A) (a : A) :
  find_m f l = Ok (Some a) -> In a l /\ f a = Ok true.
Proof.
  induction l as [| x l IH]; simpl; intros E.
  - discriminate.
  - destruct (f x) as [[|] | e] eqn:Fx; simpl in E; try discriminate.
    + inversion E; subst. auto.
    + destruct (IH E). auto.
Qed.

Lemma fold_m_pure {B : Type} (f : B -> A -> result B) (g : B -> A -> B)
    (l : list A) (acc : B) :
  (forall b x, In x l -> f b x = Ok (g b x)) ->
  fold_m f acc l = Ok (fold_left g l acc).
Proof.
  revert acc. induction l as [| x l IH]; simpl; intros acc Hf.
  - reflexivity.
  - rewrite (Hf acc x (or_introl eq_refl)). simpl.
    apply IH. intros b y Hy. apply Hf. now right.
Qed.

Lemma map_m_pure {B : Type} (f : A -> result B) (g : A -> B) (l : list A) :
  (forall x, In x l -> f x = Ok (g x)) -> map_m f l = Ok (map g l).
Proof.
  induction l as [| x l IH]; simpl; intros Hf.
  - reflexivity.
  - rewrite (Hf x (or_introl eq_refl)). simpl.
    rewrite IH; [reflexivity |].
    intros y Hy. apply Hf. now right.
Qed.
End LoopFacts.

(** ** Construction of a Group *)

Section Construction.
Context {T : Type} `{PyEq T}.

Lemma is_identity_true (G : Group T) (a : T) :
  is_identity G a = Ok true <->
  forall b, In b (elements G) -> fn G a b = Ok b /\ fn G b a = Ok b.
Proof.
  unfold is_identity. rewrite all_m_true.
  split; intros Hall b Hb; specialize (Hall b Hb).
  - destruct (fn G a b) as [x | e]; simpl in Hall; [| discriminate].
    destruct (eqb x b) eqn:Ex; simpl in Hall; [| discriminate].
    apply eqb_true in Ex. subst x.
    destruct (fn G b a) as [y | e]; simpl in Hall; [| discriminate].
    inversion Hall as [Ey]. apply eqb_true in Ey. now subst.
  - destruct Hall as [-> ->]. simpl. now rewrite !eqb_refl.
Qed.

Lemma is_identity_defined (G : Group T) (a : T) :
  (forall b, In b (elements G) ->
     (exists c, fn G a b = Ok c) /\ (exists c, fn G b a = Ok c)) ->
  exists r, is_identity G a = Ok r.
Proof.
  unfold is_identity. induction (elements G) as [| b l IH]; intros Hd; simpl.
  - now exists true.
  - destruct (Hd b (or_introl eq_refl)) as [[c ->] [d ->]]. simpl.
    destruct (eqb c b); simpl; [| now exists false].
    destruct (eqb d b); [| now exists false].
    apply IH. intros x Hx. apply Hd. now right.
Qed.

Lemma find_m_none {A : Type} (f : A -> result bool) (l : list A) :
  (forall x, In x l -> f x = Ok false) -> find_m f l = Ok None.
Proof.
  intros Hf. rewrite (find_m_pure f (fun _ => false)); [| assumption].
  induction l; simpl; auto. apply IHl. intros; apply Hf; now right.
Qed.

Lemma inverse_ext (G G' : Group T) (a : T) :
  elements G = elements G' -> fn G = fn G' -> identity G = identity G' ->
  inverse G a = inverse G' a.
Proof.
  unfold inverse, operation, get_identity. now intros -> -> ->.
Qed.

Lemma is_identity_ext (G G' : Group T) (a : T) :
  elements G = elements G' -> fn G = fn G' ->
  is_identity G a = is_identity G' a.
Proof.
  unfold is_identity. now intros -> ->.
Qed.

Lemma cache_identity_fields (G G' : Group T) :
  cache_identity G = Ok G' ->
  elements G' = elements G /\ fn G' = fn G /\ inverses G' = inverses G.
Proof.
  unfold cache_identity. intros E. inv_bind E.
  inversion E; subst. destruct v; simpl; auto.
Qed.

Lemma cache_identity_found (G G' : Group T) :
  identity G = None -> cache_identity G = Ok G' ->
  match identity G' with
  | Some e => In e (elements G) /\ is_identity G e = Ok true
  | None => True
  end.
Proof.
  unfold cache_identity. intros HG E. inv_bind E.
  inversion E; subst. destruct v as [a |]; simpl.
  - now apply find_m_Some in E0.
  - now rewrite HG.
Qed.

Lemma Group_init_fields (els : list T) (f : T -> T -> result T) (G : Group T) :
  Group_init els f = Ok G -> elements G = els /\ fn G = f.
Proof.
  unfold Group_init, cache_inverses. intros E. inv_bind E. inv_bind E.
  inversion E; subst; simpl.
  apply cache_identity_fields in E0. simpl in E0. tauto.
Qed.

(** The cached identity, when there is one, is an element and a two-sided
    identity on the element collection. *)
Lemma Group_init_identity (els : list T) (f : T -> T -> result T)
    (G : Group T) (e : T) :
  Group_init els f = Ok G -> identity G = Some e ->
  In e els /\ forall b, In b els -> f e b = Ok b /\ f b e = Ok b.
Proof.
  unfold Group_init, cache_inverses. intros E He. inv_bind E. inv_bind E.
  inversion E; subst; simpl in He.
  apply cache_identity_found in E0; [| reflexivity].
  rewrite He in E0. simpl in E0. destruct E0 as [Hin Hid].
  split; [assumption |]. exact (proj1 (is_identity_true _ _) Hid).
Qed.

Lemma dict_get_set_same {V : Type} (d : list (T * V)) (k : T) (v : V) :
  dict_get (dict_set d k v) k = Some v.
Proof.
  induction d as [| [k' v'] d IH]; simpl.
  - now rewrite eqb_refl.
  - destruct (eqb k k') eqn:E; simpl.
    + now rewrite eqb_refl.
    + now rewrite E.
Qed.

Lemma dict_get_set_other {V : Type} (d : list (T * V)) (k k0 : T) (v : V) :
  k0 <> k -> dict_get (dict_set d k v) k0 = dict_get d k0.
Proof.
  intros Hne. induction d as [| [k' v'] d IH]; simpl.
  - apply eqb_false in Hne. now rewrite Hne.
  - destruct (eqb k k') eqn:E; simpl.
    + apply eqb_true in E. subst k'.
      apply eqb_false in Hne. now rewrite Hne.
    + destruct (eqb k0 k'); auto.
Qed.

(** Filling a dictionary with [d[g] = value(g)] for every [g] of a list. *)
Lemma fold_dict_set_get {V : Type} (F : T -> result V) (l : list T)
    (d0 d : list (T * V)) :
  fold_m (fun d g => v <- F g ;; Ok (dict_set d g v)) d0 l = Ok d ->
  forall k,
    (In k l -> exists v, F k = Ok v /\ dict_get d k = Some v) /\
    (~ In k l -> dict_get d k = dict_get d0 k).
Proof.
  revert d0. induction l as [| g l IH]; simpl; intros d0 E k.
  - inversion E; subst. split; [intros [] | reflexivity].
  - inv_bind E. inv_bind E0. inversion E0; subst v. clear E0.
    specialize (IH _ E k). destruct IH as [IH1 IH2].
    destruct (in_dec py_eq_dec k l) as [Hin | Hnin].
    + split; [intros _; now apply IH1 | intros Hn; exfalso; apply Hn; now right].
    + split.
      * intros [-> | Hin]; [| contradiction].
        exists v0. split; [assumption |].
        rewrite (IH2 Hnin). apply dict_get_set_same.
      * intros Hn. rewrite (IH2 Hnin). apply dict_get_set_other.
        intros ->. apply Hn. now left.
Qed.

(** The cache holds, for every element, what the inverse search returns
    for it, and has no other key. *)
Lemma Group_init_inverses (els : list T) (f : T -> T -> result T) (G : Group T) :
  Group_init els f = Ok G ->
  forall a,
    (In a els -> exists v, inverse G a = Ok v /\ dict_get (inverses G) a = Some v) /\
    (~ In a els -> dict_get (inverses G) a = None).
Proof.
  unfold Group_init, cache_inverses. intros E a. inv_bind E. inv_bind E.
  inversion E; subst; simpl. clear E.
  destruct (cache_identity_fields _ E0) as (Hel & Hfn & _). simpl in *.
  apply fold_dict_set_get with (k := a) in E1. rewrite Hel in E1.
  destruct E1 as [H1 H2]. split.
  - intros Hin. destruct (H1 Hin) as (w & Hw & Hg). exists w. split; [| assumption].
    rewrite <- Hw. now apply inverse_ext.
  - intros Hn. now rewrite (H2 Hn).
Qed.
End Construction.

(** ** powerOf, order and product on concrete groups *)

Lemma cyclic_2 : cyclic 2 = Ok Z2.
Proof. reflexivity. Qed.

Lemma cyclic_3 : cyclic 3 = Ok Z3.
Proof. reflexivity. Qed.

Lemma cyclic_4 : cyclic 4 = Ok Z4.
Proof. reflexivity. Qed.

Section PowerFacts.
Context {T : Type} `{PyEq T}.

Lemma powerOf_zero (G : Group T) (a : T) : powerOf G a 0 = get_identity G.
Proof. reflexivity. Qed.

(** One pass of the loop already applies the operation to [a] and [a]. *)
Lemma powerOf_one (G : Group T) (a : T) : powerOf G a 1 = operation G a a.
Proof.
  unfold powerOf. simpl. unfold operation. now destruct (fn G a a).
Qed.

Lemma powerOf_minus_one (G : Group T) (a : T) :
  powerOf G a (-1) = (c <- inverse G a ;; operation_v G a c).
Proof.
  unfold powerOf. simpl. destruct (inverse G a) as [c |]; simpl; [| reflexivity].
  now destruct (operation_v G a c).
Qed.

Lemma order_loop_more (fuel : nat) (G : Group T) (a x : T) (n : Z) (r : result Z) :
  order_loop fuel G a x n = Some r ->
  forall fuel', (fuel <= fuel')%nat -> order_loop fuel' G a x n = Some r.
Proof.
  revert x n. induction fuel as [| fuel IH]; intros x n E fuel' Hle.
  - discriminate.
  - destruct fuel' as [| fuel']; [lia |]. simpl in *.
    destruct (get_identity G) as [e |]; [| assumption].
    destruct (negb (eqb x e)); [| assumption].
    destruct (operation G x a); [| assumption].
    apply IH; [assumption | lia].
Qed.
End PowerFacts.

(** C1 (the code departs from the claim): in the additive group of the
    integers modulo 3, whose cached identity is 0, [powerOf(1, 0)] is the
    identity, but [powerOf(1, 1)] is [1 + 1 = 2], not 1, and
    [powerOf(1, -1)] is [1 + inverse(1) = 0], not [inverse(1) = 2]. *)
Theorem powerOf_Z3_off_by_one :
  Group_init [0; 1; 2]%Z (add_mod 3) = Ok Z3 /\
  powerOf Z3 1%Z 0 = Ok 0%Z /\
  powerOf Z3 1%Z 1 = Ok 2%Z /\
  inverse Z3 1%Z = Ok (Some 2%Z) /\
  powerOf Z3 1%Z (-1) = Ok 0%Z.
Proof.
  repeat split; reflexivity.
Qed.

(** C3 (the code departs from the claim): in the additive group of the
    integers modulo 2, [order(1)] stops and returns 2, while
    [powerOf(1, 1)] is already the identity 0, so the least [n >= 1] with
    [powerOf(1, n) = identity] is 1. *)
Theorem order_Z2_not_least_powerOf :
  Group_init [0; 1]%Z (add_mod 2) = Ok Z2 /\
  identity Z2 = Some 0%Z /\
  order 2 Z2 1%Z = Some (Ok 2%Z) /\
  powerOf Z2 1%Z 1 = Ok 0%Z.
Proof.
  repeat split; reflexivity.
Qed.

Lemma product_elements {T : Type} {EqT : PyEq T} (G H : Group T) (P : Group (T * T)) :
  product G H = Ok P ->
  elements P = list_prod (elements G) (elements G) /\
  length (elements P) = (length (elements G) * length (elements G))%nat.
Proof.
  unfold product. intros E. apply Group_init_fields in E.
  destruct E as [-> _]. split; [reflexivity | apply length_prod].
Qed.

(** C2 (the code departs from the claim): the product of the integers
    modulo 2 with the integers modulo 3 is built on the pairs of elements of
    the first group alone, so it has 4 elements where [|G| * |H|] is 6, and
    no pair has 2 as second component. *)
Theorem product_Z2_Z3_elements :
  exists P : Group (Z * Z),
    product Z2 Z3 = Ok P /\
    elements P = [(0, 0); (0, 1); (1, 0); (1, 1)]%Z /\
    length (elements P) = 4%nat /\
    (length (elements Z2) * length (elements Z3))%nat = 6%nat /\
    fn P (1, 1)%Z (1, 1)%Z = Ok (0, 2)%Z.
Proof.
  eexists. split; [vm_compute; reflexivity |]. repeat split.
Qed.

(** ** Construction without an identity *)

Section NoIdentity.
Context {T : Type} `{PyEq T}.

Lemma get_identity_unset (G : Group T) :
  identity G = None -> get_identity G = Raise (AttributeError "identity").
Proof.
  unfold get_identity. now intros ->.
Qed.

Lemma inverse_not_found (G : Group T) (a : T) :
  (forall b, In b (elements G) ->
     exists c e, fn G a b = Ok c /\ identity G = Some e /\ c <> e) ->
  inverse G a = Ok None.
Proof.
  intros Hb. unfold inverse. apply find_m_none. intros b Hin.
  destruct (Hb b Hin) as (c & e & Hc & He & Hne).
  unfold operation, get_identity. rewrite Hc, He. simpl.
  apply eqb_false in Hne. now rewrite Hne.
Qed.

Lemma inverse_unset_identity (G : Group T) (a : T) :
  identity G = None ->
  (exists b l c, elements G = b :: l /\ fn G a b = Ok c) ->
  inverse G a = Raise (AttributeError "identity").
Proof.
  intros Hid (b & l & c & Hel & Hc). unfold inverse, operation.
  rewrite Hel. simpl. rewrite Hc. simpl.
  now rewrite (get_identity_unset G Hid).
Qed.
End NoIdentity.

(** C8 (as stated, refuted): on the elements [[0; 1]] with the constant
    operation 0 no element is an identity, and constructing the Group
    raises; it does not complete.  On the empty collection, where
    construction completes with the identity undefined, [powerOf(a, 0)]
    raises instead of returning a value. *)
Lemma Group_init_const_zero_raises :
  (forall e, In e [0; 1]%Z ->
     ~ (forall b, In b [0; 1]%Z -> const_zero e b = Ok b /\ const_zero b e = Ok b)) /\
  Group_init [0; 1]%Z const_zero = Raise (AttributeError "identity") /\
  ~ (exists G, Group_init [0; 1]%Z const_zero = Ok G) /\
  Group_init [] const_zero = Ok (mkGroup [] const_zero None []) /\
  powerOf (mkGroup [] const_zero None []) 0%Z 0 = Raise (AttributeError "identity").
Proof.
  split; [| split; [| split; [| split]]].
  - intros e _ Hall. destruct (Hall 1%Z) as [E _]; [simpl; tauto |].
    discriminate E.
  - reflexivity.
  - intros [G E]. discriminate E.
  - reflexivity.
  - reflexivity.
Qed.

(** C8 (amended): for a total operation with no identity element on the
    collection, the identity search ends silently with the identity left
    undefined; constructing the Group then raises the attribute error for
    [identity] from the inverse caching when the collection is non-empty,
    and completes only for the empty collection.  On an object whose identity
    is undefined, [powerOf(a, 0)] and [is_subgroup] raise that same error.
    The inverse search returns the not-found value [None] when every
    [operation(a, b)] differs from a defined identity. *)
Theorem Group_init_without_identity {T : Type} `{PyEq T}
    (els : list T) (f : T -> T -> result T) :
  (forall a b, In a els -> In b els -> exists c, f a b = Ok c) ->
  (forall e, In e els ->
     ~ (forall b, In b els -> f e b = Ok b /\ f b e = Ok b)) ->
  let G0 := mkGroup els f None [] in
  cache_identity G0 = Ok G0 /\
  (els <> [] -> Group_init els f = Raise (AttributeError "identity")) /\
  (els = [] -> Group_init els f = Ok G0) /\
  (forall a, powerOf G0 a 0 = Raise (AttributeError "identity")) /\
  (forall S, is_subgroup G0 S = Raise (AttributeError "identity")) /\
  (forall (G : Group T) a,
     (forall b, In b (elements G) ->
        exists c e, fn G a b = Ok c /\ identity G = Some e /\ c <> e) ->
     inverse G a = Ok None).
Proof.
  intros Htot Hno G0.
  assert (Hci : cache_identity G0 = Ok G0).
  { unfold cache_identity. rewrite find_m_none; [reflexivity |].
    intros a Ha. simpl in Ha.
    destruct (is_identity_defined G0 a) as [[|] Hr]; [| | assumption].
    - intros b Hb. simpl in Hb. split; now apply Htot.
    - exfalso. apply (Hno a Ha). exact (proj1 (is_identity_true G0 a) Hr). }
  split; [exact Hci |]. split; [| split; [| split; [| split]]].
  - intros Hne. unfold Group_init. fold G0. rewrite Hci. simpl.
    unfold cache_inverses.
    destruct els as [| a l]; [congruence |]. simpl.
    rewrite (inverse_unset_identity G0 a); [reflexivity | reflexivity |].
    destruct (Htot a a) as [c Hc]; [now left | now left |].
    exists a, l, c. auto.
  - intros ->. reflexivity.
  - intros a. reflexivity.
  - intros S. reflexivity.
  - intros G a. apply inverse_not_found.
Qed.

Lemma Group_init_without_identity_witness :
  let G0 := mkGroup [0; 1]%Z const_zero None [] in
  cache_identity G0 = Ok G0 /\
  ([0; 1]%Z <> [] -> Group_init [0; 1]%Z const_zero = Raise (AttributeError "identity")) /\
  ([0; 1]%Z = [] -> Group_init [0; 1]%Z const_zero = Ok G0) /\
  (forall a, powerOf G0 a 0 = Raise (AttributeError "identity")) /\
  (forall S, is_subgroup G0 S = Raise (AttributeError "identity")) /\
  (forall (G : Group Z) a,
     (forall b, In b (elements G) ->
        exists c e, fn G a b = Ok c /\ identity G = Some e /\ c <> e) ->
     inverse G a = Ok None).
Proof.
  apply (@Group_init_without_identity Z _ [0; 1]%Z const_zero).
  - intros a b _ _. exists 0%Z. reflexivity.
  - intros e _ Hall. destruct (Hall 1%Z) as [E _]; [simpl; tauto |].
    discriminate E.
Defined.

(** ** The group-action validator *)

Section ActorFacts.
Context {T X : Type} `{PyEq T} `{PyEq X}.

Lemma identity_loop_true (A : GroupActor T X) :
  identity_loop A = Ok true <->
  forall x, In x (actor_X A) ->
    exists e, identity (actor_G A) = Some e /\ action A e x = Ok x.
Proof.
  unfold identity_loop. rewrite all_m_true.
  split; intros Hall x Hx; specialize (Hall x Hx).
  - unfold get_identity in Hall.
    destruct (identity (actor_G A)) as [e |]; simpl in Hall; [| discriminate].
    exists e. split; [reflexivity |].
    destruct (action A e x) as [y |]; simpl in Hall; [| discriminate].
    inversion Hall as [Ey]. apply eqb_true in Ey. now subst.
  - destruct Hall as (e & He & Ha). unfold get_identity.
    rewrite He. simpl. rewrite Ha. simpl. now rewrite eqb_refl.
Qed.

Lemma compatibility_loop_raises (A : GroupActor T X) :
  elements (actor_G A) <> [] ->
  compatibility_loop A = Raise (AttributeError "x").
Proof.
  unfold compatibility_loop. intros Hne.
  destruct (elements (actor_G A)) as [| g l]; [congruence |].
  reflexivity.
Qed.
End ActorFacts.

(** C9: when the group's element collection is non-empty, [is_valid] never
    returns true: if the identity axiom holds for every [x] of [X] it raises
    the attribute error for [x] on reaching the compatibility loop, and
    otherwise its result is the one of the identity loop (false, or an
    exception raised there). *)
Theorem is_valid_never_true {T X : Type} `{PyEq T} `{PyEq X} (A : GroupActor T X) :
  elements (actor_G A) <> [] ->
  is_valid A <> Ok true /\
  ((forall x, In x (actor_X A) ->
      exists e, identity (actor_G A) = Some e /\ action A e x = Ok x) ->
   is_valid A = Raise (AttributeError "x")) /\
  (identity_loop A <> Ok true -> is_valid A = identity_loop A).
Proof.
  intros Hne. unfold is_valid.
  rewrite (compatibility_loop_raises A Hne).
  split; [| split].
  - destruct (identity_loop A) as [[|] |]; simpl; discriminate.
  - intros Hax. apply identity_loop_true in Hax. now rewrite Hax.
  - destruct (identity_loop A) as [[|] |]; simpl; congruence.
Qed.

Lemma is_valid_never_true_witness :
  is_valid Z2_on_itself <> Ok true /\
  ((forall x, In x (actor_X Z2_on_itself) ->
      exists e, identity (actor_G Z2_on_itself) = Some e /\
                action Z2_on_itself e x = Ok x) ->
   is_valid Z2_on_itself = Raise (AttributeError "x")) /\
  (identity_loop Z2_on_itself <> Ok true ->
   is_valid Z2_on_itself = identity_loop Z2_on_itself).
Proof.
  apply (@is_valid_never_true Z Z _ _ Z2_on_itself). simpl. discriminate.
Defined.

(** ** Elementary group theory on the element collection *)

Lemma check_group_sound {T : Type} `{PyEq T} (els : list T)
    (f : T -> T -> result T) (e : T) :
  check_group els f e = true -> is_group els f e.
Proof.
  unfold check_group. rewrite !andb_true_iff.
  intros [[[[Hc Ha] He] Hi] Hv].
  rewrite forallb_forall in Hc, Ha, Hi, Hv.
  constructor.
  - intros a b Ia Ib. specialize (Hc a Ia). rewrite forallb_forall in Hc.
    specialize (Hc b Ib). destruct (f a b) as [c |]; [| discriminate].
    exists c. split; [reflexivity | now apply contains_In].
  - intros a b c Ia Ib Ic. specialize (Ha a Ia). rewrite forallb_forall in Ha.
    specialize (Ha b Ib). rewrite forallb_forall in Ha.
    specialize (Ha c Ic). now apply eqb_true in Ha.
  - now apply contains_In.
  - intros a Ia. specialize (Hi a Ia).
    destruct (f e a) as [x |]; [| discriminate].
    destruct (f a e) as [y |]; [| discriminate].
    apply andb_true_iff in Hi. destruct Hi as [Hx Hy].
    apply eqb_true in Hx, Hy. now subst.
  - intros a Ia. specialize (Hv a Ia). apply existsb_exists in Hv.
    destruct Hv as (b & Ib & Hb). exists b. split; [assumption |].
    destruct (f a b) as [x |]; [| discriminate].
    apply eqb_true in Hb. now subst.
Qed.

Section GroupTheory.
Context {T : Type} `{PyEq T}.
Variables (els : list T) (f : T -> T -> result T) (e : T).
Hypothesis Hg : is_group els f e.

Local Notation "a * b" := (op f a b).
Local Notation "a ^-1" := (inv els f e a) (at level 1, format "a ^-1").

Lemma op_ok (a b : T) : In a els -> In b els -> f a b = Ok (a * b).
Proof.
  intros Ia Ib. destruct (grp_closed Hg a b Ia Ib) as (c & Hc & _).
  unfold op. now rewrite Hc.
Qed.

Lemma op_in (a b : T) : In a els -> In b els -> In (a * b) els.
Proof.
  intros Ia Ib. destruct (grp_closed Hg a b Ia Ib) as (c & Hc & Ic).
  unfold op. now rewrite Hc.
Qed.

Lemma op_id_l (a : T) : In a els -> e * a = a.
Proof.
  intros Ia. unfold op. now rewrite (proj1 (grp_id Hg a Ia)).
Qed.

Lemma op_id_r (a : T) : In a els -> a * e = a.
Proof.
  intros Ia. unfold op. now rewrite (proj2 (grp_id Hg a Ia)).
Qed.

Lemma op_assoc (a b c : T) :
  In a els -> In b els -> In c els -> (a * b) * c = a * (b * c).
Proof. apply (grp_assoc Hg). Qed.

Lemma e_in : In e els.
Proof. apply (grp_id_in Hg). Qed.

Lemma right_inverse_exists (a : T) :
  In a els -> exists b, In b els /\ a * b = e.
Proof.
  intros Ia. destruct (grp_inv Hg a Ia) as (b & Ib & Hb).
  exists b. split; [assumption |]. unfold op. now rewrite Hb.
Qed.

Lemma right_inverse_is_left (a b : T) :
  In a els -> In b els -> a * b = e -> b * a = e.
Proof.
  intros Ia Ib Hab.
  destruct (right_inverse_exists b Ib) as (c & Ic & Hbc).
  assert (Hba : In (b * a) els) by now apply op_in.
  rewrite <- (op_id_r (b * a) Hba).
  rewrite <- Hbc at 1.
  rewrite (op_assoc b a (b * c)); auto using op_in.
  rewrite <- (op_assoc a b c); auto.
  rewrite Hab, (op_id_l c Ic). exact Hbc.
Qed.

Lemma cancel_l (a x y : T) :
  In a els -> In x els -> In y els -> a * x = a * y -> x = y.
Proof.
  intros Ia Ix Iy E.
  destruct (right_inverse_exists a Ia) as (b & Ib & Hab).
  pose proof (right_inverse_is_left a b Ia Ib Hab) as Hba.
  rewrite <- (op_id_l x Ix), <- (op_id_l y Iy), <- Hba.
  rewrite !op_assoc; auto. now rewrite E.
Qed.

Lemma cancel_r (a x y : T) :
  In a els -> In x els -> In y els -> x * a = y * a -> x = y.
Proof.
  intros Ia Ix Iy E.
  destruct (right_inverse_exists a Ia) as (b & Ib & Hab).
  rewrite <- (op_id_r x Ix), <- (op_id_r y Iy), <- Hab.
  rewrite <- !op_assoc; auto. now rewrite E.
Qed.

Lemma identity_unique (e' : T) :
  In e' els -> (forall a, In a els -> f e' a = Ok a /\ f a e' = Ok a) -> e' = e.
Proof.
  intros Ie' Hid.
  pose proof (proj2 (Hid e e_in)) as E1.
  pose proof (proj1 (grp_id Hg e' Ie')) as E2.
  congruence.
Qed.

Lemma inv_found (a : T) :
  In a els -> exists b, find (fun b => eqb (a * b) e) els = Some b.
Proof.
  intros Ia. destruct (right_inverse_exists a Ia) as (b & Ib & Hab).
  destruct (find (fun b => eqb (a * b) e) els) as [b' |] eqn:F.
  - now exists b'.
  - apply find_none with (x := b) in F; [| assumption].
    apply eqb_false in F. contradiction.
Qed.

Lemma inv_in (a : T) : In a els -> In a^-1 els.
Proof.
  intros Ia. unfold inv. destruct (inv_found a Ia) as (b & F). rewrite F.
  now apply find_some in F.
Qed.

Lemma inv_r (a : T) : In a els -> a * a^-1 = e.
Proof.
  intros Ia. unfold inv. destruct (inv_found a Ia) as (b & F). rewrite F.
  apply find_some in F. now apply eqb_true.
Qed.

Lemma inv_l (a : T) : In a els -> a^-1 * a = e.
Proof.
  intros Ia. apply right_inverse_is_left; auto using inv_in, inv_r.
Qed.

Lemma inv_unique (a b : T) : In a els -> In b els -> a * b = e -> b = a^-1.
Proof.
  intros Ia Ib Hab. apply (cancel_l a); auto using inv_in.
  now rewrite inv_r.
Qed.

Lemma inv_inv (a : T) : In a els -> (a^-1)^-1 = a.
Proof.
  intros Ia. symmetry. apply inv_unique; auto using inv_in, inv_l.
Qed.

Lemma inv_e : e^-1 = e.
Proof.
  symmetry. apply inv_unique; auto using e_in. apply op_id_l, e_in.
Qed.
End GroupTheory.

(** Membership goals [In _ els] built from the operation, inverses, the
    identity and members of a subset [S] with [Hincl : incl S els]. *)
Ltac group_mem Hg Hincl :=
  repeat match goal with
    | |- In (op _ _ _) _ => apply (op_in Hg)
    | |- In (inv _ _ _ _) _ => apply (inv_in Hg)
    | |- In _ _ => first [assumption | apply (e_in Hg) | (apply Hincl; assumption)]
    end.

(** ** Construction succeeds on a group *)

Section ConstructionDefined.
Context {T : Type} `{PyEq T}.

Lemma find_eqb_self (l : list T) (e : T) :
  In e l -> find (fun b => eqb b e) l = Some e.
Proof.
  induction l as [| x l IH]; simpl; [intros [] |].
  intros Hin. destruct (eqb x e) eqn:E.
  - apply eqb_true in E. now subst.
  - apply IH. destruct Hin as [-> | Hin]; [| assumption].
    now rewrite eqb_refl in E.
Qed.

Lemma inverse_pure (G : Group T) (e a : T) :
  identity G = Some e ->
  (forall b, In b (elements G) -> exists c, fn G a b = Ok c) ->
  inverse G a = Ok (find (fun b => eqb (op (fn G) a b) e) (elements G)).
Proof.
  intros He Hd. unfold inverse. apply find_m_pure. intros b Ib.
  destruct (Hd b Ib) as [c Hc]. unfold operation, get_identity, op.
  now rewrite Hc, He.
Qed.

(** Construction returns as soon as the operation is defined on the
    collection and some element is an identity. *)
Lemma Group_init_defined (els : list T) (f : T -> T -> result T) (e : T) :
  (forall a b, In a els -> In b els -> exists c, f a b = Ok c) ->
  In e els ->
  (forall b, In b els -> f e b = Ok b /\ f b e = Ok b) ->
  exists G e', Group_init els f = Ok G /\ identity G = Some e'.
Proof.
  intros Hd Ie Hid. set (G0 := mkGroup els f None []).
  pose (g := fun a => match is_identity G0 a with Ok b => b | Raise _ => false end).
  assert (Hpure : forall a, In a els -> is_identity G0 a = Ok (g a)).
  { intros a Ia. unfold g.
    destruct (is_identity_defined G0 a) as [r Hr]; [| now rewrite Hr].
    intros b Ib. split; now apply Hd. }
  assert (Hge : g e = true).
  { unfold g. now rewrite (proj2 (is_identity_true G0 e) Hid). }
  destruct (find g els) as [e' |] eqn:F.
  2:{ apply find_none with (x := e) in F; [congruence | assumption]. }
  set (G1 := mkGroup els f (Some e') []).
  assert (Hci : cache_identity G0 = Ok G1).
  { unfold cache_identity. rewrite (find_m_pure _ g); [| exact Hpure].
    simpl. now rewrite F. }
  assert (Hinv : forall a, In a els ->
            inverse G1 a = Ok (find (fun b => eqb (op f a b) e') els)).
  { intros a Ia. apply (inverse_pure G1 (e := e')); [reflexivity |].
    intros b Ib. now apply Hd. }
  unfold Group_init. fold G0. rewrite Hci. simpl. unfold cache_inverses.
  rewrite (fold_m_pure _
             (fun d g => dict_set d g (find (fun b => eqb (op f g b) e') els))).
  - simpl. eexists. exists e'. split; reflexivity.
  - intros d a Ia. simpl in Ia. now rewrite (Hinv a Ia).
Qed.

Variables (els : list T) (f : T -> T -> result T) (e : T).
Hypothesis Hg : is_group els f e.

Lemma group_defined (a b : T) : In a els -> In b els -> exists c, f a b = Ok c.
Proof.
  intros Ia Ib. destruct (grp_closed Hg a b Ia Ib) as (c & Hc & _). now exists c.
Qed.

Lemma Group_init_group : exists G, Group_init els f = Ok G.
Proof.
  destruct (Group_init_defined els f e) as (G & e' & HG & _).
  - exact group_defined.
  - apply (grp_id_in Hg).
  - apply (grp_id Hg).
  - now exists G.
Qed.

Lemma Group_init_group_identity (G : Group T) :
  Group_init els f = Ok G -> identity G = Some e.
Proof.
  intros HG.
  destruct (Group_init_defined els f e) as (G' & e' & HG' & He').
  - exact group_defined.
  - apply (grp_id_in Hg).
  - apply (grp_id Hg).
  - assert (G' = G) by congruence. subst G'.
    destruct (Group_init_identity _ _ HG He') as [Ie' Hid'].
    rewrite He'. f_equal. now apply (identity_unique Hg).
Qed.

Lemma Group_init_group_inverses (G : Group T) (a : T) :
  Group_init els f = Ok G -> In a els ->
  dict_get (inverses G) a = Some (Some (inv els f e a)).
Proof.
  intros HG Ia.
  destruct (Group_init_fields _ _ HG) as [Hel Hfn].
  destruct (proj1 (Group_init_inverses _ _ HG a) Ia) as (v & Hv & Hd).
  rewrite Hd. f_equal.
  rewrite (inverse_pure G (e := e)) in Hv.
  - inversion Hv as [Hv']. rewrite Hel, Hfn. unfold inv.
    destruct (inv_found Hg a Ia) as (b & Hb). now rewrite Hb.
  - now apply Group_init_group_identity.
  - intros b Ib. rewrite Hfn. rewrite Hel in Ib. now apply group_defined.
Qed.
End ConstructionDefined.

(** ** The subgroup test *)

Section SubgroupTest.
Context {T : Type} `{PyEq T}.

Lemma find_ext_in {A : Type} (g g' : A -> bool) (l : list A) :
  (forall x, In x l -> g x = g' x) -> find g l = find g' l.
Proof.
  induction l as [| x l IH]; simpl; intros Hext; [reflexivity |].
  rewrite <- (Hext x (or_introl eq_refl)).
  destruct (g x); [reflexivity |]. apply IH. intros y Hy. apply Hext. now right.
Qed.

Lemma is_subgroup_without_identity (G : Group T) (e : T) (S : list T) :
  identity G = Some e -> ~ In e S -> is_subgroup G S = Ok false.
Proof.
  intros He Hn. unfold is_subgroup, get_identity. rewrite He. simpl.
  apply contains_false in Hn. now rewrite Hn.
Qed.

Lemma is_subgroup_true_identity (G : Group T) (e : T) (S : list T) :
  identity G = Some e -> is_subgroup G S = Ok true -> In e S.
Proof.
  intros He Hs. destruct (in_dec py_eq_dec e S) as [Hin | Hn]; [assumption |].
  rewrite (is_subgroup_without_identity G S He Hn) in Hs. discriminate.
Qed.

Lemma is_subgroup_true (G : Group T) (e : T) (S : list T) :
  identity G = Some e -> In e S ->
  (is_subgroup G S = Ok true <->
   forall a b, In a S -> In b S ->
     exists ib c, dict_get (inverses G) b = Some (Some ib) /\
                  operation G a ib = Ok c /\ In c S).
Proof.
  intros He Hin. unfold is_subgroup, get_identity. rewrite He. simpl.
  apply contains_In in Hin. rewrite Hin. simpl. rewrite all_m_true.
  split.
  - intros Hall a b Ia Ib.
    specialize (Hall (a, b) (proj2 (in_prod_iff S S a b) (conj Ia Ib))).
    simpl in Hall. unfold dict_lookup in Hall.
    destruct (dict_get (inverses G) b) as [[ib |] |]; simpl in Hall;
      try discriminate.
    destruct (operation G a ib) as [c |] eqn:Hc; simpl in Hall; [| discriminate].
    exists ib, c. split; [reflexivity |]. split; [exact Hc |].
    apply contains_In. congruence.
  - intros Hall [a b] Hab. apply in_prod_iff in Hab. destruct Hab as [Ia Ib].
    destruct (Hall a b Ia Ib) as (ib & c & Hd & Hc & Ic). simpl.
    unfold dict_lookup. rewrite Hd. simpl. rewrite Hc. simpl.
    apply contains_In in Ic. now rewrite Ic.
Qed.

Lemma Group_init_inverse_of_identity (els : list T) (f : T -> T -> result T)
    (G : Group T) (e : T) :
  Group_init els f = Ok G -> identity G = Some e ->
  dict_get (inverses G) e = Some (Some e).
Proof.
  intros HG He.
  destruct (Group_init_fields _ _ HG) as [Hel Hfn].
  destruct (Group_init_identity _ _ HG He) as [Ie Hid].
  destruct (proj1 (Group_init_inverses _ _ HG e) Ie) as (v & Hv & Hd).
  rewrite Hd. f_equal. rewrite (inverse_pure G (e := e)) in Hv; [| assumption |].
  - inversion Hv as [Hv']. rewrite Hel, Hfn.
    rewrite (find_ext_in _ (fun b => eqb b e)).
    + now apply find_eqb_self.
    + intros b Ib. unfold op. now rewrite (proj1 (Hid b Ib)).
  - intros b Ib. rewrite Hel in Ib. rewrite Hfn. exists b. apply (Hid b Ib).
Qed.

Lemma is_subgroup_pure (els : list T) (f : T -> T -> result T) (e : T)
    (G : Group T) (S : list T) :
  is_group els f e -> Group_init els f = Ok G -> incl S els ->
  is_subgroup G S =
  Ok (contains S e &&
      forallb (fun ab => contains S (op f (fst ab) (inv els f e (snd ab))))
              (list_prod S S)).
Proof.
  intros Hg HG Hincl.
  pose proof (Group_init_group_identity Hg HG) as He.
  destruct (Group_init_fields _ _ HG) as [Hel Hfn].
  unfold is_subgroup, get_identity. rewrite He. simpl.
  destruct (contains S e); simpl; [| reflexivity].
  apply all_m_pure. intros [a b] Hab. apply in_prod_iff in Hab.
  destruct Hab as [Ia Ib]. simpl. unfold dict_lookup.
  rewrite (Group_init_group_inverses Hg b HG (Hincl b Ib)). simpl.
  unfold operation. rewrite Hfn.
  rewrite (op_ok Hg); [reflexivity | now apply Hincl |].
  apply (inv_in Hg). now apply Hincl.
Qed.
End SubgroupTest.

(** C4: for a constructed group with cached identity [e], [is_subgroup(H)]
    is false when [e] is not in [H]; otherwise it is true exactly when for
    every ordered pair [(a, b)] of [H] the cache holds an inverse [ib] of [b]
    and [operation(a, ib)] is in [H].  It is true for [[e]], and for the whole
    element collection of a group; on a group and a candidate within its
    elements it always returns a boolean. *)
Theorem is_subgroup_spec {T : Type} `{PyEq T} (els : list T)
    (f : T -> T -> result T) (G : Group T) (e : T) (S : list T) :
  Group_init els f = Ok G ->
  identity G = Some e ->
  (~ In e S -> is_subgroup G S = Ok false) /\
  (In e S ->
   (is_subgroup G S = Ok true <->
    forall a b, In a S -> In b S ->
      exists ib c, dict_get (inverses G) b = Some (Some ib) /\
                   operation G a ib = Ok c /\ In c S)) /\
  is_subgroup G [e] = Ok true /\
  (is_group els f e -> is_subgroup G (elements G) = Ok true) /\
  (is_group els f e -> incl S els -> exists r, is_subgroup G S = Ok r).
Proof.
  intros HG He.
  destruct (Group_init_fields _ _ HG) as [Hel Hfn].
  destruct (Group_init_identity _ _ HG He) as [Ie Hid].
  split; [now apply is_subgroup_without_identity |].
  split; [now apply is_subgroup_true |].
  split; [| split].
  - apply (is_subgroup_true G [e] He); [now left |].
    intros a b [<- | []] [<- | []]. exists e, e.
    split; [now apply (Group_init_inverse_of_identity _ _ HG) |].
    unfold operation. rewrite Hfn. split; [apply (Hid e Ie) | now left].
  - intros Hg. rewrite Hel.
    apply (is_subgroup_true G els He); [assumption |].
    intros a b Ia Ib. exists (inv els f e b), (op f a (inv els f e b)).
    split; [now apply (Group_init_group_inverses Hg b HG) |].
    unfold operation. rewrite Hfn.
    pose proof (inv_in Hg b Ib) as Iib.
    split; [apply (op_ok Hg) | apply (op_in Hg)]; assumption.
  - intros Hg Hincl. rewrite (is_subgroup_pure Hg HG Hincl). eauto.
Qed.

Lemma is_subgroup_spec_witness :
  (~ In 0%Z [0; 2]%Z -> is_subgroup Z4 [0; 2]%Z = Ok false) /\
  (In 0%Z [0; 2]%Z ->
   (is_subgroup Z4 [0; 2]%Z = Ok true <->
    forall a b, In a [0; 2]%Z -> In b [0; 2]%Z ->
      exists ib c, dict_get (inverses Z4) b = Some (Some ib) /\
                   operation Z4 a ib = Ok c /\ In c [0; 2]%Z)) /\
  is_subgroup Z4 [0%Z] = Ok true /\
  (is_group [0; 1; 2; 3]%Z (add_mod 4) 0%Z ->
   is_subgroup Z4 (elements Z4) = Ok true) /\
  (is_group [0; 1; 2; 3]%Z (add_mod 4) 0%Z -> incl [0; 2]%Z [0; 1; 2; 3]%Z ->
   exists r, is_subgroup Z4 [0; 2]%Z = Ok r).
Proof.
  apply (@is_subgroup_spec Z _ [0; 1; 2; 3]%Z (add_mod 4) Z4 0%Z [0; 2]%Z);
    reflexivity.
Defined.

(** ** Enumerating subgroups *)

Section Enumerators.
Context {T : Type} `{PyEq T}.

Lemma map_filter_m_In {A B : Type} (f : A -> result B) (p : A -> result bool)
    (l : list A) (y : B) :
  In y (fst (map_filter_m f p l)) ->
  exists x, In x l /\ p x = Ok true /\ f x = Ok y.
Proof.
  induction l as [| x l IH]; simpl; [intros [] |].
  destruct (p x) as [[|] |] eqn:Px; simpl.
  - destruct (f x) as [y' |] eqn:Fx; simpl; [| intros []].
    destruct (map_filter_m f p l) as [ys r]. simpl in *.
    intros [<- | Hy].
    + exists x. auto.
    + destruct (IH Hy) as (x' & Hx' & Hp & Hf). exists x'. auto.
  - intros Hy. destruct (IH Hy) as (x' & Hx' & Hp & Hf). exists x'. auto.
  - intros [].
Qed.

Lemma is_normal_divisor_subgroup (G : Group T) (N : list T) :
  is_normal_divisor G N = Ok true -> is_subgroup G N = Ok true.
Proof.
  unfold is_normal_divisor.
  destruct (is_subgroup G N) as [[|] |]; simpl; congruence.
Qed.

Lemma subgroup_elements (G S : Group T) (L : list T) :
  subgroup G L = Ok S -> elements S = L.
Proof.
  unfold subgroup. intros E. now apply Group_init_fields in E.
Qed.
End Enumerators.

(** C10: with the parent's identity [e] cached, the empty tuple that the
    subset enumerator emits first is rejected by [is_subgroup] (and by
    [is_normal_divisor]), and every Group yielded by [subgroups()] or
    [normal_divisors()] has a non-empty element collection containing [e]. *)
Theorem subgroups_contain_identity {T : Type} `{PyEq T} (G : Group T) (e : T) :
  identity G = Some e ->
  (exists rest, powerset (elements G) = [] :: rest) /\
  is_subgroup G [] = Ok false /\
  is_normal_divisor G [] = Ok false /\
  (forall S, In S (fst (subgroups G)) ->
     elements S <> [] /\ In e (elements S)) /\
  (forall S, In S (fst (normal_divisors G)) ->
     elements S <> [] /\ In e (elements S)).
Proof.
  intros He.
  assert (Hempty : is_subgroup G [] = Ok false).
  { apply (is_subgroup_without_identity G [] He). intros []. }
  split; [eexists; reflexivity |].
  split; [exact Hempty |].
  split; [unfold is_normal_divisor; now rewrite Hempty |].
  assert (Hmem : forall (S : Group T) L,
            is_subgroup G L = Ok true -> subgroup G L = Ok S ->
            elements S <> [] /\ In e (elements S)).
  { intros S L Hs HS. apply subgroup_elements in HS. rewrite HS.
    pose proof (is_subgroup_true_identity G L He Hs) as Hin.
    split; [| assumption]. intros ->. destruct Hin. }
  split; intros S HS; apply map_filter_m_In in HS;
    destruct HS as (L & _ & Hp & Hf).
  - now apply (Hmem S L).
  - apply (Hmem S L); [| assumption]. now apply is_normal_divisor_subgroup.
Qed.

Lemma subgroups_contain_identity_witness :
  (exists rest, powerset (elements Z4) = [] :: rest) /\
  is_subgroup Z4 [] = Ok false /\
  is_normal_divisor Z4 [] = Ok false /\
  (forall S, In S (fst (subgroups Z4)) ->
     elements S <> [] /\ In 0%Z (elements S)) /\
  (forall S, In S (fst (normal_divisors Z4)) ->
     elements S <> [] /\ In 0%Z (elements S)).
Proof.
  apply (@subgroups_contain_identity Z _ Z4 0%Z). reflexivity.
Defined.

(** ** The subset enumerator *)

Section Powerset.
Context {A : Type}.

Lemma subseq_nil_l (l : list A) : subseq [] l.
Proof.
  induction l; constructor; assumption.
Qed.

Lemma subseq_refl (l : list A) : subseq l l.
Proof.
  induction l; constructor; assumption.
Qed.

Lemma subseq_In (s l : list A) (y : A) : subseq s l -> In y s -> In y l.
Proof.
  induction 1 as [| x s l _ IH | x s l _ IH]; simpl; intuition.
Qed.

Lemma subseq_length (s l : list A) : subseq s l -> length s <= length l.
Proof.
  induction 1; simpl; lia.
Qed.

Lemma subseq_full (s l : list A) : subseq s l -> length s = length l -> s = l.
Proof.
  induction 1 as [| x s l Hs IH | x s l Hs IH]; simpl; intros E.
  - reflexivity.
  - apply subseq_length in Hs. lia.
  - f_equal. apply IH. lia.
Qed.

Lemma combinations_zero (l : list A) : combinations l 0 = [[]].
Proof. now destruct l. Qed.

Lemma combinations_sound (l : list A) (k : nat) (s : list A) :
  In s (combinations l k) -> subseq s l /\ length s = k.
Proof.
  revert k s. induction l as [| x l IH]; intros [| k] s; simpl.
  - intros [<- | []]. split; [constructor | reflexivity].
  - intros [].
  - intros [<- | []]. split; [apply subseq_nil_l | reflexivity].
  - rewrite in_app_iff, in_map_iff. intros [(t & <- & Ht) | Hs].
    + destruct (IH _ _ Ht) as [Hsub Hlen]. split; [now constructor | simpl; lia].
    + destruct (IH _ _ Hs) as [Hsub Hlen]. split; [now constructor | assumption].
Qed.

Lemma combinations_complete (l s : list A) :
  subseq s l -> In s (combinations l (length s)).
Proof.
  induction 1 as [| x s l _ IH | x s l _ IH]; simpl.
  - now left.
  - destruct s as [| y s]; simpl in *; [now left |].
    apply in_or_app. now right.
  - apply in_or_app. left. now apply in_map.
Qed.

Lemma combinations_length (l : list A) (k : nat) :
  length (combinations l k) = binom (length l) k.
Proof.
  revert k. induction l as [| x l IH]; intros [| k]; simpl; try reflexivity.
  now rewrite length_app, length_map, !IH.
Qed.

Lemma combinations_NoDup (l : list A) (k : nat) :
  NoDup l -> NoDup (combinations l k).
Proof.
  revert k. induction l as [| x l IH]; intros [| k] Hl; simpl;
    try (repeat constructor; simpl; tauto).
  inversion Hl as [| ? ? Hx Hl']; subst.
  apply NoDup_app.
  - apply NoDup_map_NoDup_ForallPairs; [| now apply IH].
    intros s t _ _ E. now inversion E.
  - now apply IH.
  - intros s Hs Ht. apply in_map_iff in Hs. destruct Hs as (t & <- & _).
    apply combinations_sound in Ht. destruct Ht as [Hsub _].
    apply Hx. eapply subseq_In; [exact Hsub | now left].
Qed.

Lemma flat_map_NoDup {B : Type} (F : nat -> list B) (ks : list nat) :
  NoDup ks ->
  (forall k, In k ks -> NoDup (F k)) ->
  (forall k1 k2 x, In x (F k1) -> In x (F k2) -> k1 = k2) ->
  NoDup (flat_map F ks).
Proof.
  intros Hks HF Hdisj. induction ks as [| k ks IH]; simpl; [constructor |].
  inversion Hks as [| ? ? Hk Hks']; subst.
  apply NoDup_app.
  - apply HF. now left.
  - apply IH; [assumption |]. intros k' Hk'. apply HF. now right.
  - intros x Hx Hin. apply in_flat_map in Hin. destruct Hin as (k' & Hk' & Hx').
    rewrite (Hdisj _ _ _ Hx Hx') in Hk. contradiction.
Qed.

Lemma powerset_In (l s : list A) : In s (powerset l) <-> subseq s l.
Proof.
  unfold powerset. simpl. rewrite in_app_iff, in_flat_map. simpl. split.
  - intros [<- | [(k & _ & Hs) | [<- | []]]].
    + apply subseq_nil_l.
    + now apply combinations_sound in Hs.
    + apply subseq_refl.
  - intros Hs. pose proof (subseq_length Hs) as Hle.
    destruct (Nat.eq_dec (length s) 0) as [E0 | N0].
    { left. destruct s; [reflexivity | discriminate]. }
    destruct (Nat.eq_dec (length s) (length l)) as [En | Nn].
    { right. right. left. symmetry. now apply subseq_full. }
    right. left. exists (length s). split.
    + apply in_seq. lia.
    + now apply combinations_complete.
Qed.

Lemma powerset_NoDup (l : list A) :
  1 <= length l -> NoDup l -> NoDup (powerset l).
Proof.
  intros Hn Hl. unfold powerset.
  assert (Hmid : forall s, In s (flat_map (combinations l) (seq 1 (length l - 1))) ->
                   1 <= length s < length l).
  { intros s Hs. apply in_flat_map in Hs. destruct Hs as (k & Hk & Hs).
    apply in_seq in Hk. apply combinations_sound in Hs. lia. }
  constructor.
  - rewrite in_app_iff. intros [Hs | [E | []]].
    + apply Hmid in Hs. simpl in Hs. lia.
    + subst l. simpl in Hn. lia.
  - apply NoDup_app.
    + apply flat_map_NoDup.
      * apply seq_NoDup.
      * intros k _. now apply combinations_NoDup.
      * intros k1 k2 s H1 H2.
        apply combinations_sound in H1, H2. destruct H1, H2. congruence.
    + repeat constructor. simpl. tauto.
    + intros s Hs [<- | []]. apply Hmid in Hs. lia.
Qed.

Lemma combinations_map {B : Type} (g : B -> A) (l : list B) (k : nat) :
  combinations (map g l) k = map (map g) (combinations l k).
Proof.
  revert k. induction l as [| x l IH]; intros [| k]; simpl; try reflexivity.
  rewrite map_app, map_map, !IH, map_map. reflexivity.
Qed.

Lemma map_nth_positions (l : list A) (d : A) :
  map (fun i => nth i l d) (seq 0 (length l)) = l.
Proof.
  induction l as [| x l IH]; simpl; [reflexivity |].
  f_equal. rewrite <- seq_shift, map_map. exact IH.
Qed.

Lemma combinations_by_position (l : list A) (d : A) (k : nat) :
  combinations l k =
  map (map (fun i => nth i l d)) (combinations (seq 0 (length l)) k).
Proof.
  rewrite <- combinations_map. now rewrite map_nth_positions.
Qed.
End Powerset.

Lemma binom_above (n k : nat) : n < k -> binom n k = 0.
Proof.
  revert k. induction n as [| n IH]; intros [| k] Hlt; simpl; try lia.
  rewrite !IH; lia.
Qed.

Lemma binom_diag (n : nat) : binom n n = 1.
Proof.
  induction n as [| n IH]; simpl; [reflexivity |].
  rewrite IH, binom_above; lia.
Qed.

Lemma binom_sum_step (n m : nat) :
  list_sum (map (binom (S n)) (seq 0 (S m))) =
  list_sum (map (binom n) (seq 0 m)) + list_sum (map (binom n) (seq 0 (S m))).
Proof.
  induction m as [| m IH].
  - simpl. destruct n; reflexivity.
  - rewrite (seq_S (S m)), !map_app, !list_sum_app, IH.
    rewrite (seq_S m) at 2. rewrite map_app, list_sum_app. simpl. lia.
Qed.

Lemma binom_sum (n : nat) : list_sum (map (binom n) (seq 0 (S n))) = 2 ^ n.
Proof.
  induction n as [| n IH]; [reflexivity |].
  rewrite binom_sum_step, IH.
  rewrite (seq_S (S n)), map_app, list_sum_app, IH. simpl.
  rewrite binom_above; lia.
Qed.

Lemma powerset_length {A : Type} (l : list A) :
  1 <= length l -> length (powerset l) = 2 ^ length l.
Proof.
  intros Hn. unfold powerset. simpl.
  rewrite length_app, length_flat_map. simpl.
  rewrite (map_ext _ (binom (length l))) by (intros; apply combinations_length).
  pose proof (binom_sum (length l)) as Hsum.
  destruct (length l) as [| n]; [lia |].
  replace (S n - 1) with n by lia.
  rewrite seq_S, map_app, list_sum_app in Hsum.
  change (seq 0 (S n)) with (0 :: seq 1 n) in Hsum.
  change (map (binom (S n)) [0 + S n]) with [binom (S n) (S n)] in Hsum.
  rewrite binom_diag in Hsum.
  change (binom (S n) 0) with 1 in Hsum.
  change (list_sum (map (binom (S n)) (0 :: seq 1 n)))
    with (1 + list_sum (map (binom (S n)) (seq 1 n))) in Hsum.
  change (list_sum [1]) with 1 in Hsum.
  cbn [length]. lia.
Qed.

Lemma lex_lt_cons (x : nat) (s t : list nat) :
  lex_lt s t -> lex_lt (x :: s) (x :: t).
Proof.
  intros Hl. simpl. right. now split.
Qed.

Lemma StronglySorted_app {B : Type} (R : B -> B -> Prop) (l1 l2 : list B) :
  StronglySorted R l1 -> StronglySorted R l2 ->
  (forall a b, In a l1 -> In b l2 -> R a b) ->
  StronglySorted R (l1 ++ l2).
Proof.
  induction l1 as [| x l1 IH]; simpl; intros H1 H2 Hc; [assumption |].
  apply StronglySorted_inv in H1. destruct H1 as [H1 Hx].
  constructor.
  - apply IH; auto.
  - apply Forall_app. split; [assumption |].
    apply Forall_forall. intros b Hb. apply Hc; auto.
Qed.

Lemma StronglySorted_map_cons (x : nat) (cs : list (list nat)) :
  StronglySorted lex_lt cs -> StronglySorted lex_lt (map (cons x) cs).
Proof.
  induction 1 as [| c cs Hs IH Hc]; simpl; constructor; [assumption |].
  apply Forall_map. eapply Forall_impl; [| exact Hc].
  intros t Ht. now apply lex_lt_cons.
Qed.

Lemma combinations_lex_sorted (l : list nat) (k : nat) :
  StronglySorted lt l -> StronglySorted lex_lt (combinations l k).
Proof.
  revert k. induction l as [| x l IH]; intros [| k] Hl; simpl;
    try (repeat constructor).
  apply StronglySorted_inv in Hl. destruct Hl as [Hl Hx].
  apply StronglySorted_app.
  - apply StronglySorted_map_cons. now apply IH.
  - now apply IH.
  - intros a b Ha Hb. apply in_map_iff in Ha. destruct Ha as (s & <- & _).
    apply combinations_sound in Hb. destruct Hb as [Hsub Hlen].
    destruct b as [| y t]; [discriminate |].
    simpl. left. rewrite Forall_forall in Hx. apply Hx.
    eapply subseq_In; [exact Hsub | now left].
Qed.

Lemma seq_strictly_sorted (s n : nat) : StronglySorted lt (seq s n).
Proof.
  revert s. induction n as [| n IH]; intros s; simpl; constructor.
  - apply IH.
  - apply Forall_forall. intros y Hy. apply in_seq in Hy. lia.
Qed.

(** C7: [powerset(A)] emits the empty tuple, then for [k = 1 .. n-1] the
    size-[k] combinations of [A], then [A] itself.  The size-[k] block lists
    exactly the length-[k] subsequences of [A], is the image of the
    combinations of the positions [0 .. n-1], and those are in lexicographic
    order.  For [n >= 1] there are [2^n] emissions, one per subsequence, all
    distinct when the entries of [A] are; for [n = 3] they are the 8 listed;
    for [n = 0] the empty tuple is emitted twice. *)
Theorem powerset_spec {A : Type} (l : list A) :
  let n := length l in
  powerset l = [[]] ++ concat (map (combinations l) (seq 1 (n - 1))) ++ [l] /\
  (forall k s, In s (combinations l k) <-> subseq s l /\ length s = k) /\
  (forall k, length (combinations l k) = binom n k) /\
  (forall k d, combinations l k =
               map (map (fun i => nth i l d)) (combinations (seq 0 n) k)) /\
  (forall k, StronglySorted lex_lt (combinations (seq 0 n) k)) /\
  (forall s, In s (powerset l) <-> subseq s l) /\
  (1 <= n -> length (powerset l) = 2 ^ n) /\
  (1 <= n -> NoDup l -> NoDup (powerset l)) /\
  (1 <= n -> NoDup (powerset (seq 0 n))) /\
  (forall d, powerset l = map (map (fun i => nth i l d)) (powerset (seq 0 n))) /\
  (n = 0 -> powerset l = [[]; []]) /\
  (forall a b c, l = [a; b; c] ->
     powerset l = [[]; [a]; [b]; [c]; [a; b]; [a; c]; [b; c]; [a; b; c]]).
Proof.
  intros n. subst n.
  split; [unfold powerset; now rewrite flat_map_concat_map |].
  split.
  { intros k s. split; [apply combinations_sound |].
    intros [Hs <-]. now apply combinations_complete. }
  split; [intros k; apply combinations_length |].
  split; [intros k d; apply combinations_by_position |].
  split; [intros k; apply combinations_lex_sorted, seq_strictly_sorted |].
  split; [apply powerset_In |].
  split; [apply powerset_length |].
  split; [apply powerset_NoDup |].
  split.
  { intros Hn. apply powerset_NoDup; [now rewrite length_seq | apply seq_NoDup]. }
  split.
  { intros d. unfold powerset. rewrite length_seq. simpl. f_equal.
    rewrite map_app. simpl. rewrite map_nth_positions. f_equal.
    rewrite !flat_map_concat_map, concat_map, map_map. f_equal.
    apply map_ext. intros k. apply combinations_by_position. }
  split.
  { intros Hn. destruct l; [reflexivity | discriminate]. }
  intros a b c ->. reflexivity.
Qed.

(** ** [sorted] on a strict total order *)

Section SortingFacts.
Context {T : Type} `{PyEq T} `{PyOrd T}.
Hypothesis Hord : StrictTotalOrder py_lt.

Local Notation "'ltP'" := (fun x y : T => py_lt x y = true).

Lemma insert_sorted_In (x y : T) (l : list T) :
  In y (insert_sorted x l) <-> y = x \/ In y l.
Proof.
  induction l as [| z l IH]; simpl.
  - intuition.
  - destruct (py_lt x z); simpl; rewrite ?IH; intuition.
Qed.

Lemma insert_sorted_length (x : T) (l : list T) :
  length (insert_sorted x l) = S (length l).
Proof.
  induction l as [| z l IH]; simpl; [reflexivity |].
  destruct (py_lt x z); simpl; now rewrite ?IH.
Qed.

Lemma fold_insert_In (l acc : list T) (y : T) :
  In y (fold_left (fun acc x => insert_sorted x acc) l acc) <->
  In y acc \/ In y l.
Proof.
  revert acc. induction l as [| x l IH]; intros acc; simpl.
  - tauto.
  - rewrite IH, insert_sorted_In. intuition.
Qed.

Lemma sorted_In (l : list T) (y : T) : In y (sorted l) <-> In y l.
Proof.
  unfold sorted. rewrite fold_insert_In. simpl. tauto.
Qed.

Lemma fold_insert_length (l acc : list T) :
  length (fold_left (fun acc x => insert_sorted x acc) l acc) =
  length acc + length l.
Proof.
  revert acc. induction l as [| x l IH]; intros acc; simpl.
  - lia.
  - rewrite IH, insert_sorted_length. lia.
Qed.

Lemma sorted_length (l : list T) : length (sorted l) = length l.
Proof.
  unfold sorted. now rewrite fold_insert_length.
Qed.

Lemma insert_sorted_strict (x : T) (l : list T) :
  StronglySorted ltP l -> ~ In x l -> StronglySorted ltP (insert_sorted x l).
Proof.
  induction 1 as [| z l Hs IH Hz]; simpl; intros Hn.
  - repeat constructor.
  - destruct (py_lt x z) eqn:E.
    + constructor; [now constructor |].
      constructor; [exact E |].
      eapply Forall_impl; [| exact Hz].
      intros y Hy. exact (lt_trans Hord _ _ _ E Hy).
    + constructor.
      * apply IH. tauto.
      * apply Forall_forall. intros y Hy. apply insert_sorted_In in Hy.
        destruct Hy as [-> | Hy].
        -- assert (Hne : x <> z) by (intros ->; apply Hn; now left).
           destruct (lt_total Hord Hne) as [L | L]; [congruence | exact L].
        -- rewrite Forall_forall in Hz. now apply Hz.
Qed.

Lemma fold_insert_strict (l acc : list T) :
  StronglySorted ltP acc -> NoDup l -> (forall x, In x l -> ~ In x acc) ->
  StronglySorted ltP (fold_left (fun acc x => insert_sorted x acc) l acc).
Proof.
  revert acc. induction l as [| x l IH]; intros acc Hs Hl Hd; simpl.
  - assumption.
  - inversion Hl as [| ? ? Hx Hl']; subst. apply IH.
    + apply insert_sorted_strict; [assumption |]. apply Hd. now left.
    + assumption.
    + intros y Hy Hin. apply insert_sorted_In in Hin.
      destruct Hin as [-> | Hin]; [contradiction |].
      apply (Hd y); [now right | assumption].
Qed.

Lemma sorted_strict (l : list T) : NoDup l -> StronglySorted ltP (sorted l).
Proof.
  intros Hl. unfold sorted. apply fold_insert_strict; auto; constructor.
Qed.

Lemma strict_NoDup (l : list T) : StronglySorted ltP l -> NoDup l.
Proof.
  induction 1 as [| z l Hs IH Hz]; constructor; [| assumption].
  intros Hin. rewrite Forall_forall in Hz. specialize (Hz z Hin).
  cbv beta in Hz. rewrite (lt_irrefl Hord) in Hz. discriminate.
Qed.

Lemma strict_unique (l1 l2 : list T) :
  StronglySorted ltP l1 -> StronglySorted ltP l2 ->
  (forall x, In x l1 <-> In x l2) -> l1 = l2.
Proof.
  intros H1. revert l2.
  induction H1 as [| x l1 Hs1 IH Hx]; intros l2 H2 Hsame.
  - destruct l2 as [| y l2]; [reflexivity |].
    destruct (proj2 (Hsame y) (or_introl eq_refl)).
  - destruct l2 as [| y l2].
    { destruct (proj1 (Hsame x) (or_introl eq_refl)). }
    pose proof (strict_NoDup (SSorted_cons x Hs1 Hx)) as N1.
    pose proof (strict_NoDup H2) as N2.
    apply StronglySorted_inv in H2. destruct H2 as [Hs2 Hy].
    rewrite Forall_forall in Hx, Hy.
    assert (Exy : x = y).
    { destruct (proj1 (Hsame x) (or_introl eq_refl)) as [E | Hin]; [now subst |].
      destruct (proj2 (Hsame y) (or_introl eq_refl)) as [E | Hin']; [assumption |].
      pose proof (Hy x Hin) as L1. pose proof (Hx y Hin') as L2.
      cbv beta in L1, L2. pose proof (lt_trans Hord _ _ _ L1 L2) as L.
      rewrite (lt_irrefl Hord) in L. discriminate. }
    subst y. f_equal. apply IH; [assumption |].
    inversion N1; subst. inversion N2; subst.
    intros z. split; intros Hz.
    + destruct (proj1 (Hsame z) (or_intror Hz)) as [-> | ?]; [contradiction | assumption].
    + destruct (proj2 (Hsame z) (or_intror Hz)) as [-> | ?]; [contradiction | assumption].
Qed.

Lemma sorted_ext (l1 l2 : list T) :
  NoDup l1 -> NoDup l2 -> (forall x, In x l1 <-> In x l2) ->
  sorted l1 = sorted l2.
Proof.
  intros N1 N2 Hsame. apply strict_unique; try now apply sorted_strict.
  intros x. rewrite !sorted_In. apply Hsame.
Qed.

Lemma sorted_NoDup (l : list T) : NoDup l -> NoDup (sorted l).
Proof.
  intros Hl. now apply strict_NoDup, sorted_strict.
Qed.
End SortingFacts.

(** ** Subgroups and their cosets *)

Lemma Z_strict_total_order : StrictTotalOrder (py_lt (T := Z)).
Proof.
  constructor; unfold py_lt, PyOrd_Z.
  - intros x. apply Z.ltb_irrefl.
  - intros x y z. rewrite !Z.ltb_lt. lia.
  - intros x y Hne. rewrite !Z.ltb_lt. lia.
Qed.

Lemma fold_left_map_arg {A B C : Type} (g : A -> B) (h : C -> B -> C)
    (l : list A) (acc : C) :
  fold_left (fun s x => h s (g x)) l acc = fold_left h (map g l) acc.
Proof.
  revert acc. induction l as [| x l IH]; intros acc; simpl; auto.
Qed.

Section Subgroups.
Context {T : Type} `{PyEq T}.
Variables (els : list T) (f : T -> T -> result T) (e : T) (G : Group T).
Hypothesis Hg : is_group els f e.
Hypothesis HG : Group_init els f = Ok G.

Local Notation "a * b" := (op f a b).
Local Notation "a ^-1" := (inv els f e a) (at level 1, format "a ^-1").

(** What the test establishes: the candidate lies within the elements,
    contains the identity and is closed under [a * b^-1]. *)
Lemma is_subgroup_closed (S : list T) :
  is_subgroup G S = Ok true ->
  incl S els /\ In e S /\ forall a b, In a S -> In b S -> In (a * b^-1) S.
Proof.
  intros Hs.
  pose proof (Group_init_group_identity Hg HG) as He.
  destruct (Group_init_fields _ _ HG) as [Hel Hfn].
  pose proof (is_subgroup_true_identity G S He Hs) as Ie.
  pose proof (proj1 (is_subgroup_true G S He Ie) Hs) as Hall.
  assert (Hincl : incl S els).
  { intros b Ib. destruct (Hall b b Ib Ib) as (ib & c & Hd & _).
    destruct (in_dec py_eq_dec b els) as [Hin | Hn]; [assumption |].
    rewrite (proj2 (Group_init_inverses _ _ HG b) Hn) in Hd. discriminate. }
  split; [assumption |]. split; [assumption |].
  intros a b Ia Ib. destruct (Hall a b Ia Ib) as (ib & c & Hd & Hc & Ic).
  rewrite (Group_init_group_inverses Hg b HG (Hincl b Ib)) in Hd.
  inversion Hd; subst ib. unfold operation in Hc. rewrite Hfn in Hc.
  rewrite (op_ok Hg a _ (Hincl a Ia) (inv_in Hg b (Hincl b Ib))) in Hc.
  now inversion Hc; subst.
Qed.

Variable S : list T.
Hypothesis Hincl : incl S els.
Hypothesis He : In e S.
Hypothesis Hdiv : forall a b, In a S -> In b S -> In (a * b^-1) S.

Lemma sub_inv (b : T) : In b S -> In b^-1 S.
Proof.
  intros Ib. rewrite <- (op_id_l Hg b^-1); [now apply Hdiv |].
  apply (inv_in Hg). now apply Hincl.
Qed.

Lemma sub_op (a b : T) : In a S -> In b S -> In (a * b) S.
Proof.
  intros Ia Ib. rewrite <- (inv_inv Hg b) by now apply Hincl.
  apply Hdiv; [assumption | now apply sub_inv].
Qed.

Local Ltac mem := group_mem Hg Hincl.

Lemma left_translate_in (a h : T) : In a els -> In h S -> In (a * h) els.
Proof. intros. mem. Qed.

Lemma right_translate_in (a h : T) : In a els -> In h S -> In (h * a) els.
Proof. intros. mem. Qed.

Lemma left_translate_inj (a h1 h2 : T) :
  In a els -> In h1 S -> In h2 S -> a * h1 = a * h2 -> h1 = h2.
Proof.
  intros Ia I1 I2. apply (cancel_l Hg); mem.
Qed.

Lemma right_translate_inj (a h1 h2 : T) :
  In a els -> In h1 S -> In h2 S -> h1 * a = h2 * a -> h1 = h2.
Proof.
  intros Ia I1 I2. apply (cancel_r Hg); mem.
Qed.

Lemma left_translate_meet (a b h1 h2 h : T) :
  In a els -> In b els -> In h1 S -> In h2 S -> In h S ->
  a * h1 = b * h2 -> exists h', In h' S /\ a * h = b * h'.
Proof.
  intros Ia Ib I1 I2 Ih E.
  exists (h2 * (h1^-1 * h)). split.
  - apply sub_op; [assumption |]. apply sub_op; [now apply sub_inv | assumption].
  - rewrite <- (op_assoc Hg b h2 (h1^-1 * h)) by mem.
    rewrite <- E.
    rewrite (op_assoc Hg a h1 (h1^-1 * h)) by mem.
    rewrite <- (op_assoc Hg h1 h1^-1 h) by mem.
    rewrite (inv_r Hg h1) by mem.
    rewrite (op_id_l Hg h) by mem.
    reflexivity.
Qed.

Lemma right_translate_meet (a b h1 h2 h : T) :
  In a els -> In b els -> In h1 S -> In h2 S -> In h S ->
  h1 * a = h2 * b -> exists h', In h' S /\ h * a = h' * b.
Proof.
  intros Ia Ib I1 I2 Ih E.
  exists ((h * h1^-1) * h2). split.
  - apply sub_op; [| assumption]. now apply Hdiv.
  - rewrite (op_assoc Hg (h * h1^-1) h2 b) by mem.
    rewrite <- E.
    rewrite (op_assoc Hg h h1^-1 (h1 * a)) by mem.
    rewrite <- (op_assoc Hg h1^-1 h1 a) by mem.
    rewrite (inv_l Hg h1) by mem.
    rewrite (op_id_l Hg a) by mem.
    reflexivity.
Qed.
End Subgroups.

(** Translates [t a h] of a set [S] by the elements [a] of [els], and the
    family of canonical tuples they form. *)
Section TranslatePartition.
Context {T : Type} `{PyEq T} `{PyOrd T}.
Hypothesis Hord : StrictTotalOrder py_lt.
Variables (els S : list T) (e : T) (t : T -> T -> T).
Hypothesis HS : NoDup S.
Hypothesis He : In e S.
Hypothesis t_in : forall a h, In a els -> In h S -> In (t a h) els.
Hypothesis t_e : forall a, In a els -> t a e = a.
Hypothesis t_inj : forall a h1 h2,
  In a els -> In h1 S -> In h2 S -> t a h1 = t a h2 -> h1 = h2.
Hypothesis t_meet : forall a b h1 h2 h,
  In a els -> In b els -> In h1 S -> In h2 S -> In h S ->
  t a h1 = t b h2 -> exists h', In h' S /\ t a h = t b h'.

Local Notation "'block' a" := (sorted (set_of_list (map (t a) S))) (at level 10).

Lemma block_In (a x : T) : In x (block a) <-> exists h, In h S /\ x = t a h.
Proof.
  rewrite sorted_In, set_of_list_In, in_map_iff.
  split; intros (h & P & Q); exists h; auto.
Qed.

Lemma block_NoDup (a : T) : NoDup (block a).
Proof.
  apply (sorted_NoDup Hord), set_of_list_NoDup.
Qed.

Lemma block_length (a : T) : In a els -> length (block a) = length S.
Proof.
  intros Ia. rewrite sorted_length, set_of_list_length.
  - apply length_map.
  - apply NoDup_map_NoDup_ForallPairs; [| assumption].
    intros h1 h2 I1 I2. now apply t_inj.
Qed.

Lemma block_meet (a b x : T) :
  In a els -> In b els -> In x (block a) -> In x (block b) -> block a = block b.
Proof.
  intros Ia Ib Ha Hb. apply block_In in Ha, Hb.
  destruct Ha as (h1 & I1 & E1). destruct Hb as (h2 & I2 & E2).
  apply (sorted_ext Hord); try apply set_of_list_NoDup.
  intros y. rewrite !set_of_list_In, !in_map_iff. split.
  - intros (h & <- & Ih).
    destruct (@t_meet a b h1 h2 h) as (h' & Ih' & E); auto; [congruence |].
    exists h'. auto.
  - intros (h & <- & Ih).
    destruct (@t_meet b a h2 h1 h) as (h' & Ih' & E); auto; [congruence |].
    exists h'. auto.
Qed.

Lemma translate_partition :
  partitions els S (set_of_list (map (fun a => block a) els)).
Proof.
  split; [| split].
  - intros c Hc. apply set_of_list_In, in_map_iff in Hc.
    destruct Hc as (a & <- & Ia). split; [apply block_NoDup | now apply block_length].
  - intros c1 c2 x H1 H2 X1 X2.
    apply set_of_list_In, in_map_iff in H1, H2.
    destruct H1 as (a & <- & Ia). destruct H2 as (b & <- & Ib).
    now apply (block_meet a b x).
  - intros x. split.
    + intros Ix. exists (block x). split.
      * apply set_of_list_In, in_map_iff. now exists x.
      * apply block_In. exists e. split; [assumption |]. symmetry. now apply t_e.
    + intros (c & Hc & Hx). apply set_of_list_In, in_map_iff in Hc.
      destruct Hc as (a & <- & Ia). apply block_In in Hx.
      destruct Hx as (h & Ih & ->). now apply t_in.
Qed.
End TranslatePartition.

Section CosetFunctions.
Context {T : Type} `{PyEq T} `{PyOrd T}.

Lemma left_coset_pure (G : Group T) (S : list T) (a : T) :
  (forall h, In h S -> exists c, fn G a h = Ok c) ->
  left_coset G S a = Ok (lcoset (fn G) S a).
Proof.
  intros Hd. unfold left_coset, lcoset, set_of_list.
  rewrite (fold_m_pure _ (fun s h => set_add s (op (fn G) a h))).
  - simpl. now rewrite fold_left_map_arg.
  - intros s h Ih. destruct (Hd h Ih) as [c Hc].
    unfold operation, op. now rewrite Hc.
Qed.

Lemma right_coset_pure (G : Group T) (S : list T) (a : T) :
  (forall h, In h S -> exists c, fn G h a = Ok c) ->
  right_coset G S a = Ok (rcoset (fn G) S a).
Proof.
  intros Hd. unfold right_coset, rcoset, set_of_list.
  rewrite (fold_m_pure _ (fun s h => set_add s (op (fn G) h a))).
  - simpl. now rewrite (fold_left_map_arg (fun h => op (fn G) h a)).
  - intros s h Ih. destruct (Hd h Ih) as [c Hc].
    unfold operation, op. now rewrite Hc.
Qed.

Variables (els : list T) (f : T -> T -> result T) (e : T) (G : Group T).
Hypothesis Hg : is_group els f e.
Hypothesis HG : Group_init els f = Ok G.
Variable S : list T.
Hypothesis Hincl : incl S els.

Lemma left_coset_group (a : T) :
  In a els -> left_coset G S a = Ok (lcoset f S a).
Proof.
  intros Ia. destruct (Group_init_fields _ _ HG) as [_ Hfn].
  rewrite left_coset_pure; [now rewrite Hfn |].
  intros h Ih. rewrite Hfn. apply (group_defined Hg); auto.
Qed.

Lemma right_coset_group (a : T) :
  In a els -> right_coset G S a = Ok (rcoset f S a).
Proof.
  intros Ia. destruct (Group_init_fields _ _ HG) as [_ Hfn].
  rewrite right_coset_pure; [now rewrite Hfn |].
  intros h Ih. rewrite Hfn. apply (group_defined Hg); auto.
Qed.

Lemma left_cosets_group :
  left_cosets G S = Ok (set_of_list (map (lcoset f S) els)).
Proof.
  destruct (Group_init_fields _ _ HG) as [Hel _].
  unfold left_cosets. rewrite Hel.
  rewrite (map_m_pure _ (lcoset f S)); [reflexivity |].
  apply left_coset_group.
Qed.

Lemma right_cosets_group :
  right_cosets G S = Ok (set_of_list (map (rcoset f S) els)).
Proof.
  destruct (Group_init_fields _ _ HG) as [Hel _].
  unfold right_cosets. rewrite Hel.
  rewrite (map_m_pure _ (rcoset f S)); [reflexivity |].
  apply right_coset_group.
Qed.
End CosetFunctions.

(** C6: for a group [G] and a duplicate-free collection [S] that passes
    [is_subgroup], [left_cosets(S)] and [right_cosets(S)] return the
    duplicate-free collection of the cosets of the elements of [G], and each
    of the two families partitions the elements of [G]: every coset has
    [|S|] distinct entries, two cosets that share an entry are equal, and an
    element belongs to [G] exactly when some coset contains it. *)
Theorem cosets_partition {T : Type} `{PyEq T} `{PyOrd T} (els : list T)
    (f : T -> T -> result T) (e : T) (G : Group T) (S : list T) :
  StrictTotalOrder py_lt ->
  is_group els f e ->
  Group_init els f = Ok G ->
  NoDup S ->
  is_subgroup G S = Ok true ->
  exists L R,
    left_cosets G S = Ok L /\ right_cosets G S = Ok R /\
    NoDup L /\ (forall c, In c L <-> exists a, In a els /\ left_coset G S a = Ok c) /\
    NoDup R /\ (forall c, In c R <-> exists a, In a els /\ right_coset G S a = Ok c) /\
    partitions els S L /\ partitions els S R.
Proof.
  intros Hord Hg HG HS Hs.
  destruct (is_subgroup_closed Hg HG S Hs) as (Hincl & He & Hdiv).
  exists (set_of_list (map (lcoset f S) els)),
         (set_of_list (map (rcoset f S) els)).
  split; [now apply (left_cosets_group Hg HG) |].
  split; [now apply (right_cosets_group Hg HG) |].
  split; [apply set_of_list_NoDup |].
  split.
  { intros c. rewrite set_of_list_In, in_map_iff. split.
    - intros (a & <- & Ia). exists a. split; [assumption |].
      now apply (left_coset_group Hg HG).
    - intros (a & Ia & Hc). exists a. split; [| assumption].
      rewrite (left_coset_group Hg HG Hincl a Ia) in Hc. congruence. }
  split; [apply set_of_list_NoDup |].
  split.
  { intros c. rewrite set_of_list_In, in_map_iff. split.
    - intros (a & <- & Ia). exists a. split; [assumption |].
      now apply (right_coset_group Hg HG).
    - intros (a & Ia & Hc). exists a. split; [| assumption].
      rewrite (right_coset_group Hg HG Hincl a Ia) in Hc. congruence. }
  split.
  - apply (@translate_partition T _ _ Hord els S e (op f)); auto.
    + now apply (left_translate_in Hg).
    + now apply (op_id_r Hg).
    + now apply (left_translate_inj Hg).
    + now apply (left_translate_meet Hg).
  - apply (@translate_partition T _ _ Hord els S e (fun a h => op f h a)); auto.
    + intros a h Ia Ih. now apply (right_translate_in Hg Hincl).
    + now apply (op_id_l Hg).
    + intros a h1 h2. now apply (right_translate_inj Hg).
    + intros a b h1 h2 h. now apply (right_translate_meet Hg).
Qed.

Lemma Z4_is_group : is_group [0; 1; 2; 3]%Z (add_mod 4) 0%Z.
Proof.
  apply check_group_sound. reflexivity.
Qed.

Lemma cosets_partition_witness :
  exists L R,
    left_cosets Z4 [0; 2]%Z = Ok L /\ right_cosets Z4 [0; 2]%Z = Ok R /\
    NoDup L /\
    (forall c, In c L <->
       exists a, In a [0; 1; 2; 3]%Z /\ left_coset Z4 [0; 2]%Z a = Ok c) /\
    NoDup R /\
    (forall c, In c R <->
       exists a, In a [0; 1; 2; 3]%Z /\ right_coset Z4 [0; 2]%Z a = Ok c) /\
    partitions [0; 1; 2; 3]%Z [0; 2]%Z L /\
    partitions [0; 1; 2; 3]%Z [0; 2]%Z R.
Proof.
  apply (@cosets_partition Z _ _ [0; 1; 2; 3]%Z (add_mod 4) 0%Z Z4 [0; 2]%Z).
  - exact Z_strict_total_order.
  - exact Z4_is_group.
  - reflexivity.
  - repeat constructor; simpl; intuition discriminate.
  - reflexivity.
Defined.

(** ** Dictionaries with unique keys *)

Section DictFacts.
Context {K V : Type} `{PyEq K}.

Lemma dict_get_In (d : list (K * V)) (k : K) (v : V) :
  dict_get d k = Some v -> In (k, v) d.
Proof.
  induction d as [| [k' v'] d IH]; simpl; [discriminate |].
  destruct (eqb k k') eqn:E.
  - apply eqb_true in E. intros [= ->]. subst. now left.
  - intros Hd. right. now apply IH.
Qed.

Lemma dict_get_None (d : list (K * V)) (k : K) :
  dict_get d k = None <-> ~ In k (map fst d).
Proof.
  induction d as [| [k' v'] d IH]; simpl; [tauto |].
  destruct (eqb k k') eqn:E.
  - apply eqb_true in E. subst. split; [discriminate | tauto].
  - apply eqb_false in E. rewrite IH. split; [| tauto].
    intros Hn [E' | Hin]; [congruence | contradiction].
Qed.

Lemma In_dict_get (d : list (K * V)) (k : K) (v : V) :
  NoDup (map fst d) -> In (k, v) d -> dict_get d k = Some v.
Proof.
  induction d as [| [k' v'] d IH]; simpl; [tauto |].
  intros Hnd Hin. inversion Hnd as [| ? ? Hk Hnd']; subst.
  destruct Hin as [E | Hin].
  - inversion E; subst. now rewrite eqb_refl.
  - destruct (eqb k k') eqn:E.
    + apply eqb_true in E. subst k'. exfalso. apply Hk.
      apply in_map_iff. now exists (k, v).
    + now apply IH.
Qed.

Lemma dict_set_fresh (d : list (K * V)) (k : K) (v : V) :
  dict_get d k = None -> dict_set d k v = d ++ [(k, v)].
Proof.
  induction d as [| [k' v'] d IH]; simpl; [reflexivity |].
  destruct (eqb k k'); [discriminate |].
  intros Hd. now rewrite IH.
Qed.

Lemma dict_set_fresh_keys (d : list (K * V)) (k : K) (v : V) :
  NoDup (map fst d) -> dict_get d k = None ->
  NoDup (map fst (dict_set d k v)).
Proof.
  intros Hnd Hd. rewrite (@dict_set_fresh d k v Hd), map_app. simpl.
  apply NoDup_app; [assumption | repeat constructor; simpl; tauto |].
  intros a Ha [<- | []]. now apply dict_get_None in Hd.
Qed.

Lemma dict_values_In (d : list (K * V)) (v : V) :
  NoDup (map fst d) ->
  (In v (dict_values d) <-> exists k, dict_get d k = Some v).
Proof.
  intros Hnd. unfold dict_values. rewrite in_map_iff. split.
  - intros ([k v'] & E & Hin). simpl in E. subst v'.
    exists k. now apply In_dict_get.
  - intros (k & Hd). exists (k, v). split; [reflexivity | now apply dict_get_In].
Qed.
End DictFacts.

Lemma find_first_such {A : Type} (p : A -> bool) (l : list A) (r : A) :
  find p l = Some r ->
  exists l1 l2, l = l1 ++ r :: l2 /\ p r = true /\ forall x, In x l1 -> p x = false.
Proof.
  induction l as [| x l IH]; simpl; [discriminate |].
  destruct (p x) eqn:Px.
  - intros [= ->]. exists [], l. repeat split; [assumption | intros ? []].
  - intros F. destruct (IH F) as (l1 & l2 & -> & Pr & Hl1).
    exists (x :: l1), l2. repeat split; [assumption |].
    intros y [<- | Hy]; auto.
Qed.

(** ** The quotient by a normal divisor *)

Section NormalDivisor.
Context {T : Type} `{PyEq T}.
Variables (els : list T) (f : T -> T -> result T) (e : T) (G : Group T).
Hypothesis Hg : is_group els f e.
Hypothesis HG : Group_init els f = Ok G.

(** What the second loop of [is_normal_divisor] establishes. *)
Lemma is_normal_divisor_closed (S : list T) :
  is_normal_divisor G S = Ok true ->
  forall g h, In g els -> In h S ->
    In (op f g (op f h (inv els f e g))) S.
Proof.
  intros HN g h Ig Ih.
  pose proof (is_normal_divisor_subgroup _ _ HN) as Hs.
  destruct (is_subgroup_closed Hg HG S Hs) as (Hincl & _ & _).
  destruct (Group_init_fields _ _ HG) as [Hel Hfn].
  unfold is_normal_divisor in HN. rewrite Hs in HN. simpl in HN.
  rewrite all_m_true in HN. rewrite Hel in HN. specialize (HN g Ig).
  unfold dict_lookup in HN.
  rewrite (Group_init_group_inverses Hg g HG Ig) in HN. simpl in HN.
  rewrite all_m_true in HN. specialize (HN h Ih).
  unfold operation in HN. rewrite Hfn in HN.
  pose proof (inv_in Hg g Ig) as Iig.
  rewrite (op_ok Hg h _ (Hincl h Ih) Iig) in HN. simpl in HN.
  rewrite (op_ok Hg g _ Ig (op_in Hg h _ (Hincl h Ih) Iig)) in HN.
  simpl in HN. apply contains_In. congruence.
Qed.
End NormalDivisor.

Section Quotient.
Context {T : Type} `{PyEq T} `{PyOrd T}.
Hypothesis Hord : StrictTotalOrder py_lt.
Variables (els : list T) (f : T -> T -> result T) (e : T) (G : Group T).
Hypothesis Hg : is_group els f e.
Hypothesis HG : Group_init els f = Ok G.
Variable S : list T.
Hypothesis Hincl : incl S els.
Hypothesis He : In e S.
Hypothesis Hdiv : forall a b, In a S -> In b S -> In (op f a (inv els f e b)) S.
Hypothesis Hnorm : forall g h, In g els -> In h S ->
  In (op f g (op f h (inv els f e g))) S.

Local Notation "a * b" := (op f a b).
Local Notation "a ^-1" := (inv els f e a) (at level 1, format "a ^-1").
Local Notation "'coset'" := (lcoset f S).
Local Notation "'rp'" := (rep els f S).

Local Ltac mem := group_mem Hg Hincl.

Local Notation "'step'" := (GN_step f S).
Local Notation "'GN'" := (GN_of els f S).

Lemma step_get (d : list (list T * T)) (g : T) (c : list T) :
  dict_get (step d g) c =
  match dict_get d c with
  | Some r => Some r
  | None => if eqb (coset g) c then Some g else None
  end.
Proof.
  unfold GN_step, dict_mem. destruct (dict_get d (coset g)) as [r |] eqn:D.
  - destruct (dict_get d c) eqn:Dc; [reflexivity |].
    destruct (eqb (coset g) c) eqn:E; [| reflexivity].
    apply eqb_true in E. congruence.
  - destruct (eqb (coset g) c) eqn:E.
    + apply eqb_true in E. subst c. now rewrite dict_get_set_same, D.
    + apply eqb_false in E. rewrite dict_get_set_other by congruence.
      now destruct (dict_get d c).
Qed.

Lemma fold_step_get (l : list T) (acc : list (list T * T)) (c : list T) :
  dict_get (fold_left step l acc) c =
  match dict_get acc c with
  | Some r => Some r
  | None => find (fun g => eqb (coset g) c) l
  end.
Proof.
  revert acc. induction l as [| g l IH]; intros acc; simpl.
  - now destruct (dict_get acc c).
  - rewrite IH, step_get. destruct (dict_get acc c); [reflexivity |].
    now destruct (eqb (coset g) c).
Qed.

Lemma fold_step_keys (l : list T) (acc : list (list T * T)) :
  NoDup (map fst acc) -> NoDup (map fst (fold_left step l acc)).
Proof.
  revert acc. induction l as [| g l IH]; intros acc Hacc; simpl; [assumption |].
  apply IH. unfold GN_step, dict_mem.
  destruct (dict_get acc (coset g)) eqn:D; [assumption |].
  now apply dict_set_fresh_keys.
Qed.

Lemma GN_get (c : list T) :
  dict_get GN c = find (fun g => eqb (coset g) c) els.
Proof.
  unfold GN_of. now rewrite fold_step_get.
Qed.

Lemma GN_keys : NoDup (map fst GN).
Proof.
  unfold GN_of. apply fold_step_keys. constructor.
Qed.

Lemma factorize_GN_group (N : Group T) :
  elements N = S -> factorize_GN G N = Ok GN.
Proof.
  intros HN. destruct (Group_init_fields _ _ HG) as [Hel _].
  unfold factorize_GN. rewrite HN, Hel.
  apply fold_m_pure. intros d g Ig.
  now rewrite (left_coset_group Hg HG Hincl g Ig).
Qed.

Lemma rep_found (v : T) :
  In v els -> find (fun g => eqb (coset g) (coset v)) els = Some (rp v).
Proof.
  intros Iv. unfold rep.
  destruct (find (fun g => eqb (coset g) (coset v)) els) eqn:F; [reflexivity |].
  apply find_none with (x := v) in F; [| assumption].
  now rewrite eqb_refl in F.
Qed.

Lemma rep_in (v : T) : In v els -> In (rp v) els.
Proof.
  intros Iv. pose proof (rep_found v Iv) as F. now apply find_some in F.
Qed.

Lemma rep_coset (v : T) : In v els -> coset (rp v) = coset v.
Proof.
  intros Iv. pose proof (rep_found v Iv) as F. apply find_some in F.
  now apply eqb_true.
Qed.

Lemma GN_rep (v : T) : In v els -> dict_get GN (coset v) = Some (rp v).
Proof.
  intros Iv. rewrite GN_get. now apply rep_found.
Qed.

Lemma rep_same (a b : T) :
  In a els -> In b els -> coset a = coset b -> rp a = rp b.
Proof.
  intros Ia Ib E. pose proof (rep_found a Ia) as Fa.
  pose proof (rep_found b Ib) as Fb. rewrite E in Fa. congruence.
Qed.

Lemma GN_value (c : list T) (r : T) :
  dict_get GN c = Some r -> In r els /\ coset r = c /\ rp r = r.
Proof.
  rewrite GN_get. intros F. pose proof (find_some _ _ F) as [Ir Hc].
  apply eqb_true in Hc. repeat split; try assumption.
  unfold rep. now rewrite Hc, F.
Qed.

Lemma coset_In (a x : T) : In x (coset a) <-> exists h, In h S /\ x = a * h.
Proof. apply block_In. Qed.

Lemma coset_meet (a b x : T) :
  In a els -> In b els -> In x (coset a) -> In x (coset b) -> coset a = coset b.
Proof.
  intros Ia Ib. apply (@block_meet T _ _ Hord els S (op f)); try assumption.
  intros a' b' h1 h2 h. now apply (left_translate_meet Hg).
Qed.

Lemma coset_self (a : T) : In a els -> In a (coset a).
Proof.
  intros Ia. apply coset_In. exists e. split; [assumption |].
  now rewrite (op_id_r Hg).
Qed.

Lemma coset_absorb_right (x n : T) :
  In x els -> In n S -> coset (x * n) = coset x.
Proof.
  intros Ix In_. apply (@coset_meet (x * n) x (x * n)); mem.
  - apply coset_self. mem.
  - apply coset_In. now exists n.
Qed.

Lemma coset_absorb_left (n x : T) :
  In x els -> In n S -> coset (n * x) = coset x.
Proof.
  intros Ix In_. apply (@coset_meet (n * x) x (n * x)); mem.
  - apply coset_self. mem.
  - apply coset_In. exists (x^-1 * (n * x)). split.
    + pose proof (Hnorm x^-1 n) as Hc.
      rewrite (inv_inv Hg x Ix) in Hc. apply Hc; [mem | assumption].
    + rewrite <- (op_assoc Hg x x^-1 (n * x)) by mem.
      rewrite (inv_r Hg x Ix). now rewrite (op_id_l Hg) by mem.
Qed.

Lemma rep_e_in : In (rp e) S.
Proof.
  pose proof (e_in Hg) as Ie.
  pose proof (coset_self (rp e) (rep_in e Ie)) as Hin.
  rewrite (rep_coset e Ie) in Hin. apply coset_In in Hin.
  destruct Hin as (h & Ih & E). rewrite (op_id_l Hg) in E by mem. now subst.
Qed.

Lemma factorize_fn_group (N : Group T) (x y : T) :
  elements N = S -> In x els -> In y els ->
  factorize_fn G N GN x y = Ok (rp (x * y)).
Proof.
  intros HN Ix Iy. destruct (Group_init_fields _ _ HG) as [_ Hfn].
  unfold factorize_fn. rewrite Hfn, HN, (op_ok Hg x y Ix Iy). simpl.
  rewrite (left_coset_group Hg HG Hincl (x * y)) by mem. simpl.
  unfold dict_lookup. rewrite GN_rep by mem. reflexivity.
Qed.

Lemma representatives_In (r : T) :
  In r (sorted (dict_values GN)) <-> exists c, dict_get GN c = Some r.
Proof.
  rewrite sorted_In. apply dict_values_In, GN_keys.
Qed.


Lemma quotient_defined (N : Group T) :
  elements N = S ->
  exists Q, Group_init (sorted (dict_values GN)) (factorize_fn G N GN) = Ok Q.
Proof.
  intros HN. pose proof (e_in Hg) as Ie.
  assert (Hsub : forall r, In r (sorted (dict_values GN)) -> In r els /\ rp r = r).
  { intros r Hr. apply representatives_In in Hr. destruct Hr as (c & Hc).
    apply GN_value in Hc. tauto. }
  destruct (Group_init_defined (sorted (dict_values GN))
              (factorize_fn G N GN) (rp e)) as (Q & _ & HQ & _).
  - intros a b Ia Ib. exists (rp (a * b)).
    apply factorize_fn_group; [assumption | |]; now apply Hsub.
  - apply representatives_In. exists (coset e). now apply GN_rep.
  - intros b Ib. destruct (Hsub b Ib) as [Ib' Hb].
    pose proof (rep_in e Ie) as Ire.
    rewrite !factorize_fn_group by assumption.
    pose proof rep_e_in as IreS.
    rewrite (rep_same (rp e * b) b), (rep_same (b * rp e) b), Hb; auto; mem.
    + now apply coset_absorb_right.
    + now apply coset_absorb_left.
  - now exists Q.
Qed.
End Quotient.



(** The quotient of the integers modulo 4 by [{0, 2}]: representatives 0 and
    1, identity 0, and [1 + 1] falls back on 0. *)
Lemma factorize_Z4_even :
  subgroup Z4 [0; 2]%Z = Ok Z4_even /\
  factorize_GN Z4 Z4_even = Ok [([0; 2], 0); ([1; 3], 1)]%Z /\
  (Q <- factorize Z4 Z4_even ;; Ok (elements Q, identity Q, inverses Q)) =
    Ok ([0; 1], Some 0, [(0, Some 0); (1, Some 1)])%Z /\
  (Q <- factorize Z4 Z4_even ;; fn Q 1%Z 1%Z) = Ok 0%Z.
Proof.
  repeat split; vm_compute; reflexivity.
Qed.

(** ** powerOf and order in a group

    [npow a k] is the product of [k + 1] factors [a].  For [n >= 1],
    [powerOf(a, n)] is [npow a n], one factor more than the [n]-th power,
    while [order(a)] returns the least [n >= 1] whose [n]-th power
    [npow a (n - 1)] is the identity. *)

Section PowerOrder.
Context {T : Type} `{PyEq T}.
Variables (els : list T) (f : T -> T -> result T) (e : T) (G : Group T).
Hypothesis Hg : is_group els f e.
Hypothesis HG : Group_init els f = Ok G.
Variable a : T.
Hypothesis Ha : In a els.

Lemma npow_in (k : nat) : In (npow f a k) els.
Proof.
  induction k as [| k IH]; simpl; [assumption | now apply (op_in Hg)].
Qed.

Lemma for_range_npow (body : T -> result T) (k j : nat) :
  (forall b, In b els -> body b = Ok (op f b a)) ->
  for_range k body (npow f a j) = Ok (npow f a (j + k)).
Proof.
  intros Hbody. revert j. induction k as [| k IH]; intros j.
  - now rewrite Nat.add_0_r.
  - cbn [for_range]. rewrite (Hbody _ (npow_in j)). cbn [bind].
    change (op f (npow f a j) a) with (npow f a (S j)).
    rewrite (IH (S j)). do 2 f_equal. lia.
Qed.

Lemma powerOf_positive (n : nat) :
  powerOf G a (Z.of_nat (S n)) = Ok (npow f a (S n)).
Proof.
  destruct (Group_init_fields _ _ HG) as [_ Hfn].
  unfold powerOf. rewrite Zabs2Nat.id.
  change (Z.of_nat (S n) =? 0)%Z with false.
  change (0 <? Z.of_nat (S n))%Z with true.
  apply (for_range_npow _ (S n) 0).
  intros b Ib. simpl. unfold operation. rewrite Hfn. now apply (op_ok Hg).
Qed.

Lemma order_loop_step (fuel : nat) (x : T) (n : Z) :
  In x els ->
  order_loop (S fuel) G a x n =
  if eqb x e then Some (Ok n) else order_loop fuel G a (op f x a) (n + 1).
Proof.
  intros Ix. pose proof (Group_init_group_identity Hg HG) as He.
  destruct (Group_init_fields _ _ HG) as [_ Hfn].
  cbn [order_loop]. unfold get_identity, operation.
  rewrite He, Hfn, (op_ok Hg x a Ix Ha).
  now destruct (eqb x e).
Qed.

Lemma order_loop_returns (d j : nat) (n : Z) :
  npow f a (j + d) = e ->
  (forall i, j <= i < j + d -> npow f a i <> e) ->
  order_loop (S d) G a (npow f a j) n = Some (Ok (n + Z.of_nat d)%Z).
Proof.
  revert j n. induction d as [| d IH]; intros j n Hend Hbefore.
  - rewrite Nat.add_0_r in Hend.
    rewrite (order_loop_step 0 _ n (npow_in j)), Hend, eqb_refl.
    do 2 f_equal. lia.
  - assert (Hj : npow f a j <> e) by (apply Hbefore; lia).
    apply eqb_false in Hj.
    rewrite (order_loop_step (S d) _ n (npow_in j)), Hj.
    change (op f (npow f a j) a) with (npow f a (S j)).
    rewrite (IH (S j) (n + 1)%Z).
    + do 2 f_equal. lia.
    + rewrite <- Hend. f_equal. lia.
    + intros i Hi. apply Hbefore. lia.
Qed.

(** [order] stops at the first power of [a] that is the identity. *)
Lemma order_returns (k : nat) :
  npow f a k = e ->
  (forall j, j < k -> npow f a j <> e) ->
  order (S k) G a = Some (Ok (Z.of_nat (S k))).
Proof.
  intros Hend Hbefore. unfold order.
  change a with (npow f a 0) at 2.
  rewrite (@order_loop_returns k 0 1%Z); [do 2 f_equal; lia | exact Hend |].
  intros i Hi. apply Hbefore. lia.
Qed.

Lemma order_loop_diverges (fuel j : nat) (n : Z) :
  (forall k, npow f a k <> e) ->
  order_loop fuel G a (npow f a j) n = None.
Proof.
  intros Hnever. revert j n. induction fuel as [| fuel IH]; intros j n.
  - reflexivity.
  - pose proof (Hnever j) as Hj. apply eqb_false in Hj.
    rewrite (order_loop_step fuel _ n (npow_in j)), Hj.
    exact (IH (S j) (n + 1)%Z).
Qed.

(** Without such a power the loop of [order] never stops. *)
Lemma order_diverges (fuel : nat) :
  (forall k, npow f a k <> e) -> order fuel G a = None.
Proof.
  intros Hnever. unfold order.
  exact (@order_loop_diverges fuel 0 1%Z Hnever).
Qed.
End PowerOrder.

(** * Further properties of the code *)

(** ** What the constructor establishes *)

Section ConstructorInvariants.
Context {T : Type} `{PyEq T}.

Lemma find_m_first {A : Type} (p : A -> result bool) (l : list A) (a : A) :
  find_m p l = Ok (Some a) ->
  first_such (fun x => p x = Ok true) l a /\
  exists l1 l2, l = l1 ++ a :: l2 /\ forall x, In x l1 -> p x = Ok false.
Proof.
  revert a. induction l as [| x l IH]; simpl; intros a E; [discriminate |].
  destruct (p x) as [[|] |] eqn:Px; simpl in E; try discriminate.
  - inversion E; subst. split.
    + exists [], l. repeat split; [assumption | intros ? []].
    + exists [], l. split; [reflexivity | intros ? []].
  - destruct (IH a E) as [(l1 & l2 & -> & Pa & Hl1) (l1' & l2' & E' & Hl1')].
    split.
    + exists (x :: l1), l2. repeat split; [assumption |].
      intros y [<- | Hy]; [congruence | now apply Hl1].
    + exists (x :: l1'), l2'. split; [simpl; now rewrite E' |].
      intros y [<- | Hy]; [assumption | now apply Hl1'].
Qed.

Lemma find_m_None_inv {A : Type} (p : A -> result bool) (l : list A) :
  find_m p l = Ok None -> forall x, In x l -> p x = Ok false.
Proof.
  induction l as [| x l IH]; simpl; intros E y Hy; [destruct Hy |].
  destruct (p x) as [[|] |] eqn:Px; simpl in E; try discriminate.
  destruct Hy as [<- | Hy]; [assumption | now apply IH].
Qed.

Lemma inverse_Some (G : Group T) (a b : T) :
  inverse G a = Ok (Some b) ->
  In b (elements G) /\
  exists e, identity G = Some e /\ operation G a b = Ok e.
Proof.
  unfold inverse. intros E. apply find_m_Some in E. destruct E as [Ib E].
  split; [assumption |]. unfold get_identity in E.
  destruct (operation G a b) as [x |]; simpl in E; [| discriminate].
  destruct (identity G) as [e |]; simpl in E; [| discriminate].
  exists e. split; [reflexivity |]. inversion E as [Ex].
  apply eqb_true in Ex. now subst.
Qed.

Lemma inverse_None (G : Group T) (a : T) :
  inverse G a = Ok None ->
  forall b, In b (elements G) ->
    exists c e, operation G a b = Ok c /\ identity G = Some e /\ c <> e.
Proof.
  unfold inverse. intros E b Ib.
  pose proof (find_m_None_inv _ _ E b Ib) as Eb. unfold get_identity in Eb.
  destruct (operation G a b) as [x |]; simpl in Eb; [| discriminate].
  destruct (identity G) as [e |]; simpl in Eb; [| discriminate].
  exists x, e. repeat split. inversion Eb as [Ex]. now apply eqb_false.
Qed.

Lemma Group_init_cached_identity (els : list T) (f : T -> T -> result T)
    (G : Group T) :
  Group_init els f = Ok G ->
  match identity G with
  | Some e => first_such (fun a => is_identity G a = Ok true) els e
  | None => els = []
  end.
Proof.
  intros HG. unfold Group_init, cache_identity in HG. simpl in HG.
  destruct (find_m (is_identity (mkGroup els f None [])) els)
    as [[e |] |] eqn:F; simpl in HG; try discriminate.
  - unfold cache_inverses in HG. simpl in HG.
    destruct (fold_m _ _ els) as [d |]; simpl in HG; [| discriminate].
    inversion HG; subst G; simpl.
    apply find_m_first in F. destruct F as [(l1 & l2 & E & Pe & Hl1) _].
    exists l1, l2. repeat split; [assumption | exact Pe |].
    intros x Hx Px. exact (Hl1 x Hx Px).
  - destruct els as [| a l].
    + unfold cache_inverses in HG. simpl in HG. now inversion HG.
    + exfalso. unfold cache_inverses in HG. simpl in HG.
      unfold inverse at 1 in HG. simpl in HG. unfold operation in HG.
      simpl in HG.
      destruct (f a a); simpl in HG; discriminate.
Qed.
End ConstructorInvariants.

(** X1: whatever the input, when [Group(elements, fn)] returns, the object
    holds the given elements and operation; a non-empty collection has a
    cached identity, which is the first element in collection order that
    passes [is_identity], belongs to the elements and is a two-sided identity
    on them; the keys of the inverse cache are exactly the elements, and the
    value cached for [a] is either an element [b] with [operation(a, b)]
    equal to the identity or [None], in which case no element is such. *)
Theorem Group_init_invariants {T : Type} `{PyEq T} (els : list T)
    (f : T -> T -> result T) (G : Group T) :
  Group_init els f = Ok G ->
  elements G = els /\ fn G = f /\
  (els <> [] -> exists e, identity G = Some e) /\
  (forall e, identity G = Some e ->
     In e els /\
     first_such (fun a => is_identity G a = Ok true) els e /\
     forall b, In b els -> f e b = Ok b /\ f b e = Ok b) /\
  (forall a, In a els <-> exists v, dict_get (inverses G) a = Some v) /\
  (forall a b, dict_get (inverses G) a = Some (Some b) ->
     In b els /\ exists e, identity G = Some e /\ f a b = Ok e) /\
  (forall a, dict_get (inverses G) a = Some None ->
     forall b, In b els ->
       exists c e, f a b = Ok c /\ identity G = Some e /\ c <> e).
Proof.
  intros HG. destruct (Group_init_fields _ _ HG) as [Hel Hfn].
  pose proof (Group_init_cached_identity _ _ HG) as Hid.
  split; [assumption |]. split; [assumption |].
  split.
  { intros Hne. destruct (identity G) as [e |]; [now exists e | contradiction]. }
  split.
  { intros e He. rewrite He in Hid.
    destruct (Group_init_identity _ _ HG He) as [Ie Hlaw]. auto. }
  assert (Hkey : forall a v, dict_get (inverses G) a = Some v ->
            In a els /\ inverse G a = Ok v).
  { intros a v Hd. destruct (in_dec py_eq_dec a els) as [Ia | Na].
    - split; [assumption |].
      destruct (proj1 (Group_init_inverses _ _ HG a) Ia) as (w & Hw & Hd').
      congruence.
    - rewrite (proj2 (Group_init_inverses _ _ HG a) Na) in Hd. discriminate. }
  split.
  { intros a. split.
    - intros Ia. destruct (proj1 (Group_init_inverses _ _ HG a) Ia) as (v & _ & Hd).
      now exists v.
    - intros (v & Hd). now apply (Hkey a v). }
  split.
  - intros a b Hd. destruct (Hkey a _ Hd) as [_ Hinv].
    apply inverse_Some in Hinv. unfold operation in Hinv.
    now rewrite Hel, Hfn in Hinv.
  - intros a Hd b Ib. destruct (Hkey a _ Hd) as [_ Hinv].
    pose proof (inverse_None _ _ Hinv b) as Hb. unfold operation in Hb.
    rewrite Hel, Hfn in Hb. now apply Hb.
Qed.

Lemma Group_init_invariants_witness :
  elements Z3 = [0; 1; 2]%Z /\ fn Z3 = add_mod 3 /\
  ([0; 1; 2]%Z <> [] -> exists e, identity Z3 = Some e) /\
  (forall e, identity Z3 = Some e ->
     In e [0; 1; 2]%Z /\
     first_such (fun a => is_identity Z3 a = Ok true) [0; 1; 2]%Z e /\
     forall b, In b [0; 1; 2]%Z -> add_mod 3 e b = Ok b /\ add_mod 3 b e = Ok b) /\
  (forall a, In a [0; 1; 2]%Z <-> exists v, dict_get (inverses Z3) a = Some v) /\
  (forall a b, dict_get (inverses Z3) a = Some (Some b) ->
     In b [0; 1; 2]%Z /\ exists e, identity Z3 = Some e /\ add_mod 3 a b = Ok e) /\
  (forall a, dict_get (inverses Z3) a = Some None ->
     forall b, In b [0; 1; 2]%Z ->
       exists c e, add_mod 3 a b = Ok c /\ identity Z3 = Some e /\ c <> e).
Proof.
  apply (@Group_init_invariants Z _ [0; 1; 2]%Z (add_mod 3) Z3). reflexivity.
Defined.

Section GroupCache.
Context {T : Type} `{PyEq T}.
Variables (els : list T) (f : T -> T -> result T) (e : T) (G : Group T).
Hypothesis Hg : is_group els f e.
Hypothesis HG : Group_init els f = Ok G.

Lemma inverse_group (a : T) :
  In a els -> inverse G a = Ok (Some (inv els f e a)).
Proof.
  intros Ia. destruct (Group_init_fields _ _ HG) as [Hel Hfn].
  rewrite (inverse_pure G (e := e)).
  - rewrite Hel, Hfn. unfold inv.
    destruct (inv_found Hg a Ia) as (b & Hb). now rewrite Hb.
  - exact (Group_init_group_identity Hg HG).
  - intros b Ib. rewrite Hfn. rewrite Hel in Ib. now apply (group_defined Hg).
Qed.
End GroupCache.

(** X2: on a collection and operation that form a group with identity [e],
    the constructor returns; the cached identity is [e]; and for every element
    [a] the inverse search and the cache agree on one element [b], which is
    the only element with [operation(a, b) = e] and is also a left inverse. *)
Theorem Group_init_on_group {T : Type} `{PyEq T} (els : list T)
    (f : T -> T -> result T) (e : T) :
  is_group els f e ->
  exists G, Group_init els f = Ok G /\ identity G = Some e /\
    forall a, In a els ->
      exists b, In b els /\
        inverse G a = Ok (Some b) /\
        dict_get (inverses G) a = Some (Some b) /\
        operation G a b = Ok e /\ operation G b a = Ok e /\
        forall b', In b' els -> operation G a b' = Ok e -> b' = b.
Proof.
  intros Hg. destruct (Group_init_group Hg) as [G HG]. exists G.
  destruct (Group_init_fields _ _ HG) as [Hel Hfn].
  split; [assumption |]. split; [exact (Group_init_group_identity Hg HG) |].
  intros a Ia. pose proof (inv_in Hg a Ia) as Ib.
  exists (inv els f e a). split; [assumption |].
  split; [now apply (inverse_group Hg HG) |].
  split; [now apply (Group_init_group_inverses Hg a HG) |].
  unfold operation. rewrite Hfn.
  split; [rewrite (op_ok Hg a _ Ia Ib); f_equal; now apply (inv_r Hg) |].
  split; [rewrite (op_ok Hg _ a Ib Ia); f_equal; now apply (inv_l Hg) |].
  intros b' Ib' E. apply (inv_unique Hg a b' Ia Ib').
  rewrite (op_ok Hg a b' Ia Ib') in E. congruence.
Qed.

Lemma Group_init_on_group_witness :
  exists G, Group_init [0; 1; 2; 3]%Z (add_mod 4) = Ok G /\
    identity G = Some 0%Z /\
    forall a, In a [0; 1; 2; 3]%Z ->
      exists b, In b [0; 1; 2; 3]%Z /\
        inverse G a = Ok (Some b) /\
        dict_get (inverses G) a = Some (Some b) /\
        operation G a b = Ok 0%Z /\ operation G b a = Ok 0%Z /\
        forall b', In b' [0; 1; 2; 3]%Z -> operation G a b' = Ok 0%Z -> b' = b.
Proof.
  apply (@Group_init_on_group Z _ [0; 1; 2; 3]%Z (add_mod 4) 0%Z).
  exact Z4_is_group.
Defined.

(** ** Normal divisors *)

Section NormalDivisorTest.
Context {T : Type} `{PyEq T}.
Variables (els : list T) (f : T -> T -> result T) (e : T) (G : Group T).
Hypothesis Hg : is_group els f e.
Hypothesis HG : Group_init els f = Ok G.

Local Notation "a * b" := (op f a b).
Local Notation "a ^-1" := (inv els f e a) (at level 1, format "a ^-1").

Lemma is_normal_divisor_intro (S : list T) :
  is_subgroup G S = Ok true ->
  (forall g h, In g els -> In h S -> In (g * (h * g^-1)) S) ->
  is_normal_divisor G S = Ok true.
Proof.
  intros Hs Hconj.
  destruct (is_subgroup_closed Hg HG S Hs) as (Hincl & _ & _).
  destruct (Group_init_fields _ _ HG) as [Hel Hfn].
  unfold is_normal_divisor. rewrite Hs. simpl. rewrite Hel.
  apply all_m_true. intros g Ig. unfold dict_lookup.
  rewrite (Group_init_group_inverses Hg g HG Ig). simpl.
  apply all_m_true. intros h Ih. unfold operation. rewrite Hfn.
  pose proof (inv_in Hg g Ig) as Iig.
  rewrite (op_ok Hg h _ (Hincl h Ih) Iig). simpl.
  rewrite (op_ok Hg g _ Ig (op_in Hg h _ (Hincl h Ih) Iig)). simpl.
  f_equal. apply contains_In. now apply Hconj.
Qed.

Lemma is_normal_divisor_iff (S : list T) :
  is_normal_divisor G S = Ok true <->
  is_subgroup G S = Ok true /\
  forall g h, In g els -> In h S -> In (g * (h * g^-1)) S.
Proof.
  split.
  - intros HN. split; [now apply is_normal_divisor_subgroup |].
    now apply (is_normal_divisor_closed Hg HG).
  - intros [Hs Hc]. now apply is_normal_divisor_intro.
Qed.

Lemma is_normal_divisor_result (S : list T) :
  is_subgroup G S <> Ok true -> is_normal_divisor G S = is_subgroup G S.
Proof.
  unfold is_normal_divisor.
  destruct (is_subgroup G S) as [[|] |]; simpl; congruence.
Qed.
End NormalDivisorTest.

Section TrivialSubgroups.
Context {T : Type} `{PyEq T}.
Variables (els : list T) (f : T -> T -> result T) (e : T) (G : Group T).
Hypothesis Hg : is_group els f e.
Hypothesis HG : Group_init els f = Ok G.

Lemma is_subgroup_identity_only : is_subgroup G [e] = Ok true.
Proof.
  pose proof (Group_init_group_identity Hg HG) as He.
  destruct (Group_init_fields _ _ HG) as [Hel Hfn].
  apply (is_subgroup_true G [e] He); [now left |].
  intros a b [<- | []] [<- | []]. exists e, e.
  split; [now apply (Group_init_inverse_of_identity _ _ HG) |].
  unfold operation. rewrite Hfn.
  split; [apply (grp_id Hg), (grp_id_in Hg) | now left].
Qed.

Lemma is_subgroup_whole : is_subgroup G els = Ok true.
Proof.
  pose proof (Group_init_group_identity Hg HG) as He.
  destruct (Group_init_fields _ _ HG) as [Hel Hfn].
  apply (is_subgroup_true G els He); [apply (grp_id_in Hg) |].
  intros a b Ia Ib. exists (inv els f e b), (op f a (inv els f e b)).
  split; [now apply (Group_init_group_inverses Hg b HG) |].
  unfold operation. rewrite Hfn.
  pose proof (inv_in Hg b Ib) as Iib.
  split; [apply (op_ok Hg) | apply (op_in Hg)]; assumption.
Qed.
End TrivialSubgroups.

(** X3: in a group, the one-element collection holding the identity and the
    whole element collection both pass [is_normal_divisor]. *)
Theorem trivial_normal_divisors {T : Type} `{PyEq T} (els : list T)
    (f : T -> T -> result T) (e : T) (G : Group T) :
  is_group els f e ->
  Group_init els f = Ok G ->
  is_normal_divisor G [e] = Ok true /\
  is_normal_divisor G (elements G) = Ok true.
Proof.
  intros Hg HG. destruct (Group_init_fields _ _ HG) as [Hel Hfn].
  split.
  - apply (is_normal_divisor_intro Hg HG);
      [exact (is_subgroup_identity_only Hg HG) |].
    intros g h Ig [<- | []]. left.
    rewrite (op_id_l Hg) by now apply (inv_in Hg).
    symmetry. now apply (inv_r Hg).
  - rewrite Hel. apply (is_normal_divisor_intro Hg HG);
      [exact (is_subgroup_whole Hg HG) |].
    intros g h Ig Ih.
    apply (op_in Hg); [assumption |].
    apply (op_in Hg); [assumption | now apply (inv_in Hg)].
Qed.

Lemma trivial_normal_divisors_witness :
  is_normal_divisor Z4 [0%Z] = Ok true /\
  is_normal_divisor Z4 (elements Z4) = Ok true.
Proof.
  apply (@trivial_normal_divisors Z _ [0; 1; 2; 3]%Z (add_mod 4) 0%Z Z4).
  - exact Z4_is_group.
  - reflexivity.
Defined.

Section NormalCosets.
Context {T : Type} `{PyEq T} `{PyOrd T}.
Hypothesis Hord : StrictTotalOrder py_lt.
Variables (els : list T) (f : T -> T -> result T) (e : T) (G : Group T).
Hypothesis Hg : is_group els f e.
Hypothesis HG : Group_init els f = Ok G.
Variable S : list T.
Hypothesis Hincl : incl S els.
Hypothesis He : In e S.
Hypothesis Hdiv : forall a b, In a S -> In b S -> In (op f a (inv els f e b)) S.

Local Notation "a * b" := (op f a b).
Local Notation "a ^-1" := (inv els f e a) (at level 1, format "a ^-1").
Local Ltac mem := group_mem Hg Hincl.

Lemma lcoset_members (a x : T) :
  In x (lcoset f S a) <-> exists h, In h S /\ x = a * h.
Proof.
  unfold lcoset. rewrite sorted_In, set_of_list_In, in_map_iff.
  split; intros (h & P & Q); exists h; auto.
Qed.

Lemma rcoset_members (a x : T) :
  In x (rcoset f S a) <-> exists h, In h S /\ x = h * a.
Proof.
  unfold rcoset. rewrite sorted_In, set_of_list_In, in_map_iff.
  split; intros (h & P & Q); exists h; auto.
Qed.

Lemma conjugate_back (g h : T) :
  In g els -> In h els -> (g * (h * g^-1)) * g = g * h.
Proof.
  intros Ig Ih.
  rewrite (op_assoc Hg g (h * g^-1) g) by mem.
  rewrite (op_assoc Hg h g^-1 g) by mem.
  rewrite (inv_l Hg g Ig). now rewrite (op_id_r Hg h Ih).
Qed.

Lemma normal_cosets_agree (a : T) :
  (forall g h, In g els -> In h S -> In (g * (h * g^-1)) S) ->
  In a els -> lcoset f S a = rcoset f S a.
Proof.
  intros Hnorm Ia. unfold lcoset, rcoset.
  apply (sorted_ext Hord); try apply set_of_list_NoDup.
  intros x. rewrite !set_of_list_In, !in_map_iff. split.
  - intros (h & <- & Ih). exists (a * (h * a^-1)). split.
    + apply conjugate_back; mem.
    + now apply Hnorm.
  - intros (h & <- & Ih). exists (a^-1 * (h * a)). split.
    + rewrite <- (op_assoc Hg a a^-1 (h * a)) by mem.
      rewrite (inv_r Hg a Ia). now rewrite (op_id_l Hg) by mem.
    + pose proof (Hnorm a^-1 h) as Hc.
      rewrite (inv_inv Hg a Ia) in Hc. apply Hc; [mem | assumption].
Qed.

Lemma cosets_agree_normal (g h : T) :
  (forall a, In a els -> lcoset f S a = rcoset f S a) ->
  In g els -> In h S -> In (g * (h * g^-1)) S.
Proof.
  intros Hsame Ig Ih.
  assert (Hin : In (g * h) (rcoset f S g)).
  { rewrite <- (Hsame g Ig). apply lcoset_members. now exists h. }
  apply rcoset_members in Hin. destruct Hin as (h' & Ih' & E).
  rewrite <- (op_assoc Hg g h g^-1) by mem. rewrite E.
  rewrite (op_assoc Hg h' g g^-1) by mem.
  rewrite (inv_r Hg g Ig). now rewrite (op_id_r Hg) by mem.
Qed.
End NormalCosets.

(** X4: for a group [G] and a collection [S] that passes [is_subgroup],
    [is_normal_divisor(S)] is true exactly when [left_coset(S, a)] and
    [right_coset(S, a)] are the same tuple for every element [a] of [G]. *)
Theorem normal_divisor_iff_cosets {T : Type} `{PyEq T} `{PyOrd T}
    (els : list T) (f : T -> T -> result T) (e : T) (G : Group T) (S : list T) :
  StrictTotalOrder py_lt ->
  is_group els f e ->
  Group_init els f = Ok G ->
  is_subgroup G S = Ok true ->
  (is_normal_divisor G S = Ok true <->
   forall a, In a els -> left_coset G S a = right_coset G S a).
Proof.
  intros Hord Hg HG Hs.
  destruct (is_subgroup_closed Hg HG S Hs) as (Hincl & He & Hdiv).
  rewrite (is_normal_divisor_iff Hg HG). split.
  - intros [_ Hnorm] a Ia.
    rewrite (left_coset_group Hg HG Hincl a Ia).
    rewrite (right_coset_group Hg HG Hincl a Ia). f_equal.
    now apply (normal_cosets_agree Hord Hg Hincl).
  - intros Hsame. split; [assumption |].
    intros g h Ig Ih. apply (cosets_agree_normal Hg Hincl); try assumption.
    intros a Ia. specialize (Hsame a Ia).
    rewrite (left_coset_group Hg HG Hincl a Ia) in Hsame.
    rewrite (right_coset_group Hg HG Hincl a Ia) in Hsame. congruence.
Qed.

Lemma normal_divisor_iff_cosets_witness :
  is_normal_divisor Z4 [0; 2]%Z = Ok true <->
  forall a, In a [0; 1; 2; 3]%Z ->
    left_coset Z4 [0; 2]%Z a = right_coset Z4 [0; 2]%Z a.
Proof.
  apply (@normal_divisor_iff_cosets Z _ _ [0; 1; 2; 3]%Z (add_mod 4) 0%Z Z4).
  - exact Z_strict_total_order.
  - exact Z4_is_group.
  - reflexivity.
  - reflexivity.
Defined.

(** X5: in a commutative group [is_normal_divisor] gives, on every candidate,
    the result of [is_subgroup] (the same boolean, or the same exception). *)
Theorem commutative_normal_divisor {T : Type} `{PyEq T} (els : list T)
    (f : T -> T -> result T) (e : T) (G : Group T) (S : list T) :
  is_group els f e ->
  Group_init els f = Ok G ->
  (forall a b, In a els -> In b els -> f a b = f b a) ->
  is_normal_divisor G S = is_subgroup G S.
Proof.
  intros Hg HG Hcomm.
  destruct (is_subgroup G S) as [[|] |] eqn:Hs;
    try (rewrite <- Hs; apply is_normal_divisor_result; congruence).
  destruct (is_subgroup_closed Hg HG S Hs) as (Hincl & He & Hdiv).
  apply (is_normal_divisor_intro Hg HG S Hs).
  intros g h Ig Ih. pose proof (Hincl h Ih) as Ih'.
  pose proof (inv_in Hg g Ig) as Iig.
  assert (E : op f h (inv els f e g) = op f (inv els f e g) h).
  { pose proof (Hcomm h _ Ih' Iig) as Ec.
    rewrite (op_ok Hg h _ Ih' Iig), (op_ok Hg _ h Iig Ih') in Ec.
    now inversion Ec. }
  rewrite E, <- (op_assoc Hg g _ h Ig Iig Ih'), (inv_r Hg g Ig).
  now rewrite (op_id_l Hg h Ih').
Qed.

Lemma commutative_normal_divisor_witness :
  is_normal_divisor Z4 [0; 2]%Z = is_subgroup Z4 [0; 2]%Z.
Proof.
  apply (@commutative_normal_divisor Z _ [0; 1; 2; 3]%Z (add_mod 4) 0%Z Z4).
  - exact Z4_is_group.
  - reflexivity.
  - intros a b _ _. unfold add_mod. now rewrite Z.add_comm.
Defined.

(** ** Subgroups as Groups of their own *)

Section SubgroupObject.
Context {T : Type} `{PyEq T}.
Variables (els : list T) (f : T -> T -> result T) (e : T) (G : Group T).
Hypothesis Hg : is_group els f e.
Hypothesis HG : Group_init els f = Ok G.
Variable S : list T.
Hypothesis Hincl : incl S els.
Hypothesis He : In e S.
Hypothesis Hdiv : forall a b, In a S -> In b S -> In (op f a (inv els f e b)) S.

Lemma subgroup_is_group : is_group S f e.
Proof.
  constructor.
  - intros a b Ia Ib. exists (op f a b). split.
    + apply (op_ok Hg); now apply Hincl.
    + now apply (sub_op Hg Hincl He Hdiv).
  - intros a b c Ia Ib Ic. apply (op_assoc Hg); now apply Hincl.
  - exact He.
  - intros a Ia. apply (grp_id Hg). now apply Hincl.
  - intros a Ia. exists (inv els f e a). split.
    + now apply (sub_inv Hg Hincl He Hdiv).
    + pose proof (Hincl a Ia) as Ia'.
      rewrite (op_ok Hg a _ Ia' (inv_in Hg a Ia')). f_equal.
      now apply (inv_r Hg).
Qed.

Lemma subgroup_inv (a : T) : In a S -> inv S f e a = inv els f e a.
Proof.
  intros Ia. pose proof (Hincl a Ia) as Ia'.
  apply (inv_unique Hg a _ Ia').
  - apply Hincl. now apply (inv_in subgroup_is_group).
  - now apply (inv_r subgroup_is_group).
Qed.

Lemma subgroup_defined :
  exists Q, subgroup G S = Ok Q /\ elements Q = S /\ fn Q = fn G /\
            identity Q = identity G /\
            forall a, In a S -> dict_get (inverses Q) a = dict_get (inverses G) a.
Proof.
  destruct (Group_init_fields _ _ HG) as [Hel Hfn].
  destruct (Group_init_group subgroup_is_group) as [Q HQ].
  destruct (Group_init_fields _ _ HQ) as [HelQ HfnQ].
  exists Q. unfold subgroup. rewrite Hfn.
  split; [assumption |]. split; [assumption |]. split; [congruence |].
  split.
  - rewrite (Group_init_group_identity subgroup_is_group HQ).
    now rewrite (Group_init_group_identity Hg HG).
  - intros a Ia.
    rewrite (Group_init_group_inverses subgroup_is_group a HQ Ia).
    rewrite (Group_init_group_inverses Hg a HG (Hincl a Ia)).
    now rewrite subgroup_inv.
Qed.
End SubgroupObject.

(** X6: for a group [G] and a collection [S] that passes [is_subgroup],
    [subgroup(S)] returns a Group on [S] with the parent's operation; its
    recomputed identity is the parent's, its recomputed inverses are the
    parent's on [S], and [S] with that operation is again a group. *)
Theorem subgroup_of_group {T : Type} `{PyEq T} (els : list T)
    (f : T -> T -> result T) (e : T) (G : Group T) (S : list T) :
  is_group els f e ->
  Group_init els f = Ok G ->
  is_subgroup G S = Ok true ->
  exists Q, subgroup G S = Ok Q /\ elements Q = S /\ fn Q = fn G /\
            identity Q = identity G /\
            (forall a, In a S -> dict_get (inverses Q) a = dict_get (inverses G) a) /\
            is_group (elements Q) (fn Q) e.
Proof.
  intros Hg HG Hs.
  destruct (is_subgroup_closed Hg HG S Hs) as (Hincl & He & Hdiv).
  destruct (subgroup_defined Hg HG Hincl He Hdiv) as (Q & HQ & Hel & Hfn & Hid & Hinv).
  exists Q. repeat (split; [assumption |]).
  rewrite Hel, Hfn. destruct (Group_init_fields _ _ HG) as [_ ->].
  now apply (subgroup_is_group Hg Hincl He Hdiv).
Qed.

Lemma subgroup_of_group_witness :
  exists Q, subgroup Z4 [0; 2]%Z = Ok Q /\ elements Q = [0; 2]%Z /\
            fn Q = fn Z4 /\ identity Q = identity Z4 /\
            (forall a, In a [0; 2]%Z ->
               dict_get (inverses Q) a = dict_get (inverses Z4) a) /\
            is_group (elements Q) (fn Q) 0%Z.
Proof.
  apply (@subgroup_of_group Z _ [0; 1; 2; 3]%Z (add_mod 4) 0%Z Z4 [0; 2]%Z).
  - exact Z4_is_group.
  - reflexivity.
  - reflexivity.
Defined.

(** ** The enumerators on a group *)

Section EnumeratorsOnGroup.
Context {T : Type} `{PyEq T}.

Lemma map_filter_m_pure {A B : Type} (g : A -> result B) (p : A -> result bool)
    (pb : A -> bool) (l : list A) :
  (forall x, In x l -> p x = Ok (pb x)) ->
  (forall x, In x l -> pb x = true -> exists y, g x = Ok y) ->
  snd (map_filter_m g p l) = None /\
  Forall2 (fun x y => g x = Ok y) (filter pb l) (fst (map_filter_m g p l)).
Proof.
  induction l as [| x l IH]; simpl; intros Hp Hg; [split; constructor |].
  rewrite (Hp x (or_introl eq_refl)).
  destruct IH as [IH1 IH2].
  { intros y Hy. apply Hp. now right. }
  { intros y Hy. apply Hg. now right. }
  destruct (pb x) eqn:Px; [| now split].
  destruct (Hg x (or_introl eq_refl) Px) as [y Hy]. rewrite Hy.
  destruct (map_filter_m g p l) as [ys r]. simpl in *.
  split; [assumption | now constructor].
Qed.

Lemma subseq_incl {A : Type} (s l : list A) : subseq s l -> incl s l.
Proof.
  intros Hs x Hx. eapply subseq_In; eassumption.
Qed.

Lemma subseq_NoDup {A : Type} (s l : list A) : subseq s l -> NoDup l -> NoDup s.
Proof.
  induction 1 as [| x s l Hs IH | x s l Hs IH]; intros Hl.
  - constructor.
  - inversion Hl; subst. now apply IH.
  - inversion Hl as [| ? ? Hx Hl']; subst. constructor; [| now apply IH].
    intros Hin. apply Hx. eapply subseq_In; eassumption.
Qed.

Variables (els : list T) (f : T -> T -> result T) (e : T) (G : Group T).
Hypothesis Hg : is_group els f e.
Hypothesis HG : Group_init els f = Ok G.

Lemma is_normal_divisor_defined (S : list T) :
  incl S els -> exists b, is_normal_divisor G S = Ok b.
Proof.
  intros Hincl. destruct (Group_init_fields _ _ HG) as [Hel Hfn].
  unfold is_normal_divisor. rewrite (is_subgroup_pure Hg HG Hincl). simpl.
  destruct (contains S e && _)%bool; simpl; [| now exists false].
  rewrite Hel.
  rewrite (all_m_pure _
     (fun g => forallb (fun h =>
        contains S (op f g (op f h (inv els f e g)))) S)); [eauto |].
  intros g Ig. unfold dict_lookup.
  rewrite (Group_init_group_inverses Hg g HG Ig). simpl.
  apply all_m_pure. intros h Ih. unfold operation. rewrite Hfn.
  pose proof (inv_in Hg g Ig) as Iig.
  rewrite (op_ok Hg h _ (Hincl h Ih) Iig). simpl.
  now rewrite (op_ok Hg g _ Ig (op_in Hg h _ (Hincl h Ih) Iig)).
Qed.

(** A filter whose accepted candidates pass [is_subgroup], mapped through
    [subgroup], over the subsets of the elements. *)
Lemma enumerate_on_group (p : list T -> result bool) :
  (forall S, incl S els -> exists b, p S = Ok b) ->
  (forall S, p S = Ok true -> is_subgroup G S = Ok true) ->
  snd (map_filter_m (subgroup G) p (powerset els)) = None /\
  map (@elements T) (fst (map_filter_m (subgroup G) p (powerset els))) =
    filter (fun S => match p S with Ok b => b | Raise _ => false end)
           (powerset els) /\
  forall Q, In Q (fst (map_filter_m (subgroup G) p (powerset els))) ->
    fn Q = fn G /\ identity Q = identity G /\ is_group (elements Q) (fn Q) e.
Proof.
  intros Hdef Hsub.
  set (pb := fun S => match p S with Ok b => b | Raise _ => false end).
  assert (Hp : forall S, In S (powerset els) -> p S = Ok (pb S)).
  { intros S HS. apply powerset_In, subseq_incl in HS.
    destruct (Hdef S HS) as [b Hb]. unfold pb. now rewrite Hb. }
  assert (Hq : forall S, pb S = true ->
            exists Q, subgroup G S = Ok Q /\ elements Q = S /\ fn Q = fn G /\
                      identity Q = identity G /\ is_group (elements Q) (fn Q) e).
  { intros S HS. unfold pb in HS.
    destruct (p S) as [[|] |] eqn:PS; try discriminate.
    pose proof (Hsub S PS) as Hs.
    destruct (is_subgroup_closed Hg HG S Hs) as (Hincl & He & Hdiv).
    destruct (subgroup_defined Hg HG Hincl He Hdiv)
      as (Q & HQ & Hel & Hfn & Hid & _).
    exists Q. repeat (split; [assumption |]).
    rewrite Hel, Hfn. destruct (Group_init_fields _ _ HG) as [_ ->].
    now apply (subgroup_is_group Hg Hincl He Hdiv). }
  destruct (map_filter_m_pure (subgroup G) p pb (powerset els) Hp) as [Hnone Hall].
  { intros S _ HS. destruct (Hq S HS) as (Q & HQ & _). now exists Q. }
  split; [assumption |].
  assert (Hfilter : forall S, In S (filter pb (powerset els)) -> pb S = true).
  { intros S HS. now apply filter_In in HS. }
  revert Hall Hfilter.
  generalize (filter pb (powerset els)) as cands.
  generalize (fst (map_filter_m (subgroup G) p (powerset els))) as yielded.
  intros yielded cands Hall. induction Hall as [| S Q cands yielded HQ Hall IH];
    intros Hfilter.
  - split; [reflexivity | intros Q []].
  - destruct IH as [IH1 IH2]; [intros S' HS'; apply Hfilter; now right |].
    destruct (Hq S (Hfilter S (or_introl eq_refl))) as (Q' & HQ' & Hel & Hrest).
    assert (Q' = Q) by congruence. subst Q'.
    split; [simpl; now rewrite Hel, IH1 |].
    intros Q0 [<- | HQ0]; [exact Hrest | now apply IH2].
Qed.
End EnumeratorsOnGroup.

(** X7: on a group, iterating [subgroups()] raises nothing; the element
    collections of the Groups it yields are, in order, the emissions of the
    subset enumerator that pass [is_subgroup], among them the identity alone
    and the whole collection; and every yielded Group shares the parent's
    operation and identity and is a group. *)
Theorem subgroups_on_group {T : Type} `{PyEq T} (els : list T)
    (f : T -> T -> result T) (e : T) (G : Group T) :
  is_group els f e ->
  Group_init els f = Ok G ->
  snd (subgroups G) = None /\
  map (@elements T) (fst (subgroups G)) =
    filter (fun S => match is_subgroup G S with Ok b => b | Raise _ => false end)
           (powerset els) /\
  In [e] (map (@elements T) (fst (subgroups G))) /\
  In els (map (@elements T) (fst (subgroups G))) /\
  forall Q, In Q (fst (subgroups G)) ->
    fn Q = fn G /\ identity Q = identity G /\ is_group (elements Q) (fn Q) e.
Proof.
  intros Hg HG. destruct (Group_init_fields _ _ HG) as [Hel Hfn].
  unfold subgroups. rewrite Hel.
  destruct (enumerate_on_group Hg HG (is_subgroup G)) as (Hnone & Hmap & Hall).
  { intros S HS. rewrite (is_subgroup_pure Hg HG HS). eauto. }
  { auto. }
  split; [assumption |]. split; [assumption |].
  rewrite Hmap. repeat split; try (now apply Hall).
  - apply filter_In. split.
    + apply powerset_In. pose proof (grp_id_in Hg) as Ie.
      clear - Ie. induction els as [| x l IH]; [destruct Ie |].
      destruct Ie as [-> | Ie]; [constructor; apply subseq_nil_l |].
      constructor. now apply IH.
    + now rewrite (is_subgroup_identity_only Hg HG).
  - apply filter_In. split; [apply powerset_In, subseq_refl |].
    now rewrite (is_subgroup_whole Hg HG).
Qed.

Lemma subgroups_on_group_witness :
  snd (subgroups Z4) = None /\
  map (@elements Z) (fst (subgroups Z4)) =
    filter (fun S => match is_subgroup Z4 S with Ok b => b | Raise _ => false end)
           (powerset [0; 1; 2; 3]%Z) /\
  In [0%Z] (map (@elements Z) (fst (subgroups Z4))) /\
  In [0; 1; 2; 3]%Z (map (@elements Z) (fst (subgroups Z4))) /\
  forall Q, In Q (fst (subgroups Z4)) ->
    fn Q = fn Z4 /\ identity Q = identity Z4 /\
    is_group (elements Q) (fn Q) 0%Z.
Proof.
  apply (@subgroups_on_group Z _ [0; 1; 2; 3]%Z (add_mod 4) 0%Z Z4).
  - exact Z4_is_group.
  - reflexivity.
Defined.

(** X8: on a group, iterating [normal_divisors()] raises nothing, and the
    element collections of the Groups it yields are, in order, the emissions
    of the subset enumerator that pass [is_normal_divisor], among them the
    identity alone and the whole collection. *)
Theorem normal_divisors_on_group {T : Type} `{PyEq T} (els : list T)
    (f : T -> T -> result T) (e : T) (G : Group T) :
  is_group els f e ->
  Group_init els f = Ok G ->
  snd (normal_divisors G) = None /\
  map (@elements T) (fst (normal_divisors G)) =
    filter (fun S => match is_normal_divisor G S with Ok b => b | Raise _ => false end)
           (powerset els) /\
  In [e] (map (@elements T) (fst (normal_divisors G))) /\
  In els (map (@elements T) (fst (normal_divisors G))).
Proof.
  intros Hg HG. destruct (Group_init_fields _ _ HG) as [Hel Hfn].
  unfold normal_divisors. rewrite Hel.
  destruct (enumerate_on_group Hg HG (is_normal_divisor G)) as (Hnone & Hmap & _).
  { intros S HS. now apply (is_normal_divisor_defined Hg HG). }
  { intros S HS. now apply is_normal_divisor_subgroup. }
  split; [assumption |]. split; [assumption |].
  rewrite Hmap.
  assert (Hid : is_normal_divisor G [e] = Ok true).
  { apply (is_normal_divisor_intro Hg HG);
      [exact (is_subgroup_identity_only Hg HG) |].
    intros g h Ig [<- | []]. left.
    rewrite (op_id_l Hg) by now apply (inv_in Hg).
    symmetry. now apply (inv_r Hg). }
  assert (Hwhole : is_normal_divisor G els = Ok true).
  { apply (is_normal_divisor_intro Hg HG);
      [exact (is_subgroup_whole Hg HG) |].
    intros g h Ig Ih. apply (op_in Hg); [assumption |].
    apply (op_in Hg); [assumption | now apply (inv_in Hg)]. }
  split.
  - apply filter_In. split; [| now rewrite Hid].
    apply powerset_In. pose proof (grp_id_in Hg) as Ie.
    clear - Ie. induction els as [| x l IH]; [destruct Ie |].
    destruct Ie as [-> | Ie]; [constructor; apply subseq_nil_l |].
    constructor. now apply IH.
  - apply filter_In. split; [apply powerset_In, subseq_refl |].
    now rewrite Hwhole.
Qed.

Lemma normal_divisors_on_group_witness :
  snd (normal_divisors Z4) = None /\
  map (@elements Z) (fst (normal_divisors Z4)) =
    filter (fun S => match is_normal_divisor Z4 S with Ok b => b | Raise _ => false end)
           (powerset [0; 1; 2; 3]%Z) /\
  In [0%Z] (map (@elements Z) (fst (normal_divisors Z4))) /\
  In [0; 1; 2; 3]%Z (map (@elements Z) (fst (normal_divisors Z4))).
Proof.
  apply (@normal_divisors_on_group Z _ [0; 1; 2; 3]%Z (add_mod 4) 0%Z Z4).
  - exact Z4_is_group.
  - reflexivity.
Defined.

(** ** Counting cosets *)

Section Counting.
Context {A : Type}.

Lemma concat_blocks_NoDup (L : list (list A)) :
  (forall c, In c L -> NoDup c) ->
  (forall c1 c2 x, In c1 L -> In c2 L -> In x c1 -> In x c2 -> c1 = c2) ->
  NoDup L -> NoDup (concat L).
Proof.
  induction L as [| c L IH]; simpl; intros Hc Hmeet HL; [constructor |].
  inversion HL as [| ? ? Hn HL']; subst.
  apply NoDup_app.
  - apply Hc. now left.
  - apply IH; auto. intros c1 c2 x H1 H2. apply Hmeet; now right.
  - intros x Hx Hin. apply in_concat in Hin. destruct Hin as (c' & Hc' & Hx').
    apply Hn. rewrite (Hmeet c c' x); auto.
Qed.

Lemma concat_blocks_length (L : list (list A)) (n : nat) :
  (forall c, In c L -> length c = n) -> length (concat L) = length L * n.
Proof.
  induction L as [| c L IH]; simpl; intros Hc; [reflexivity |].
  rewrite length_app, IH, (Hc c); auto.
Qed.

Lemma partitions_count (els S : list A) (L : list (list A)) :
  partitions els S L -> NoDup els -> NoDup L ->
  length els = length L * length S.
Proof.
  intros (Hblock & Hmeet & Hcover) Hels HL.
  rewrite <- (@concat_blocks_length L (length S)) by (intros c Hc; now apply Hblock).
  apply Permutation_length, NoDup_Permutation; [assumption | |].
  - apply concat_blocks_NoDup; auto. intros c Hc. now apply Hblock.
  - intros x. rewrite Hcover, in_concat. split; intros (c & P & Q); eauto.
Qed.
End Counting.

Section CosetFamilies.
Context {T : Type} `{PyEq T} `{PyOrd T}.
Hypothesis Hord : StrictTotalOrder py_lt.
Variables (els : list T) (f : T -> T -> result T) (e : T) (G : Group T).
Hypothesis Hg : is_group els f e.
Hypothesis HG : Group_init els f = Ok G.
Variable S : list T.
Hypothesis HS : NoDup S.
Hypothesis Hincl : incl S els.
Hypothesis He : In e S.
Hypothesis Hdiv : forall a b, In a S -> In b S -> In (op f a (inv els f e b)) S.

Lemma left_family_partitions :
  partitions els S (set_of_list (map (lcoset f S) els)).
Proof.
  apply (@translate_partition T _ _ Hord els S e (op f)); auto.
  - now apply (left_translate_in Hg).
  - now apply (op_id_r Hg).
  - now apply (left_translate_inj Hg).
  - now apply (left_translate_meet Hg).
Qed.

Lemma right_family_partitions :
  partitions els S (set_of_list (map (rcoset f S) els)).
Proof.
  apply (@translate_partition T _ _ Hord els S e (fun a h => op f h a)); auto.
  - intros a h Ia Ih. now apply (right_translate_in Hg Hincl).
  - now apply (op_id_l Hg).
  - intros a h1 h2. now apply (right_translate_inj Hg).
  - intros a b h1 h2 h. now apply (right_translate_meet Hg).
Qed.
End CosetFamilies.

(** X9: for a group with a duplicate-free element collection and a
    duplicate-free collection [S] that passes [is_subgroup], the number of
    tuples in [left_cosets(S)], and in [right_cosets(S)], times the size of
    [S] is the size of the group; the size of [S] divides that of the group. *)
Theorem cosets_count {T : Type} `{PyEq T} `{PyOrd T} (els : list T)
    (f : T -> T -> result T) (e : T) (G : Group T) (S : list T) :
  StrictTotalOrder py_lt ->
  is_group els f e ->
  Group_init els f = Ok G ->
  NoDup els ->
  NoDup S ->
  is_subgroup G S = Ok true ->
  exists L R,
    left_cosets G S = Ok L /\ right_cosets G S = Ok R /\
    length els = (length L * length S)%nat /\
    length els = (length R * length S)%nat /\
    length L = length R /\
    Nat.divide (length S) (length els).
Proof.
  intros Hord Hg HG Hels HS Hs.
  destruct (is_subgroup_closed Hg HG S Hs) as (Hincl & He & Hdiv).
  exists (set_of_list (map (lcoset f S) els)),
         (set_of_list (map (rcoset f S) els)).
  pose proof (partitions_count
                (left_family_partitions Hord Hg HS Hincl He Hdiv) Hels
                (set_of_list_NoDup _)) as HL.
  pose proof (partitions_count
                (right_family_partitions Hord Hg HS Hincl He Hdiv) Hels
                (set_of_list_NoDup _)) as HR.
  split; [now apply (left_cosets_group Hg HG) |].
  split; [now apply (right_cosets_group Hg HG) |].
  split; [assumption |]. split; [assumption |].
  split.
  - assert (Hpos : length S <> 0%nat) by (destruct S; [destruct He | discriminate]).
    rewrite HL in HR. now apply Nat.mul_cancel_r in HR.
  - eexists. exact HL.
Qed.

Lemma cosets_count_witness :
  exists L R,
    left_cosets Z4 [0; 2]%Z = Ok L /\ right_cosets Z4 [0; 2]%Z = Ok R /\
    length [0; 1; 2; 3]%Z = (length L * length [0; 2]%Z)%nat /\
    length [0; 1; 2; 3]%Z = (length R * length [0; 2]%Z)%nat /\
    length L = length R /\
    Nat.divide (length [0; 2]%Z) (length [0; 1; 2; 3]%Z).
Proof.
  apply (@cosets_count Z _ _ [0; 1; 2; 3]%Z (add_mod 4) 0%Z Z4 [0; 2]%Z).
  - exact Z_strict_total_order.
  - exact Z4_is_group.
  - reflexivity.
  - repeat constructor; simpl; intuition discriminate.
  - repeat constructor; simpl; intuition discriminate.
  - reflexivity.
Defined.

(** ** The centre *)

Lemma S3_is_group : is_group [0; 1; 2; 3; 4; 5]%Z S3_op 0%Z.
Proof.
  apply check_group_sound. vm_compute. reflexivity.
Qed.

Lemma S3_constructed : Group_init [0; 1; 2; 3; 4; 5]%Z S3_op = Ok S3.
Proof. vm_compute. reflexivity. Qed.

Lemma filter_m_pure {A : Type} (p : A -> result bool) (pb : A -> bool) (l : list A) :
  (forall x, In x l -> p x = Ok (pb x)) -> filter_m p l = Ok (filter pb l).
Proof.
  induction l as [| x l IH]; simpl; intros Hp; [reflexivity |].
  rewrite (Hp x (or_introl eq_refl)). simpl.
  rewrite IH by (intros y Hy; apply Hp; now right). simpl.
  now destruct (pb x).
Qed.

Lemma filter_subseq {A : Type} (pb : A -> bool) (l : list A) :
  subseq (filter pb l) l.
Proof.
  induction l as [| x l IH]; simpl; [constructor |].
  destruct (pb x); now constructor.
Qed.

Section Centre.
Context {T : Type} `{PyEq T}.
Variables (els : list T) (f : T -> T -> result T) (e : T) (G : Group T).
Hypothesis Hg : is_group els f e.
Hypothesis HG : Group_init els f = Ok G.

Local Notation "a * b" := (op f a b).
Local Notation "a ^-1" := (inv els f e a) (at level 1, format "a ^-1").
Local Notation "'central' a" := (forall x, In x els -> a * x = x * a)
  (at level 10).
Local Notation "'centralb'" :=
  (fun a => forallb (fun x => eqb (a * x) (x * a)) els).

Lemma incl_refl_els : incl els els.
Proof. intros x Hx. exact Hx. Qed.

Local Ltac mem := group_mem Hg incl_refl_els.

Lemma is_central_pure (a : T) :
  In a els -> is_central G a = Ok (centralb a).
Proof.
  intros Ia. destruct (Group_init_fields _ _ HG) as [Hel Hfn].
  unfold is_central. rewrite Hel. apply all_m_pure. intros x Ix.
  unfold operation. rewrite Hfn.
  now rewrite (op_ok Hg a x Ia Ix), (op_ok Hg x a Ix Ia).
Qed.

Lemma centralb_true (a : T) : centralb a = true <-> central a.
Proof.
  rewrite forallb_forall. split; intros Hc x Ix; specialize (Hc x Ix).
  - now apply eqb_true.
  - now apply eqb_true.
Qed.

Lemma central_e : central e.
Proof.
  intros x Ix. now rewrite (op_id_l Hg x Ix), (op_id_r Hg x Ix).
Qed.

Lemma central_op (a b : T) :
  In a els -> In b els -> central a -> central b -> central (a * b).
Proof.
  intros Ia Ib Ha Hb x Ix.
  rewrite (op_assoc Hg a b x) by mem. rewrite (Hb x Ix).
  rewrite <- (op_assoc Hg a x b) by mem. rewrite (Ha x Ix).
  now rewrite (op_assoc Hg x a b) by mem.
Qed.

Lemma central_inv (b : T) : In b els -> central b -> central b^-1.
Proof.
  intros Ib Hb x Ix.
  apply (cancel_l Hg b); mem.
  rewrite <- (op_assoc Hg b b^-1 x) by mem.
  rewrite (inv_r Hg b Ib), (op_id_l Hg x Ix).
  rewrite <- (op_assoc Hg b x b^-1) by mem. rewrite (Hb x Ix).
  rewrite (op_assoc Hg x b b^-1) by mem.
  now rewrite (inv_r Hg b Ib), (op_id_r Hg x Ix).
Qed.

Lemma centre_members (a : T) :
  In a (filter centralb els) <-> In a els /\ central a.
Proof.
  rewrite filter_In. now rewrite centralb_true.
Qed.

Lemma centre_is_subgroup : is_subgroup G (filter centralb els) = Ok true.
Proof.
  pose proof (Group_init_group_identity Hg HG) as He.
  destruct (Group_init_fields _ _ HG) as [Hel Hfn].
  apply (is_subgroup_true G _ He).
  - apply centre_members. split; [mem | apply central_e].
  - intros a b Ha Hb. apply centre_members in Ha, Hb.
    destruct Ha as [Ia Ca]. destruct Hb as [Ib Cb].
    exists b^-1, (a * b^-1).
    split; [now apply (Group_init_group_inverses Hg b HG) |].
    unfold operation. rewrite Hfn.
    split; [apply (op_ok Hg); mem |].
    apply centre_members. split; [mem |].
    apply central_op; [mem | mem | assumption | now apply central_inv].
Qed.

Lemma centre_is_normal : is_normal_divisor G (filter centralb els) = Ok true.
Proof.
  apply (is_normal_divisor_intro Hg HG); [exact centre_is_subgroup |].
  intros g h Ig Hh. apply centre_members in Hh. destruct Hh as [Ih Ch].
  rewrite (Ch g^-1) by mem.
  rewrite <- (op_assoc Hg g g^-1 h) by mem.
  rewrite (inv_r Hg g Ig), (op_id_l Hg h Ih).
  now apply centre_members.
Qed.

Lemma center_pure :
  center G = subgroup G (filter centralb els).
Proof.
  destruct (Group_init_fields _ _ HG) as [Hel Hfn].
  unfold center. rewrite Hel.
  rewrite (filter_m_pure _ centralb); [reflexivity |].
  apply is_central_pure.
Qed.
End Centre.

(** X10: on a group [center()] returns a Group whose elements are, in
    collection order, exactly the elements that commute with every element;
    the identity is one of them; the collection passes [is_normal_divisor];
    and the returned Group shares the parent's operation and identity and is
    a group. *)
Theorem center_of_group {T : Type} `{PyEq T} (els : list T)
    (f : T -> T -> result T) (e : T) (G : Group T) :
  is_group els f e ->
  Group_init els f = Ok G ->
  exists C, center G = Ok C /\
    subseq (elements C) els /\
    (forall a, In a (elements C) <->
       In a els /\ forall x, In x els -> operation G a x = operation G x a) /\
    In e (elements C) /\
    is_normal_divisor G (elements C) = Ok true /\
    fn C = fn G /\ identity C = identity G /\
    is_group (elements C) (fn C) e.
Proof.
  intros Hg HG. destruct (Group_init_fields _ _ HG) as [Hel Hfn].
  pose proof (centre_is_subgroup Hg HG) as Hs.
  destruct (is_subgroup_closed Hg HG _ Hs) as (Hincl & He & Hdiv).
  destruct (subgroup_defined Hg HG Hincl He Hdiv)
    as (C & HC & HelC & HfnC & HidC & _).
  exists C. rewrite (center_pure Hg HG).
  split; [assumption |]. rewrite HelC.
  split; [apply filter_subseq |].
  split.
  { intros a. rewrite centre_members. unfold operation. rewrite Hfn.
    split; intros [Ia Ca]; (split; [assumption |]); intros x Ix.
    - rewrite (op_ok Hg a x Ia Ix), (op_ok Hg x a Ix Ia). f_equal. now apply Ca.
    - pose proof (Ca x Ix) as E.
      rewrite (op_ok Hg a x Ia Ix), (op_ok Hg x a Ix Ia) in E. now inversion E. }
  split; [assumption |].
  split; [exact (centre_is_normal Hg HG) |].
  split; [assumption |]. split; [assumption |].
  rewrite HfnC, Hfn. now apply (subgroup_is_group Hg Hincl He Hdiv).
Qed.

Lemma center_of_group_witness :
  exists C, center S3 = Ok C /\
    subseq (elements C) [0; 1; 2; 3; 4; 5]%Z /\
    (forall a, In a (elements C) <->
       In a [0; 1; 2; 3; 4; 5]%Z /\
       forall x, In x [0; 1; 2; 3; 4; 5]%Z -> operation S3 a x = operation S3 x a) /\
    In 0%Z (elements C) /\
    is_normal_divisor S3 (elements C) = Ok true /\
    fn C = fn S3 /\ identity C = identity S3 /\
    is_group (elements C) (fn C) 0%Z.
Proof.
  apply (@center_of_group Z _ [0; 1; 2; 3; 4; 5]%Z S3_op 0%Z S3).
  - exact S3_is_group.
  - exact S3_constructed.
Defined.

(** X11: in a commutative group every element is central: the Group that
    [center()] returns has the whole element collection. *)
Theorem center_of_commutative_group {T : Type} `{PyEq T} (els : list T)
    (f : T -> T -> result T) (e : T) (G : Group T) :
  is_group els f e ->
  Group_init els f = Ok G ->
  (forall a b, In a els -> In b els -> f a b = f b a) ->
  (forall a, In a els -> is_central G a = Ok true) /\
  exists C, center G = Ok C /\ elements C = els.
Proof.
  intros Hg HG Hcomm. destruct (Group_init_fields _ _ HG) as [Hel Hfn].
  assert (Hall : forall a, In a els ->
            forallb (fun x => eqb (op f a x) (op f x a)) els = true).
  { intros a Ia. apply forallb_forall. intros x Ix. apply eqb_true.
    pose proof (Hcomm a x Ia Ix) as Ec.
    rewrite (op_ok Hg a x Ia Ix), (op_ok Hg x a Ix Ia) in Ec. now inversion Ec. }
  split.
  { intros a Ia. rewrite (is_central_pure Hg HG a Ia). f_equal. now apply Hall. }
  pose proof (centre_is_subgroup Hg HG) as Hs.
  destruct (is_subgroup_closed Hg HG _ Hs) as (Hincl & He & Hdiv).
  destruct (subgroup_defined Hg HG Hincl He Hdiv) as (C & HC & HelC & _).
  exists C. rewrite (center_pure Hg HG). split; [assumption |].
  rewrite HelC. clear - Hall.
  assert (Hgen : forall l, (forall a, In a l ->
            forallb (fun x => eqb (op f a x) (op f x a)) els = true) ->
            filter (fun a => forallb (fun x => eqb (op f a x) (op f x a)) els) l = l).
  { induction l as [| a l IH]; simpl; intros Hl; [reflexivity |].
    rewrite (Hl a (or_introl eq_refl)). f_equal. apply IH.
    intros b Ib. apply Hl. now right. }
  now apply Hgen.
Qed.

Lemma center_of_commutative_group_witness :
  (forall a, In a [0; 1; 2; 3]%Z -> is_central Z4 a = Ok true) /\
  exists C, center Z4 = Ok C /\ elements C = [0; 1; 2; 3]%Z.
Proof.
  apply (@center_of_commutative_group Z _ [0; 1; 2; 3]%Z (add_mod 4) 0%Z Z4).
  - exact Z4_is_group.
  - reflexivity.
  - intros a b _ _. unfold add_mod. now rewrite Z.add_comm.
Defined.

(** ** Morphisms *)

Section Morphisms.
Context {T U : Type} {EqT : PyEq T} {EqU : PyEq U}.

Lemma is_morphism_true (G : Group T) (G' : Group U) (phi : T -> result U) :
  is_morphism G G' phi = Ok true <->
  forall a b, In a (elements G) -> In b (elements G) ->
    exists c x y r, operation G a b = Ok c /\ phi a = Ok x /\ phi b = Ok y /\
                    operation G' x y = Ok r /\ phi c = Ok r.
Proof.
  unfold is_morphism. rewrite all_m_true. split.
  - intros Hall a b Ia Ib.
    specialize (Hall (a, b) (proj2 (in_prod_iff _ _ a b) (conj Ia Ib))).
    simpl in Hall.
    destruct (operation G a b) as [c |]; simpl in Hall; [| discriminate].
    destruct (phi c) as [l |] eqn:Pc; simpl in Hall; [| discriminate].
    destruct (phi a) as [x |]; simpl in Hall; [| discriminate].
    destruct (phi b) as [y |]; simpl in Hall; [| discriminate].
    destruct (operation G' x y) as [r |] eqn:Or; simpl in Hall; [| discriminate].
    inversion Hall as [E]. apply eqb_true in E. subst l.
    exists c, x, y, r. repeat split; assumption.
  - intros Hall [a b] Hab. apply in_prod_iff in Hab. destruct Hab as [Ia Ib].
    destruct (Hall a b Ia Ib) as (c & x & y & r & Hc & Hx & Hy & Hr & Hl).
    simpl. rewrite Hc. simpl. rewrite Hl, Hx, Hy. simpl. rewrite Hr. simpl.
    now rewrite eqb_refl.
Qed.
End Morphisms.



(** X13: morphisms compose: when [is_morphism] accepts [phi] from [G] to
    [G'] and [psi] from [G'] to [G''], and [phi] sends the elements of [G] to
    elements of [G'], it accepts the mapping [x -> psi(phi(x))] from [G] to
    [G'']. *)
Theorem is_morphism_compose {T U V : Type} {EqU : PyEq U} {EqV : PyEq V}
    (G : Group T) (G' : Group U) (G'' : Group V)
    (phi : T -> result U) (psi : U -> result V) :
  is_morphism G G' phi = Ok true ->
  is_morphism G' G'' psi = Ok true ->
  (forall a u, In a (elements G) -> phi a = Ok u -> In u (elements G')) ->
  is_morphism G G'' (fun x => y <- phi x ;; psi y) = Ok true.
Proof.
  intros H1 H2 Hmap. apply is_morphism_true. intros a b Ia Ib.
  destruct (proj1 (is_morphism_true G G' phi) H1 a b Ia Ib)
    as (c & x & y & r & Hc & Hx & Hy & Hr & Hl).
  destruct (proj1 (is_morphism_true G' G'' psi) H2 x y
              (Hmap a x Ia Hx) (Hmap b y Ib Hy))
    as (c' & x' & y' & r' & Hc' & Hx' & Hy' & Hr' & Hl').
  assert (c' = r) by congruence. subst c'.
  exists c, x', y', r'.
  split; [assumption |].
  split; [now rewrite Hx |]. split; [now rewrite Hy |].
  split; [assumption |]. now rewrite Hl.
Qed.

Lemma is_morphism_compose_witness :
  is_morphism Z4 Z2 (fun x => y <- Ok (x mod 2)%Z ;; Ok y) = Ok true.
Proof.
  apply (@is_morphism_compose Z Z Z _ _ Z4 Z2 Z2
           (fun x => Ok (x mod 2)%Z) (fun x => Ok x)).
  - reflexivity.
  - reflexivity.
  - intros a u Ia E. inversion E; subst u. simpl in Ia.
    destruct Ia as [<- | [<- | [<- | [<- | []]]]]; simpl; auto.
Defined.

Section MorphismsOfGroups.
Context {T U : Type} {EqT : PyEq T} {EqU : PyEq U}.
Variables (els : list T) (f : T -> T -> result T) (e : T) (G : Group T).
Variables (els' : list U) (f' : U -> U -> result U) (e' : U) (G' : Group U).
Hypothesis Hg : is_group els f e.
Hypothesis HG : Group_init els f = Ok G.
Hypothesis Hg' : is_group els' f' e'.
Hypothesis HG' : Group_init els' f' = Ok G'.
Variables (phi : T -> result U) (p : T -> U).
Hypothesis Hphi : forall a, In a els -> phi a = Ok (p a) /\ In (p a) els'.

Lemma is_morphism_group_iff :
  is_morphism G G' phi = Ok true <->
  forall a b, In a els -> In b els -> p (op f a b) = op f' (p a) (p b).
Proof.
  destruct (Group_init_fields _ _ HG) as [Hel Hfn].
  destruct (Group_init_fields _ _ HG') as [Hel' Hfn'].
  rewrite is_morphism_true. unfold operation. rewrite Hel, Hfn, Hfn'.
  split.
  - intros Hall a b Ia Ib.
    destruct (Hall a b Ia Ib) as (c & x & y & r & Hc & Hx & Hy & Hr & Hl).
    destruct (Hphi a Ia) as [Pa Ipa]. destruct (Hphi b Ib) as [Pb Ipb].
    rewrite (op_ok Hg a b Ia Ib) in Hc.
    assert (x = p a) by congruence. assert (y = p b) by congruence. subst x y.
    rewrite (op_ok Hg' _ _ Ipa Ipb) in Hr.
    inversion Hc; subst c. inversion Hr; subst r.
    rewrite (proj1 (Hphi _ (op_in Hg a b Ia Ib))) in Hl. congruence.
  - intros Hall a b Ia Ib.
    destruct (Hphi a Ia) as [Pa Ipa]. destruct (Hphi b Ib) as [Pb Ipb].
    exists (op f a b), (p a), (p b), (op f' (p a) (p b)).
    split; [now apply (op_ok Hg) |]. split; [assumption |].
    split; [assumption |]. split; [now apply (op_ok Hg') |].
    rewrite (proj1 (Hphi _ (op_in Hg a b Ia Ib))). f_equal. now apply Hall.
Qed.

Lemma morphism_identity :
  (forall a b, In a els -> In b els -> p (op f a b) = op f' (p a) (p b)) ->
  p e = e'.
Proof.
  intros Hm. pose proof (grp_id_in Hg) as Ie.
  destruct (Hphi e Ie) as [_ Ipe].
  apply (cancel_l Hg' (p e)); [assumption | assumption | apply (grp_id_in Hg') |].
  rewrite <- (Hm e e Ie Ie), (op_id_l Hg e Ie).
  now rewrite (op_id_r Hg' _ Ipe).
Qed.

Lemma morphism_inverse (a : T) :
  (forall a b, In a els -> In b els -> p (op f a b) = op f' (p a) (p b)) ->
  In a els -> p (inv els f e a) = inv els' f' e' (p a).
Proof.
  intros Hm Ia. pose proof (inv_in Hg a Ia) as Iia.
  destruct (Hphi a Ia) as [_ Ipa]. destruct (Hphi _ Iia) as [_ Ipia].
  apply (inv_unique Hg' _ _ Ipa Ipia).
  rewrite <- (Hm a _ Ia Iia), (inv_r Hg a Ia). now apply morphism_identity.
Qed.
End MorphismsOfGroups.

(** X14: between two groups, for a mapping that returns and sends elements
    to elements of the target, [is_morphism] returns true exactly when the
    mapping commutes with the two operations on every pair; such a mapping
    carries the cached identity to the cached identity and the cached inverse
    of each element to the cached inverse of its image. *)
Theorem is_morphism_of_groups {T U : Type} {EqT : PyEq T} {EqU : PyEq U}
    (els : list T) (f : T -> T -> result T) (e : T) (G : Group T)
    (els' : list U) (f' : U -> U -> result U) (e' : U) (G' : Group U)
    (phi : T -> result U) (p : T -> U) :
  is_group els f e -> Group_init els f = Ok G ->
  is_group els' f' e' -> Group_init els' f' = Ok G' ->
  (forall a, In a els -> phi a = Ok (p a) /\ In (p a) els') ->
  (is_morphism G G' phi = Ok true <->
   forall a b c, In a els -> In b els -> operation G a b = Ok c ->
     operation G' (p a) (p b) = Ok (p c)) /\
  (is_morphism G G' phi = Ok true ->
   (forall i, identity G = Some i -> identity G' = Some (p i)) /\
   (forall a b, dict_get (inverses G) a = Some (Some b) ->
      dict_get (inverses G') (p a) = Some (Some (p b)))).
Proof.
  intros Hg HG Hg' HG' Hphi.
  destruct (Group_init_fields _ _ HG) as [Hel Hfn].
  destruct (Group_init_fields _ _ HG') as [Hel' Hfn'].
  pose proof (is_morphism_group_iff Hg HG Hg' HG' phi p Hphi) as Hiff.
  split.
  - rewrite Hiff. unfold operation. rewrite Hfn, Hfn'. split.
    + intros Hm a b c Ia Ib Hc. rewrite (op_ok Hg a b Ia Ib) in Hc.
      inversion Hc; subst c.
      rewrite (op_ok Hg' _ _ (proj2 (Hphi a Ia)) (proj2 (Hphi b Ib))).
      f_equal. symmetry. now apply Hm.
    + intros Hm a b Ia Ib.
      pose proof (Hm a b _ Ia Ib (op_ok Hg a b Ia Ib)) as E.
      rewrite (op_ok Hg' _ _ (proj2 (Hphi a Ia)) (proj2 (Hphi b Ib))) in E.
      now inversion E.
  - intros Hm0. pose proof (proj1 Hiff Hm0) as Hm. split.
    + intros i Hi. rewrite (Group_init_group_identity Hg HG) in Hi.
      inversion Hi; subst i.
      rewrite (Group_init_group_identity Hg' HG'). f_equal. symmetry.
      now apply (morphism_identity Hg Hg' phi p Hphi).
    + intros a b Hd.
      assert (Ia : In a els).
      { destruct (in_dec py_eq_dec a els) as [Ia | Na]; [assumption |].
        rewrite (proj2 (Group_init_inverses _ _ HG a) Na) in Hd. discriminate. }
      rewrite (Group_init_group_inverses Hg a HG Ia) in Hd.
      inversion Hd; subst b.
      rewrite (Group_init_group_inverses Hg' _ HG' (proj2 (Hphi a Ia))).
      do 2 f_equal. symmetry.
      now apply (morphism_inverse Hg Hg' phi p Hphi).
Qed.

Lemma Z2_is_group : is_group [0; 1]%Z (add_mod 2) 0%Z.
Proof.
  apply check_group_sound. reflexivity.
Qed.

Lemma is_morphism_of_groups_witness :
  (is_morphism Z4 Z2 (fun x => Ok (x mod 2)%Z) = Ok true <->
   forall a b c, In a [0; 1; 2; 3]%Z -> In b [0; 1; 2; 3]%Z ->
     operation Z4 a b = Ok c ->
     operation Z2 (a mod 2)%Z (b mod 2)%Z = Ok (c mod 2)%Z) /\
  (is_morphism Z4 Z2 (fun x => Ok (x mod 2)%Z) = Ok true ->
   (forall i, identity Z4 = Some i -> identity Z2 = Some (i mod 2)%Z) /\
   (forall a b, dict_get (inverses Z4) a = Some (Some b) ->
      dict_get (inverses Z2) (a mod 2)%Z = Some (Some (b mod 2)%Z))).
Proof.
  apply (@is_morphism_of_groups Z Z _ _ [0; 1; 2; 3]%Z (add_mod 4) 0%Z Z4
           [0; 1]%Z (add_mod 2) 0%Z Z2 (fun x => Ok (x mod 2)%Z)
           (fun x => (x mod 2)%Z)).
  - exact Z4_is_group.
  - reflexivity.
  - exact Z2_is_group.
  - reflexivity.
  - intros a Ia. split; [reflexivity |].
    simpl in Ia. destruct Ia as [<- | [<- | [<- | [<- | []]]]]; simpl; auto.
Defined.

(** ** Orders of elements *)

Lemma least_true (pb : nat -> bool) (d : nat) :
  pb d = true ->
  exists k, k <= d /\ pb k = true /\ forall j, j < k -> pb j = false.
Proof.
  induction d as [d IH] using lt_wf_ind. intros Hd.
  destruct (existsb pb (seq 0 d)) eqn:Ex.
  - apply existsb_exists in Ex. destruct Ex as (m & Hm & Pm).
    apply in_seq in Hm. destruct (IH m) as (k & Hk & Pk & Hleast); [lia | assumption |].
    exists k. split; [lia | auto].
  - exists d. split; [lia |]. split; [assumption |].
    intros j Hj. destruct (pb j) eqn:Pj; [| reflexivity].
    rewrite <- Ex. symmetry. apply existsb_exists. exists j.
    split; [apply in_seq; lia | assumption].
Qed.

Lemma repeated_value {A : Type} (dec : forall x y : A, {x = y} + {x <> y})
    (g : nat -> A) (m : nat) :
  (exists i j, i < j < m /\ g i = g j) \/ NoDup (map g (seq 0 m)).
Proof.
  induction m as [| m IH]; [right; constructor |].
  destruct IH as [(i & j & Hij & E) | Hnd].
  - left. exists i, j. split; [lia | assumption].
  - rewrite seq_S, map_app. simpl.
    destruct (in_dec dec (g m) (map g (seq 0 m))) as [Hin | Hn].
    + left. apply in_map_iff in Hin. destruct Hin as (i & E & Hi).
      apply in_seq in Hi. exists i, m. split; [lia | assumption].
    + right. apply NoDup_app; [assumption | repeat constructor; simpl; tauto |].
      intros x Hx [<- | []]. contradiction.
Qed.

Section FiniteOrder.
Context {T : Type} `{PyEq T}.
Variables (els : list T) (f : T -> T -> result T) (e : T) (G : Group T).
Hypothesis Hg : is_group els f e.
Hypothesis HG : Group_init els f = Ok G.
Variable a : T.
Hypothesis Ha : In a els.

Lemma npow_add (i d : nat) :
  npow f a (i + S d) = op f (npow f a i) (npow f a d).
Proof.
  induction d as [| d IH].
  - rewrite Nat.add_1_r. reflexivity.
  - replace (i + S (S d)) with (S (i + S d)) by lia.
    cbn [npow]. rewrite IH.
    apply (op_assoc Hg); [apply (npow_in Hg a Ha) .. | assumption].
Qed.

Lemma some_power_is_identity :
  exists d, d < length els /\ npow f a d = e.
Proof.
  destruct (repeated_value py_eq_dec (npow f a) (S (length els)))
    as [(i & j & Hij & E) | Hnd].
  - exists (j - i - 1). split; [lia |].
    replace j with (i + S (j - i - 1)) in E by lia.
    rewrite npow_add in E.
    apply (cancel_l Hg (npow f a i));
      [apply (npow_in Hg a Ha) .. | apply (e_in Hg) |].
    rewrite (op_id_r Hg) by apply (npow_in Hg a Ha). now symmetry.
  - exfalso. apply NoDup_incl_length with (l' := els) in Hnd.
    + rewrite length_map, length_seq in Hnd. lia.
    + intros x Hx. apply in_map_iff in Hx. destruct Hx as (k & <- & _).
      apply (npow_in Hg a Ha).
Qed.

Lemma order_exists :
  exists k, k < length els /\ npow f a k = e /\
            forall j, j < k -> npow f a j <> e.
Proof.
  destruct some_power_is_identity as (d & Hd & Ed).
  destruct (least_true (fun k => eqb (npow f a k) e) d) as (k & Hk & Pk & Hleast).
  { now apply eqb_true. }
  exists k. split; [lia |]. split; [now apply eqb_true |].
  intros j Hj. apply eqb_false. now apply Hleast.
Qed.

Lemma order_on_group :
  exists n, 1 <= n <= length els /\
    (forall fuel, n <= fuel -> order fuel G a = Some (Ok (Z.of_nat n))) /\
    npow f a (n - 1) = e /\
    forall j, j < n - 1 -> npow f a j <> e.
Proof.
  destruct order_exists as (k & Hk & Ek & Hleast).
  exists (S k). split; [lia |]. replace (S k - 1) with k by lia.
  split; [| split; assumption].
  intros fuel Hfuel. unfold order.
  eapply order_loop_more; [| exact Hfuel].
  exact (order_returns Hg HG a Ha Ek Hleast).
Qed.
End FiniteOrder.

(** X15: for every element [a] of a group, [order(a)] stops and returns an
    [n] between 1 and the number of elements: the least [n] for which the
    product of [n] factors [a] is the identity. *)
Theorem order_terminates {T : Type} `{PyEq T} (els : list T)
    (f : T -> T -> result T) (e : T) (G : Group T) (a : T) :
  is_group els f e ->
  Group_init els f = Ok G ->
  In a els ->
  exists n, (1 <= n <= length els)%nat /\
    (forall fuel, (n <= fuel)%nat -> order fuel G a = Some (Ok (Z.of_nat n))) /\
    npow f a (n - 1) = e /\
    (forall j, (j < n - 1)%nat -> npow f a j <> e).
Proof.
  intros Hg HG Ha. exact (order_on_group Hg HG a Ha).
Qed.

Lemma order_terminates_witness :
  exists n, (1 <= n <= length [0; 1; 2; 3; 4; 5]%Z)%nat /\
    (forall fuel, (n <= fuel)%nat -> order fuel S3 1%Z = Some (Ok (Z.of_nat n))) /\
    npow S3_op 1%Z (n - 1) = 0%Z /\
    (forall j, (j < n - 1)%nat -> npow S3_op 1%Z j <> 0%Z).
Proof.
  apply (@order_terminates Z _ [0; 1; 2; 3; 4; 5]%Z S3_op 0%Z S3 1%Z).
  - exact S3_is_group.
  - exact S3_constructed.
  - simpl. tauto.
Defined.

(** X16: on a group, with fuel at least the number of elements, [orders()]
    returns one pair per element, in collection order, each holding the
    value [order] returns for that element, which lies between 1 and the
    number of elements. *)
Theorem orders_on_group {T : Type} `{PyEq T} (els : list T)
    (f : T -> T -> result T) (e : T) (G : Group T) (fuel : nat) :
  is_group els f e ->
  Group_init els f = Ok G ->
  (length els <= fuel)%nat ->
  exists l, orders fuel G = Some (Ok l) /\
    map fst l = els /\
    forall a n, In (a, n) l ->
      order fuel G a = Some (Ok n) /\ (1 <= n <= Z.of_nat (length els))%Z.
Proof.
  intros Hg HG Hfuel. destruct (Group_init_fields _ _ HG) as [Hel _].
  unfold orders. rewrite Hel.
  assert (Hgen : forall l0, incl l0 els ->
            exists l, orders_loop fuel G l0 = Some (Ok l) /\ map fst l = l0 /\
              forall a n, In (a, n) l ->
                order fuel G a = Some (Ok n) /\
                (1 <= n <= Z.of_nat (length els))%Z).
  { induction l0 as [| a l0 IH]; intros Hincl.
    - exists []. split; [reflexivity |]. split; [reflexivity |].
      intros a' n' [].
    - destruct IH as (l & Hl & Hmap & Hall).
      { intros x Hx. apply Hincl. now right. }
      destruct (order_on_group Hg HG a (Hincl a (or_introl eq_refl)))
        as (n & Hn & Hord & _).
      pose proof (Hord fuel ltac:(lia)) as Ho.
      exists ((a, Z.of_nat n) :: l). simpl. rewrite Ho, Hl.
      split; [reflexivity |]. split; [now rewrite Hmap |].
      intros a' n' [E | Hin]; [| now apply Hall].
      inversion E; subst a' n'. split; [assumption | lia]. }
  apply Hgen. intros x Hx. exact Hx.
Qed.

Lemma orders_on_group_witness :
  exists l, orders 6 S3 = Some (Ok l) /\
    map fst l = [0; 1; 2; 3; 4; 5]%Z /\
    forall a n, In (a, n) l ->
      order 6 S3 a = Some (Ok n) /\
      (1 <= n <= Z.of_nat (length [0; 1; 2; 3; 4; 5]%Z))%Z.
Proof.
  apply (@orders_on_group Z _ [0; 1; 2; 3; 4; 5]%Z S3_op 0%Z S3 6).
  - exact S3_is_group.
  - exact S3_constructed.
  - simpl. lia.
Defined.

(** ** The quotient is a group *)

Section QuotientGroup.
Context {T : Type} `{PyEq T} `{PyOrd T}.
Hypothesis Hord : StrictTotalOrder py_lt.
Variables (els : list T) (f : T -> T -> result T) (e : T) (G : Group T).
Hypothesis Hg : is_group els f e.
Hypothesis HG : Group_init els f = Ok G.
Variable S : list T.
Hypothesis Hincl : incl S els.
Hypothesis He : In e S.
Hypothesis Hdiv : forall a b, In a S -> In b S -> In (op f a (inv els f e b)) S.
Hypothesis Hnorm : forall g h, In g els -> In h S ->
  In (op f g (op f h (inv els f e g))) S.
Variable N : Group T.
Hypothesis HN : elements N = S.

Local Notation "a * b" := (op f a b).
Local Notation "a ^-1" := (inv els f e a) (at level 1, format "a ^-1").
Local Notation "'coset'" := (lcoset f S).
Local Notation "'rp'" := (rep els f S).
Local Notation "'GN'" := (GN_of els f S).
Local Notation "'R'" := (sorted (dict_values (GN_of els f S))).
Local Notation "'fQ'" := (factorize_fn G N (GN_of els f S)).
Local Ltac mem := group_mem Hg Hincl.

Lemma same_coset (a b : T) :
  In a els -> In b els -> In a (coset b) -> coset a = coset b.
Proof.
  intros Ia Ib Hin.
  apply (coset_meet Hord Hg Hincl He Hdiv a b a); try assumption.
  now apply (coset_self Hg S He).
Qed.

Lemma coset_congr_l (z a a' : T) :
  In z els -> In a els -> In a' els -> coset a = coset a' ->
  coset (z * a) = coset (z * a').
Proof.
  intros Iz Ia Ia' E.
  assert (Hin : In a (coset a')).
  { rewrite <- E. now apply (coset_self Hg S He). }
  apply coset_In in Hin. destruct Hin as (n & In_ & ->).
  rewrite <- (op_assoc Hg z a' n) by mem.
  apply (coset_absorb_right Hord Hg Hincl He Hdiv); [mem | assumption].
Qed.

Lemma coset_congr_r (z a a' : T) :
  In z els -> In a els -> In a' els -> coset a = coset a' ->
  coset (a * z) = coset (a' * z).
Proof.
  intros Iz Ia Ia' E.
  assert (Hin : In a (coset a')).
  { rewrite <- E. now apply (coset_self Hg S He). }
  apply coset_In in Hin. destruct Hin as (n & In_ & ->).
  apply same_coset; [mem | mem |].
  apply coset_In. exists (z^-1 * (n * z)). split.
  - pose proof (Hnorm z^-1 n) as Hc.
    rewrite (inv_inv Hg z Iz) in Hc. apply Hc; [mem | assumption].
  - rewrite (op_assoc Hg a' z (z^-1 * (n * z))) by mem.
    rewrite <- (op_assoc Hg z z^-1 (n * z)) by mem.
    rewrite (inv_r Hg z Iz), (op_id_l Hg (n * z)) by mem.
    now rewrite (op_assoc Hg a' n z) by mem.
Qed.

Lemma rep_is_representative (v : T) : In v els -> In (rp v) R.
Proof.
  intros Iv. apply representatives_In. exists (coset v). now apply GN_rep.
Qed.

Lemma representative_in (r : T) : In r R -> In r els /\ rp r = r.
Proof.
  intros Hr. apply representatives_In in Hr. destruct Hr as (c & Hc).
  apply GN_value in Hc. tauto.
Qed.

Lemma fQ_value (x y : T) : In x els -> In y els -> fQ x y = Ok (rp (x * y)).
Proof.
  intros Ix Iy. now apply (factorize_fn_group Hg HG Hincl).
Qed.

Lemma op_fQ (x y : T) : In x els -> In y els -> op fQ x y = rp (x * y).
Proof.
  intros Ix Iy. unfold op. now rewrite fQ_value.
Qed.

Lemma rep_congr (a b : T) :
  In a els -> In b els -> rp (rp a * rp b) = rp (a * b).
Proof.
  intros Ia Ib.
  pose proof (rep_in els f S a Ia) as Ira.
  pose proof (rep_in els f S b Ib) as Irb.
  apply rep_same; [mem | mem |].
  rewrite (coset_congr_r (rp b) (rp a) a Irb Ira Ia (rep_coset els f S a Ia)).
  apply coset_congr_l; try assumption. now apply rep_coset.
Qed.

Lemma quotient_is_group : is_group R fQ (rp e).
Proof.
  pose proof (e_in Hg) as Ie.
  constructor.
  - intros x y Hx Hy.
    destruct (representative_in x Hx) as [Ix _].
    destruct (representative_in y Hy) as [Iy _].
    exists (rp (x * y)). split; [now apply fQ_value |].
    apply rep_is_representative. mem.
  - intros x y z Hx Hy Hz.
    destruct (representative_in x Hx) as [Ix Rx].
    destruct (representative_in y Hy) as [Iy Ry].
    destruct (representative_in z Hz) as [Iz Rz].
    rewrite (op_fQ x y Ix Iy), (op_fQ y z Iy Iz).
    rewrite op_fQ by (try apply rep_in; mem).
    rewrite op_fQ by (try apply rep_in; mem).
    transitivity (rp (rp (x * y) * rp z)); [now rewrite Rz |].
    rewrite rep_congr by mem.
    transitivity (rp (rp x * rp (y * z))); [| now rewrite Rx].
    rewrite rep_congr by mem.
    now rewrite (op_assoc Hg x y z Ix Iy Iz).
  - now apply rep_is_representative.
  - intros x Hx. destruct (representative_in x Hx) as [Ix Rx].
    pose proof (rep_in els f S e Ie) as Ire.
    rewrite !fQ_value by assumption. split; f_equal.
    + transitivity (rp (rp e * rp x)); [now rewrite Rx |].
      rewrite rep_congr by assumption. now rewrite (op_id_l Hg x Ix).
    + transitivity (rp (rp x * rp e)); [now rewrite Rx |].
      rewrite rep_congr by assumption. now rewrite (op_id_r Hg x Ix).
  - intros x Hx. destruct (representative_in x Hx) as [Ix Rx].
    exists (rp x^-1). split; [apply rep_is_representative; mem |].
    rewrite fQ_value by (try apply rep_in; mem). f_equal.
    transitivity (rp (rp x * rp x^-1)); [now rewrite Rx |].
    rewrite rep_congr by mem. now rewrite (inv_r Hg x Ix).
Qed.

Lemma projection_value (x : T) :
  In x els ->
  (c <- left_coset G (elements N) x ;; dict_lookup GN c) = Ok (rp x).
Proof.
  intros Ix. rewrite HN, (left_coset_group Hg HG Hincl x Ix). simpl.
  unfold dict_lookup. now rewrite GN_rep.
Qed.

Lemma representatives_count :
  length R = length (set_of_list (map coset els)).
Proof.
  rewrite sorted_length. unfold dict_values.
  rewrite <- (length_map coset (map snd GN)), map_map.
  rewrite (map_ext_in _ fst).
  2:{ intros [c r] Hin. simpl.
      apply (In_dict_get _ _ _ (GN_keys els f S)) in Hin.
      now apply GN_value in Hin. }
  apply Permutation_length, NoDup_Permutation;
    [apply GN_keys | apply set_of_list_NoDup |].
  intros c. rewrite set_of_list_In. split.
  - intros Hc. apply in_map_iff. destruct (dict_get GN c) as [r |] eqn:D.
    + apply GN_value in D. exists r. tauto.
    + apply dict_get_None in D. contradiction.
  - intros Hc. apply in_map_iff in Hc. destruct Hc as (g & <- & Ig).
    pose proof (GN_rep els f S g Ig) as D.
    destruct (in_dec py_eq_dec (coset g) (map fst GN)) as [Hin | Hn];
      [assumption |].
    apply dict_get_None in Hn. congruence.
Qed.
End QuotientGroup.

(** X17: for a group [G] and a normal divisor [N], the Group that
    [factorize(N)] returns is a group; its identity is the first element of
    [G] that lies in [N]'s coset; sending an element to the value [GN] holds
    for its left coset is accepted by [is_morphism] from [G] to the quotient;
    and when neither collection has duplicates the quotient has
    [|G| / |N|] elements. *)
Theorem factorize_is_group {T : Type} `{PyEq T} `{PyOrd T} (els : list T)
    (f : T -> T -> result T) (e : T) (G N : Group T) :
  StrictTotalOrder py_lt ->
  is_group els f e ->
  Group_init els f = Ok G ->
  is_normal_divisor G (elements N) = Ok true ->
  exists GN Q i,
    factorize_GN G N = Ok GN /\ factorize G N = Ok Q /\
    identity Q = Some i /\
    first_such (fun g => In g (elements N)) els i /\
    is_group (elements Q) (fn Q) i /\
    is_morphism G Q (fun x => c <- left_coset G (elements N) x ;;
                              dict_lookup GN c) = Ok true /\
    (NoDup els -> NoDup (elements N) ->
     length els = (length (elements Q) * length (elements N))%nat).
Proof.
  intros Hord Hg HG HN.
  pose proof (is_normal_divisor_closed Hg HG _ HN) as Hnorm.
  pose proof (is_normal_divisor_subgroup _ _ HN) as Hs.
  destruct (is_subgroup_closed Hg HG _ Hs) as (Hincl & He & Hdiv).
  destruct (Group_init_fields _ _ HG) as [Hel Hfn].
  set (S := elements N) in *.
  pose proof (factorize_GN_group Hg HG Hincl N eq_refl) as HGN.
  destruct (quotient_defined Hord Hg HG Hincl He Hdiv Hnorm N eq_refl) as [Q HQ].
  destruct (Group_init_fields _ _ HQ) as [HelQ HfnQ].
  pose proof (quotient_is_group Hord Hg HG Hincl He Hdiv Hnorm N eq_refl) as HgQ.
  pose proof (e_in Hg) as Ie.
  exists (GN_of els f S), Q, (rep els f S e).
  split; [exact HGN |].
  split; [unfold factorize; fold S; rewrite HGN; exact HQ |].
  split; [exact (Group_init_group_identity HgQ HQ) |].
  split.
  { pose proof (rep_found els f S e Ie) as F.
    apply find_first_such in F. destruct F as (l1 & l2 & E & Pr & Hl1).
    exists l1, l2. split; [exact E |].
    assert (Hmem : forall g, In g els ->
              (In g S <-> eqb (lcoset f S g) (lcoset f S e) = true)).
    { intros g Ig. rewrite eqb_true. split.
      - intros Hg'. apply (same_coset Hord Hg Hincl He Hdiv); try assumption.
        apply coset_In. exists g. split; [assumption |].
        symmetry. now apply (op_id_l Hg).
      - intros E'. pose proof (coset_self Hg S He g Ig) as Hin.
        rewrite E' in Hin. apply coset_In in Hin.
        destruct Hin as (h & Ih & ->). now rewrite (op_id_l Hg) by auto. }
    split.
    - apply Hmem; [now apply rep_in | exact Pr].
    - intros x Hx Hin. assert (Ix : In x els).
      { rewrite E. apply in_or_app. now left. }
      apply (Hmem x Ix) in Hin. rewrite (Hl1 x Hx) in Hin. discriminate. }
  split; [now rewrite HelQ, HfnQ |].
  split.
  { apply is_morphism_true. rewrite Hel. intros a b Ia Ib.
    pose proof (op_in Hg a b Ia Ib) as Iab.
    exists (op f a b), (rep els f S a), (rep els f S b),
           (rep els f S (op f a b)).
    unfold operation. rewrite Hfn, HfnQ.
    split; [now apply (op_ok Hg) |].
    split; [now apply (projection_value Hg HG Hincl N eq_refl) |].
    split; [now apply (projection_value Hg HG Hincl N eq_refl) |].
    split; [| now apply (projection_value Hg HG Hincl N eq_refl)].
    rewrite (fQ_value Hg HG Hincl N eq_refl) by now apply rep_in.
    f_equal. now apply (rep_congr Hord Hg Hincl He Hdiv Hnorm). }
  intros Hels HS. rewrite HelQ.
  rewrite (representatives_count els f S).
  apply partitions_count; [| assumption | apply set_of_list_NoDup].
  now apply (left_family_partitions Hord Hg HS Hincl He Hdiv).
Qed.

Lemma factorize_is_group_witness :
  exists GN Q i,
    factorize_GN Z4 Z4_even = Ok GN /\ factorize Z4 Z4_even = Ok Q /\
    identity Q = Some i /\
    first_such (fun g => In g (elements Z4_even)) [0; 1; 2; 3]%Z i /\
    is_group (elements Q) (fn Q) i /\
    is_morphism Z4 Q (fun x => c <- left_coset Z4 (elements Z4_even) x ;;
                               dict_lookup GN c) = Ok true /\
    (NoDup [0; 1; 2; 3]%Z -> NoDup (elements Z4_even) ->
     length [0; 1; 2; 3]%Z = (length (elements Q) * length (elements Z4_even))%nat).
Proof.
  apply (@factorize_is_group Z _ _ [0; 1; 2; 3]%Z (add_mod 4) 0%Z Z4 Z4_even).
  - exact Z_strict_total_order.
  - exact Z4_is_group.
  - reflexivity.
  - reflexivity.
Defined.

(** ** powerOf on a group *)

Section PowerOnGroup.
Context {T : Type} `{PyEq T}.
Variables (els : list T) (f : T -> T -> result T) (e : T) (G : Group T).
Hypothesis Hg : is_group els f e.
Hypothesis HG : Group_init els f = Ok G.
Variable a : T.
Hypothesis Ha : In a els.

Local Notation "a * b" := (op f a b).
Local Notation "a ^-1" := (inv els f e a) (at level 1, format "a ^-1").

Lemma powerOf_negative_body (b : T) :
  In b els ->
  (c <- inverse G a ;; operation_v G b c) = Ok (b * a^-1).
Proof.
  intros Ib. destruct (Group_init_fields _ _ HG) as [_ Hfn].
  rewrite (inverse_group Hg HG a Ha). simpl. unfold operation. rewrite Hfn.
  apply (op_ok Hg); [assumption | now apply (inv_in Hg)].
Qed.

Lemma powerOf_minus_one_group : powerOf G a (-1) = Ok e.
Proof.
  rewrite powerOf_minus_one, (powerOf_negative_body a Ha).
  f_equal. now apply (inv_r Hg).
Qed.

Lemma powerOf_below (m : nat) :
  powerOf G a (- Z.of_nat (S (S m))) = Ok (npow f a^-1 m).
Proof.
  pose proof (inv_in Hg a Ha) as Iia. pose proof (e_in Hg) as Ie.
  unfold powerOf.
  replace (Z.abs_nat (- Z.of_nat (S (S m)))) with (S (S m)) by lia.
  change (- Z.of_nat (S (S m)) =? 0)%Z with false.
  change (0 <? - Z.of_nat (S (S m)))%Z with false.
  cbn [for_range].
  rewrite (powerOf_negative_body a Ha). cbn [bind].
  rewrite (inv_r Hg a Ha).
  rewrite (powerOf_negative_body e Ie). cbn [bind].
  rewrite (op_id_l Hg _ Iia).
  change a^-1 with (npow f a^-1 0) at 2.
  rewrite (for_range_npow Hg a^-1 Iia _ m 0); [reflexivity |].
  intros b Ib. now apply powerOf_negative_body.
Qed.
End PowerOnGroup.

(** X18: on an element [a] of a group [powerOf] never raises and returns an
    element of the group: the identity for the exponents 0 and -1, the
    product of [n + 1] factors [a] for an exponent [n >= 1], and the product
    of [|n| - 1] factors [inverse(a)] for an exponent [n <= -2]. *)
Theorem powerOf_on_group {T : Type} `{PyEq T} (els : list T)
    (f : T -> T -> result T) (e : T) (G : Group T) (a : T) :
  is_group els f e ->
  Group_init els f = Ok G ->
  In a els ->
  powerOf G a 0 = Ok e /\
  powerOf G a (-1) = Ok e /\
  (forall n, (1 <= n)%Z -> powerOf G a n = Ok (npow f a (Z.to_nat n))) /\
  (forall n b, (n <= -2)%Z -> inverse G a = Ok (Some b) ->
     powerOf G a n = Ok (npow f b (Z.to_nat (- n - 2)))) /\
  (forall n, exists x, powerOf G a n = Ok x /\ In x els).
Proof.
  intros Hg HG Ha.
  pose proof (Group_init_group_identity Hg HG) as He.
  pose proof (inv_in Hg a Ha) as Iia.
  assert (H0 : powerOf G a 0 = Ok e).
  { rewrite powerOf_zero. unfold get_identity. now rewrite He. }
  assert (Hpos : forall n, (1 <= n)%Z ->
            powerOf G a n = Ok (npow f a (Z.to_nat n))).
  { intros n Hn. destruct (Z.to_nat n) as [| k] eqn:E; [lia |].
    replace n with (Z.of_nat (S k)) by lia.
    now apply (powerOf_positive Hg HG). }
  assert (Hneg : forall n, (n <= -2)%Z ->
            powerOf G a n = Ok (npow f (inv els f e a) (Z.to_nat (- n - 2)))).
  { intros n Hn. replace n with (- Z.of_nat (S (S (Z.to_nat (- n - 2)))))%Z at 1 by lia.
    now apply (powerOf_below Hg HG). }
  split; [assumption |].
  split; [now apply (powerOf_minus_one_group Hg HG) |].
  split; [assumption |].
  split.
  { intros n b Hn Hb. rewrite (inverse_group Hg HG a Ha) in Hb.
    inversion Hb; subst b. now apply Hneg. }
  intros n.
  destruct (Z_lt_le_dec n (-1)) as [Hlt | Hge].
  - eexists. split; [apply Hneg; lia | now apply (npow_in Hg)].
  - destruct (Z.eq_dec n (-1)) as [-> | Hn1].
    + exists e. split; [now apply (powerOf_minus_one_group Hg HG) | apply (e_in Hg)].
    + destruct (Z.eq_dec n 0) as [-> | Hn0].
      * exists e. split; [assumption | apply (e_in Hg)].
      * eexists. split; [apply Hpos; lia | now apply (npow_in Hg)].
Qed.

Lemma powerOf_on_group_witness :
  powerOf S3 1%Z 0 = Ok 0%Z /\
  powerOf S3 1%Z (-1) = Ok 0%Z /\
  (forall n, (1 <= n)%Z -> powerOf S3 1%Z n = Ok (npow S3_op 1%Z (Z.to_nat n))) /\
  (forall n b, (n <= -2)%Z -> inverse S3 1%Z = Ok (Some b) ->
     powerOf S3 1%Z n = Ok (npow S3_op b (Z.to_nat (- n - 2)))) /\
  (forall n, exists x, powerOf S3 1%Z n = Ok x /\ In x [0; 1; 2; 3; 4; 5]%Z).
Proof.
  apply (@powerOf_on_group Z _ [0; 1; 2; 3; 4; 5]%Z S3_op 0%Z S3 1%Z).
  - exact S3_is_group.
  - exact S3_constructed.
  - simpl. tauto.
Defined.

(** ** The generator search *)

Lemma py_range_In (n p : Z) : In p (py_range n) <-> (0 <= p < n)%Z.
Proof.
  unfold py_range. rewrite in_map_iff. split.
  - intros (k & <- & Hk). apply in_seq in Hk. lia.
  - intros Hp. exists (Z.to_nat p). split; [lia |]. apply in_seq. lia.
Qed.

Lemma tuples_In {A : Type} (l : list A) (n : nat) (t : list A) :
  In t (tuples l n) <-> length t = n /\ forall x, In x t -> In x l.
Proof.
  revert t. induction n as [| n IH]; intros t; simpl.
  - split.
    + intros [<- | []]. split; [reflexivity | intros ? []].
    + intros [Hl _]. destruct t; [now left | discriminate].
  - rewrite in_flat_map. split.
    + intros (x & Hx & Ht). apply in_map_iff in Ht.
      destruct Ht as (t' & <- & Ht'). apply IH in Ht'. destruct Ht' as [Hl Hall].
      split; [simpl; now rewrite Hl |].
      intros y [<- | Hy]; auto.
    + intros [Hl Hall]. destruct t as [| x t]; [discriminate |].
      exists x. split; [apply Hall; now left |].
      apply in_map. apply IH. split; [simpl in Hl; lia |].
      intros y Hy. apply Hall. now right.
Qed.

Lemma fold_left_flat_map {A B C : Type} (h : C -> B -> C) (F : A -> list B)
    (l : list A) (s : C) :
  fold_left (fun s g => fold_left h (F g) s) l s = fold_left h (flat_map F l) s.
Proof.
  revert s. induction l as [| g l IH]; intros s; simpl; [reflexivity |].
  now rewrite IH, fold_left_app.
Qed.

Section GeneratorSearch.
Context {T : Type} `{PyEq T}.
Variables (els : list T) (f : T -> T -> result T) (e : T) (G : Group T).
Hypothesis Hg : is_group els f e.
Hypothesis HG : Group_init els f = Ok G.
Hypothesis Hels : NoDup els.
Variable maxPower : Z.

Lemma powerOf_defined (g : T) (n : Z) :
  In g els -> exists x, powerOf G g n = Ok x /\ In x els.
Proof.
  intros Ig.
  pose proof (Group_init_group_identity Hg HG) as He.
  pose proof (inv_in Hg g Ig) as Iig.
  destruct (Z_lt_le_dec n (-1)) as [Hlt | Hge].
  - exists (npow f (inv els f e g) (Z.to_nat (- n - 2))).
    split; [| now apply (npow_in Hg)].
    replace n with (- Z.of_nat (S (S (Z.to_nat (- n - 2)))))%Z at 1 by lia.
    now apply (powerOf_below Hg HG).
  - destruct (Z.eq_dec n (-1)) as [-> | Hn1].
    { exists e. split; [now apply (powerOf_minus_one_group Hg HG) | apply (e_in Hg)]. }
    destruct (Z.eq_dec n 0) as [-> | Hn0].
    { exists e. split; [| apply (e_in Hg)].
      rewrite powerOf_zero. unfold get_identity. now rewrite He. }
    exists (npow f g (Z.to_nat n)). split; [| now apply (npow_in Hg)].
    destruct (Z.to_nat n) as [| k] eqn:E; [lia |].
    replace n with (Z.of_nat (S k)) by lia.
    now apply (powerOf_positive Hg HG).
Qed.

Local Notation "'pw'" :=
  (fun g p => match powerOf G g (p - maxPower) with Ok x => x | Raise _ => g end).
Local Notation "'window'" := (py_range (maxPower * 2)).

Lemma generated_pure (gen : list T) :
  incl gen els ->
  generated G maxPower gen =
  Ok (set_of_list (flat_map (fun g => map (pw g) window) gen)).
Proof.
  intros Hgen. unfold generated, set_of_list.
  rewrite (fold_m_pure _
             (fun s g => fold_left set_add (map (pw g) window) s)).
  - f_equal. apply fold_left_flat_map.
  - intros s g Ig.
    rewrite (fold_m_pure _ (fun s p => set_add s (pw g p))).
    + f_equal. apply (fold_left_map_arg (pw g) set_add).
    + intros s' p _. destruct (powerOf_defined g (p - maxPower) (Hgen g Ig))
        as (x & Hx & _). now rewrite Hx.
Qed.

Lemma generated_members (gen : list T) (x : T) :
  incl gen els ->
  (In x (set_of_list (flat_map (fun g => map (pw g) window) gen)) <->
   exists g p, In g gen /\ (0 <= p < maxPower * 2)%Z /\
               powerOf G g (p - maxPower) = Ok x).
Proof.
  intros Hgen. rewrite set_of_list_In, in_flat_map. split.
  - intros (g & Ig & Hx). apply in_map_iff in Hx. destruct Hx as (p & <- & Hp).
    apply py_range_In in Hp. exists g, p. repeat split; try assumption; try lia.
    destruct (powerOf_defined g (p - maxPower) (Hgen g Ig)) as (y & Hy & _).
    now rewrite Hy.
  - intros (g & p & Ig & Hp & Hx). exists g. split; [assumption |].
    apply in_map_iff. exists p. split; [now rewrite Hx |].
    now apply py_range_In.
Qed.

Lemma generated_within (gen : list T) :
  incl gen els ->
  incl (set_of_list (flat_map (fun g => map (pw g) window) gen)) els.
Proof.
  intros Hgen x Hx. apply (generated_members x Hgen) in Hx.
  destruct Hx as (g & p & Ig & _ & Hx).
  destruct (powerOf_defined g (p - maxPower) (Hgen g Ig)) as (y & Hy & Iy).
  congruence.
Qed.

Lemma generated_test (gen : list T) :
  incl gen els ->
  (Nat.eqb (length (set_of_list (flat_map (fun g => map (pw g) window) gen)))
           (length els) = true <->
   forall x, In x els ->
     exists g p, In g gen /\ (0 <= p < maxPower * 2)%Z /\
                 powerOf G g (p - maxPower) = Ok x).
Proof.
  intros Hgen. rewrite Nat.eqb_eq.
  pose proof (generated_within Hgen) as Hin.
  pose proof (set_of_list_NoDup (flat_map (fun g => map (pw g) window) gen)) as Hnd.
  split.
  - intros Hlen x Ix. apply (generated_members x Hgen).
    refine (NoDup_length_incl Hnd _ Hin x Ix). lia.
  - intros Hcov. apply Nat.le_antisymm.
    + now apply NoDup_incl_length.
    + apply NoDup_incl_length; [assumption |].
      intros x Ix. apply (generated_members x Hgen). now apply Hcov.
Qed.
End GeneratorSearch.

(** X19: on a group with a duplicate-free element collection, iterating
    [generators(maxN, maxPower)] raises nothing, and a tuple is yielded
    exactly when its length is between 1 and [maxN] (the number of elements
    by default), its entries are elements, and every element of the group is
    [powerOf(g, q)] for some entry [g] and some exponent [q] with
    [-maxPower <= q < maxPower]. *)
Theorem generators_on_group {T : Type} `{PyEq T} (els : list T)
    (f : T -> T -> result T) (e : T) (G : Group T)
    (maxN : option Z) (maxPower : Z) :
  is_group els f e ->
  Group_init els f = Ok G ->
  NoDup els ->
  snd (generators G maxN maxPower) = None /\
  forall gen, In gen (fst (generators G maxN maxPower)) <->
    (1 <= Z.of_nat (length gen) <=
       match maxN with None => Z.of_nat (length els) | Some m => m end)%Z /\
    (forall g, In g gen -> In g els) /\
    (forall x, In x els ->
       exists g q, In g gen /\ (- maxPower <= q < maxPower)%Z /\
                   powerOf G g q = Ok x).
Proof.
  intros Hg HG Hels. destruct (Group_init_fields _ _ HG) as [Hel _].
  unfold generators. rewrite Hel.
  set (n := match maxN with None => Z.of_nat (length els) | Some m => m end).
  set (cands := flat_map (fun i => tuples els (Z.to_nat (i + 1))) (py_range n)).
  set (pb := fun gen : list T =>
         Nat.eqb (length (set_of_list (flat_map (fun g => map
            (fun p => match powerOf G g (p - maxPower) with
                      | Ok x => x | Raise _ => g end)
            (py_range (maxPower * 2))) gen))) (length els)).
  assert (Hcand : forall gen, In gen cands <->
            (1 <= Z.of_nat (length gen) <= n)%Z /\ incl gen els).
  { intros gen. unfold cands. rewrite in_flat_map. split.
    - intros (i & Hi & Ht). apply py_range_In in Hi. apply tuples_In in Ht.
      destruct Ht as [Hl Hall]. split; [lia | exact Hall].
    - intros [Hl Hall]. exists (Z.of_nat (length gen) - 1)%Z.
      split; [apply py_range_In; lia |].
      apply tuples_In. split; [lia | exact Hall]. }
  destruct (map_filter_m_pure (fun gen : list T => Ok gen)
              (fun gen => s <- generated G maxPower gen ;;
                          Ok (Nat.eqb (length s) (length els)))
              pb cands) as [Hnone Hall].
  { intros gen Hgen. apply Hcand in Hgen.
    now rewrite (generated_pure Hg HG maxPower (proj2 Hgen)). }
  { intros gen _ _. now exists gen. }
  split; [exact Hnone |].
  assert (Heq : fst (map_filter_m (fun gen : list T => Ok gen)
                  (fun gen => s <- generated G maxPower gen ;;
                              Ok (Nat.eqb (length s) (length els))) cands)
                = filter pb cands).
  { revert Hall. generalize (filter pb cands) as l1.
    generalize (fst (map_filter_m (fun gen : list T => Ok gen)
                  (fun gen => s <- generated G maxPower gen ;;
                              Ok (Nat.eqb (length s) (length els))) cands)) as l2.
    intros l2 l1 Hall. induction Hall as [| x y k1 k2 E Hall' IH]; [reflexivity |].
    congruence. }
  intros gen. rewrite Heq, filter_In, Hcand. split.
  - intros [[Hl Hincl] Hpb]. split; [assumption |]. split; [assumption |].
    intros x Ix.
    destruct (proj1 (generated_test Hg HG Hels maxPower Hincl) Hpb x Ix)
      as (g & p & Ig & Hp & Hx).
    exists g, (p - maxPower)%Z. split; [assumption |]. split; [lia | assumption].
  - intros (Hl & Hincl & Hcov). split; [split; assumption |].
    apply (generated_test Hg HG Hels maxPower Hincl).
    intros x Ix. destruct (Hcov x Ix) as (g & q & Ig & Hq & Hx).
    exists g, (q + maxPower)%Z. split; [assumption |]. split; [lia |].
    now replace (q + maxPower - maxPower)%Z with q by lia.
Qed.

Lemma generators_on_group_witness :
  snd (generators Z4 (Some 1%Z) 2) = None /\
  forall gen, In gen (fst (generators Z4 (Some 1%Z) 2)) <->
    (1 <= Z.of_nat (length gen) <= 1)%Z /\
    (forall g, In g gen -> In g [0; 1; 2; 3]%Z) /\
    (forall x, In x [0; 1; 2; 3]%Z ->
       exists g q, In g gen /\ (- 2 <= q < 2)%Z /\ powerOf Z4 g q = Ok x).
Proof.
  apply (@generators_on_group Z _ [0; 1; 2; 3]%Z (add_mod 4) 0%Z Z4 (Some 1%Z) 2%Z).
  - exact Z4_is_group.
  - reflexivity.
  - repeat constructor; simpl; intuition discriminate.
Defined.

(** ** Loading a group from its operation table *)

Section LoopAgreement.
Context {A : Type}.



End LoopAgreement.

Section FromFileFacts.
Context {T : Type} `{PyEq T}.


Lemma read_rows_blank (lines : list (list T)) (elements : list T)
    (rows : list (T * list T)) :
  In [] lines -> read_rows lines elements rows = IndexError.
Proof.
  revert elements rows. induction lines as [| l lines IH]; intros els rows; [intros [] |].
  intros [-> | Hin]; [reflexivity |].
  simpl. destruct l as [| a l]; [reflexivity |]. now apply IH.
Qed.

Lemma read_rows_table (table : list (T * list T)) (elements : list T)
    (rows : list (T * list T)) :
  read_rows (map (fun r => fst r :: snd r) table) elements rows =
  Loaded (elements ++ map fst table,
          fold_left (fun d r => dict_set d (fst r) (snd r)) table rows).
Proof.
  revert elements rows. induction table as [| [a row] table IH]; intros els rows; simpl.
  - now rewrite app_nil_r.
  - rewrite IH. now rewrite <- app_assoc.
Qed.

Lemma rows_distinct (table rows : list (T * list T)) :
  NoDup (map fst (rows ++ table)) ->
  fold_left (fun d r => dict_set d (fst r) (snd r)) table rows = rows ++ table.
Proof.
  revert rows. induction table as [| [a row] table IH]; intros rows Hnd; simpl.
  - now rewrite app_nil_r.
  - assert (Hfresh : dict_get rows a = None).
    { apply dict_get_None. intros Hin. rewrite map_app in Hnd. simpl in Hnd.
      apply NoDup_remove_2 in Hnd. apply Hnd. apply in_or_app. now left. }
    rewrite dict_set_fresh by exact Hfresh.
    replace (rows ++ (a, row) :: table) with ((rows ++ [(a, row)]) ++ table)
      by now rewrite <- app_assoc.
    apply IH. now rewrite <- app_assoc.
Qed.

Lemma fill_row_short (a : T) (elements row : list T) (i : nat)
    (m : list ((T * T) * T)) :
  i + length row <= length elements ->
  fill_row a elements row i m =
  Loaded (fold_left (fun m kv => dict_set m (fst kv) (snd kv))
            (combine (map (pair a) (skipn i elements)) row) m).
Proof.
  revert i m. induction row as [| c row IH]; intros i m Hlen; simpl.
  - now rewrite combine_nil.
  - simpl in Hlen.
    destruct (nth_error elements i) as [b |] eqn:Eb.
    + rewrite IH by lia.
      assert (Es : skipn i elements = b :: skipn (S i) elements).
      { clear - Eb. revert i Eb. induction elements as [| x l IH]; intros [| i] Eb;
          simpl in *; try discriminate.
        - now inversion Eb.
        - now apply IH. }
      now rewrite Es.
    + apply nth_error_None in Eb. lia.
Qed.

Lemma fill_row_long (a : T) (elements row : list T) (i : nat)
    (m : list ((T * T) * T)) :
  i <= length elements -> length elements < i + length row ->
  fill_row a elements row i m = IndexError.
Proof.
  revert i m. induction row as [| c row IH]; intros i m Hi Hlen; simpl in *; [lia |].
  destruct (nth_error elements i) as [b |] eqn:Eb; [| reflexivity].
  assert (i < length elements) by (apply nth_error_Some; congruence).
  apply IH; lia.
Qed.

Lemma fill_row_loaded (a : T) (elements row : list T) (i : nat)
    (m : list ((T * T) * T)) :
  i + length row <= length elements ->
  exists m', fill_row a elements row i m = Loaded m'.
Proof.
  intros Hlen. rewrite (fill_row_short a elements row i m Hlen). now eexists.
Qed.

Lemma fill_rows_index_error (elements : list T) (rows : list (T * list T))
    (m : list ((T * T) * T)) :
  fill_rows elements rows m = IndexError <->
  exists r, In r rows /\ length elements < length (snd r).
Proof.
  revert m. induction rows as [| [a row] rows IH]; intros m; simpl.
  - split; [discriminate | intros (r & [] & _)].
  - destruct (Nat.le_gt_cases (length row) (length elements)) as [Hle | Hgt].
    + destruct (fill_row_loaded a elements row 0 m Hle) as [m' ->].
      rewrite IH. split.
      * intros (r & Hr & Hl). exists r. split; [now right | assumption].
      * intros (r & [<- | Hr] & Hl); [simpl in Hl; lia |]. now exists r.
    + rewrite (fill_row_long a elements row m (Nat.le_0_l _)) by (simpl; lia).
      split; [| reflexivity]. intros _. exists (a, row). split; [now left | assumption].
Qed.




End FromFileFacts.

(** X20: a file with a line that holds no token (a blank line, also a
    trailing one) makes [from_file] raise [IndexError], whatever the other
    lines are. *)
Theorem from_file_blank_line {T : Type} `{PyEq T} (lines : list (list T)) :
  In [] lines -> from_file lines = IndexError.
Proof.
  intros Hin. unfold from_file. now rewrite (read_rows_blank lines [] [] Hin).
Qed.

Lemma from_file_blank_line_witness :
  from_file (Z2_file ++ [[]]) = IndexError.
Proof.
  apply (@from_file_blank_line string _ (Z2_file ++ [[]])).
  simpl. tauto.
Defined.

(** X21: for lines whose first tokens are pairwise distinct, [from_file]
    raises [IndexError] exactly when some line holds more tokens after its
    first one than the file has lines; otherwise it reaches the constructor
    with the first tokens, in order, as elements. *)
Theorem from_file_ragged {T : Type} `{PyEq T} (table : list (T * list T)) :
  NoDup (map fst table) ->
  (from_file (map (fun r => fst r :: snd r) table) = IndexError <->
   exists r, In r table /\ length table < length (snd r)) /\
  (forall R, from_file (map (fun r => fst r :: snd r) table) = Loaded R ->
     exists fn', R = Group_init (map fst table) fn').
Proof.
  intros Hnd. unfold from_file.
  rewrite read_rows_table. simpl.
  rewrite (rows_distinct table []) by exact Hnd. simpl.
  pose proof (fill_rows_index_error (map fst table) table []) as Hiff.
  rewrite length_map in Hiff.
  destruct (fill_rows (map fst table) table []) as [m |].
  - split.
    + split; [discriminate |]. intros Hex. now apply Hiff in Hex.
    + intros R [= <-]. now eexists.
  - split.
    + split; [intros _; now apply Hiff | reflexivity].
    + intros R HR. discriminate HR.
Qed.

Lemma from_file_ragged_witness :
  (from_file (map (fun r => fst r :: snd r)
                  [("e", ["e"; "a"; "a"]); ("a", ["a"; "e"])]%string) = IndexError <->
   exists r, In r [("e", ["e"; "a"; "a"]); ("a", ["a"; "e"])]%string /\
             length [("e", ["e"; "a"; "a"]); ("a", ["a"; "e"])]%string
             < length (snd r)) /\
  (forall R, from_file (map (fun r => fst r :: snd r)
                  [("e", ["e"; "a"; "a"]); ("a", ["a"; "e"])]%string) = Loaded R ->
     exists fn', R = Group_init (map fst
                  [("e", ["e"; "a"; "a"]); ("a", ["a"; "e"])]%string) fn').
Proof.
  apply (@from_file_ragged string _
           [("e", ["e"; "a"; "a"]); ("a", ["a"; "e"])]%string).
  repeat constructor; simpl; intuition discriminate.
Defined.



(** ** The one action that [is_valid] accepts *)

(** X23: for an actor over a constructed group, [is_valid] returns true
    exactly when both the group's element collection and the set acted on
    are empty: the compatibility loop is then not entered. *)
Theorem is_valid_true_iff_empty {T X : Type} `{PyEq T} `{PyEq X}
    (els : list T) (f : T -> T -> result T) (G : Group T)
    (Xs : list X) (act : T -> X -> result X) :
  Group_init els f = Ok G ->
  (is_valid (mkGroupActor G Xs act) = Ok true <-> els = [] /\ Xs = []).
Proof.
  intros HG. destruct (Group_init_fields _ _ HG) as [Hel _].
  destruct els as [| a els].
  - cbv in HG. inversion HG; subst G. clear HG Hel.
    destruct Xs as [| x Xs].
    + split; [now split | reflexivity].
    + split; [discriminate | intros [_ E]; discriminate E].
  - split; [| intros [E _]; discriminate E].
    unfold is_valid. rewrite compatibility_loop_raises by (simpl; congruence).
    destruct (identity_loop (mkGroupActor G Xs act)) as [[|] |]; simpl; discriminate.
Qed.

Lemma is_valid_true_iff_empty_witness :
  is_valid (mkGroupActor (mkGroup [] (add_mod 2) None []) (@nil Z) (add_mod 2))
    = Ok true <-> @nil Z = [] /\ @nil Z = [].
Proof.
  apply (@is_valid_true_iff_empty Z Z _ _ [] (add_mod 2)
           (mkGroup [] (add_mod 2) None []) [] (add_mod 2)).
  reflexivity.
Defined.

(** ** The product over one element collection *)

Section ProductFacts.
Context {T : Type} {EqT : PyEq T}.
Variables (els : list T) (f h : T -> T -> result T) (e e' : T).
Hypothesis Hf : is_group els f e.
Hypothesis Hh : is_group els h e'.

Local Notation "'fp'" :=
  (fun a b : T * T =>
     x <- f (fst a) (fst b) ;; y <- h (snd a) (snd b) ;; Ok (x, y)).

Lemma pair_op_ok (a b : T * T) :
  In a (list_prod els els) -> In b (list_prod els els) ->
  fp a b = Ok (op f (fst a) (fst b), op h (snd a) (snd b)).
Proof.
  destruct a as [a1 a2], b as [b1 b2]. rewrite !in_prod_iff.
  intros [I1 I2] [J1 J2]. simpl.
  now rewrite (op_ok Hf a1 b1 I1 J1), (op_ok Hh a2 b2 I2 J2).
Qed.

Lemma pair_op_in (a b : T * T) :
  In a (list_prod els els) -> In b (list_prod els els) ->
  In (op f (fst a) (fst b), op h (snd a) (snd b)) (list_prod els els).
Proof.
  destruct a as [a1 a2], b as [b1 b2]. rewrite !in_prod_iff.
  intros [I1 I2] [J1 J2]. simpl.
  split; [now apply (op_in Hf) | now apply (op_in Hh)].
Qed.

Lemma pair_op (a b : T * T) :
  In a (list_prod els els) -> In b (list_prod els els) ->
  op fp a b = (op f (fst a) (fst b), op h (snd a) (snd b)).
Proof.
  intros Ia Ib. unfold op at 1. now rewrite (pair_op_ok a b Ia Ib).
Qed.

Lemma pairs_are_group : is_group (list_prod els els) fp (e, e').
Proof.
  constructor.
  - intros a b Ia Ib. eexists. split; [now apply pair_op_ok | now apply pair_op_in].
  - intros a b c Ia Ib Ic.
    rewrite (pair_op a b Ia Ib), (pair_op b c Ib Ic).
    rewrite pair_op; [| now apply pair_op_in | assumption].
    rewrite (pair_op a); [| assumption | now apply pair_op_in].
    destruct a as [a1 a2], b as [b1 b2], c as [c1 c2].
    rewrite in_prod_iff in Ia, Ib, Ic. simpl.
    f_equal; [apply (op_assoc Hf) | apply (op_assoc Hh)]; tauto.
  - apply in_prod_iff. split; [apply (e_in Hf) | apply (e_in Hh)].
  - intros [a1 a2] Ia. rewrite in_prod_iff in Ia. destruct Ia as [I1 I2]. simpl.
    destruct (grp_id Hf a1 I1) as [-> ->], (grp_id Hh a2 I2) as [-> ->].
    now split.
  - intros [a1 a2] Ia. rewrite in_prod_iff in Ia. destruct Ia as [I1 I2].
    destruct (grp_inv Hf a1 I1) as (b1 & J1 & E1).
    destruct (grp_inv Hh a2 I2) as (b2 & J2 & E2).
    exists (b1, b2). split; [now apply in_prod_iff |].
    simpl. now rewrite E1, E2.
Qed.
End ProductFacts.

(** X24: when the operation of [H] also makes the elements of [G] a group
    (as when [H] has the elements of [G]), [G.product(H)] is constructed
    without an exception and is the direct product on the pairs of elements
    of [G]: a group under the component-wise operation, with the pair of the
    two identities cached as identity. *)
Theorem product_on_shared_elements {T : Type} {EqT : PyEq T} (els : list T)
    (f : T -> T -> result T) (e e' : T) (G H : Group T) :
  is_group els f e ->
  Group_init els f = Ok G ->
  is_group els (fn H) e' ->
  exists P, product G H = Ok P /\
    elements P = list_prod els els /\
    identity P = Some (e, e') /\
    is_group (list_prod els els) (fn P) (e, e') /\
    forall a b, In a (list_prod els els) -> In b (list_prod els els) ->
      operation P a b = Ok (op f (fst a) (fst b), op (fn H) (snd a) (snd b)).
Proof.
  intros Hf HG Hh. destruct (Group_init_fields _ _ HG) as [Hel Hfn].
  pose proof (pairs_are_group Hf Hh) as Hp.
  unfold product. rewrite Hel, Hfn.
  destruct (Group_init_group Hp) as [P HP].
  exists P. split; [exact HP |].
  destruct (Group_init_fields _ _ HP) as [HelP HfnP].
  split; [exact HelP |].
  split; [exact (Group_init_group_identity Hp HP) |].
  split; [rewrite HfnP; exact Hp |].
  intros a b Ia Ib. unfold operation. rewrite HfnP.
  now apply (pair_op_ok Hf Hh).
Qed.

Lemma product_on_shared_elements_witness :
  exists P, product Z2 Z2 = Ok P /\
    elements P = list_prod [0; 1]%Z [0; 1]%Z /\
    identity P = Some (0, 0)%Z /\
    is_group (list_prod [0; 1]%Z [0; 1]%Z) (fn P) (0, 0)%Z /\
    forall a b, In a (list_prod [0; 1]%Z [0; 1]%Z) ->
      In b (list_prod [0; 1]%Z [0; 1]%Z) ->
      operation P a b =
      Ok (op (add_mod 2) (fst a) (fst b), op (fn Z2) (snd a) (snd b)).
Proof.
  apply (@product_on_shared_elements Z _ [0; 1]%Z (add_mod 2) 0%Z 0%Z Z2 Z2).
  - exact Z2_is_group.
  - reflexivity.
  - exact Z2_is_group.
Defined.
